(** * llm-spend: pricing, log ingestion and aggregation

    A shallow embedding of [src/pricing.js], of the log parser
    ([loadAllEvents], [parseJSONL], [extractHumanText]) and of the
    aggregation functions of the server ([filterByDate],
    [computeOverview], [computeTopSessions], [computeEvents]), followed
    by the properties of the specification that concern them.

    Conventions of the embedding.
    - A JavaScript string is a sequence of UTF-16 code units.  The model
      covers the code units below 256 (ASCII and Latin-1), one [ascii]
      per code unit; [<] on strings is the code-unit-wise lexicographic
      order, which is [String.ltb].
    - A JavaScript number is an IEEE 754 binary64 value.  The token
      counts of one event, lengths, page numbers and limits are integers
      and are modelled by [N] and [Z]; the number of the elements of an
      array is below 2^32, so that counting them is exact.  Amounts of
      money and sums of token counts are computed with [/], [*], [+] and
      [-] on doubles: the code is written once over the interface
      [JsNumber] and instantiated with the primitive binary64 floats
      ([float_JsNumber], the arithmetic the program runs on) and with
      the rationals ([Q_JsNumber], the same formulas without
      rounding).
    - [undefined] and [null] are [None]; a field that the code tests for
      truthiness is an [option] and the test is written out.
    - A [Set] that is only asked for membership is a [gset]; a [Map] that
      is only read by key is a [gmap]; a [Map] or [Set] whose iteration
      order reaches the result is a list in insertion order. *)

From Stdlib Require Import Bool Ascii String List ZArith NArith QArith Lia.
From Stdlib Require Import Sorted Permutation.
From Stdlib Require Import Floats.
From stdpp Require Import gmap strings.
Import ListNotations.

Close Scope Q_scope.
Open Scope string_scope.
Open Scope list_scope.

Set Implicit Arguments.

(* ================================================================== *)
(** * JavaScript strings *)
(* ================================================================== *)

Module JsString.

(** [c] is one of [0-9], what [\d] matches. *)
Definition isDigit (c : ascii) : bool :=
  let n := N_of_ascii c in ((48 <=? n) && (n <=? 57))%N.

(** [String.prototype.toLowerCase] on one code unit below 256: the
    ASCII capitals, and the Latin-1 capitals U+00C0..U+00DE except the
    multiplication sign U+00D7, move up by 32. *)
Definition lowerChar (c : ascii) : ascii :=
  let n := N_of_ascii c in
  if (((65 <=? n) && (n <=? 90))
      || ((192 <=? n) && (n <=? 222) && negb (n =? 215)))%N
  then ascii_of_N (n + 32) else c.

Fixpoint toLowerCase (s : string) : string :=
  match s with
  | EmptyString => EmptyString
  | String c s' => String (lowerChar c) (toLowerCase s')
  end.

(** [s.startsWith(p)]. *)
Definition startsWith (s p : string) : bool := String.prefix p s.

(** [s.endsWith(p)]. *)
Definition endsWith (s p : string) : bool :=
  let n := String.length s in
  let k := String.length p in
  (k <=? n)%nat && String.eqb (String.substring (n - k) k s) p.

(** [s.slice(0, n)] for [0 <= n]. *)
Definition sliceTo (n : nat) (s : string) : string := String.substring 0 n s.

(** White space and line terminators below 256, what [trim] removes:
    TAB, LF, VT, FF, CR, SPACE and NO-BREAK SPACE. *)
Definition isSpace (c : ascii) : bool :=
  let n := N_of_ascii c in
  (((9 <=? n) && (n <=? 13)) || (n =? 32) || (n =? 160))%N.

Fixpoint trimStart (s : string) : string :=
  match s with
  | EmptyString => EmptyString
  | String c s' => if isSpace c then trimStart s' else s
  end.

(** Drops the white space at the end: a suffix is kept from its first
    character that is followed by a non-space or is one itself. *)
Fixpoint trimEnd (s : string) : string :=
  match s with
  | EmptyString => EmptyString
  | String c s' =>
      match trimEnd s' with
      | EmptyString => if isSpace c then EmptyString else String c EmptyString
      | t => String c t
      end
  end.

(** [s.trim()]. *)
Definition trim (s : string) : string := trimEnd (trimStart s).

(** [parts.join(sep)]. *)
Fixpoint join (sep : string) (parts : list string) : string :=
  match parts with
  | [] => EmptyString
  | [p] => p
  | p :: rest => String.append p (String.append sep (join sep rest))
  end.

(** ** The two regular expressions of [lookupModel]

      Both have the shape [/c1 c2 ... ck $/] where each [ci] is a literal
      character or [\d]: a fixed-length pattern anchored at the end of
      the input. *)
Inductive PatItem : Type :=
  | PLit (c : ascii)
  | PDigit.

Definition matchItem (p : PatItem) (c : ascii) : bool :=
  match p with
  | PLit a => Ascii.eqb a c
  | PDigit => isDigit c
  end.

(** The pattern followed by [$] matches at the start of [s]. *)
Fixpoint matchesToEnd (p : list PatItem) (s : string) : bool :=
  match p, s with
  | [], EmptyString => true
  | q :: p', String c s' => matchItem q c && matchesToEnd p' s'
  | _, _ => false
  end.

(** [s.replace(/p$/, '')]: the regular expression is tried at each
    start position from the left; the first position where it matches
    is where the match (which reaches the end of the input) is cut. *)
Fixpoint replaceAtEnd (p : list PatItem) (s : string) : string :=
  if matchesToEnd p s then EmptyString
  else match s with
       | EmptyString => EmptyString
       | String c s' => String c (replaceAtEnd p s')
       end.

(** [/-\d{8}$/] *)
Definition reDate8 : list PatItem :=
  [PLit "-"; PDigit; PDigit; PDigit; PDigit; PDigit; PDigit; PDigit; PDigit].

(** [/-\d{4}-\d{2}-\d{2}$/] *)
Definition reDateDashed : list PatItem :=
  [PLit "-"; PDigit; PDigit; PDigit; PDigit;
   PLit "-"; PDigit; PDigit; PLit "-"; PDigit; PDigit].

(** [re.test(s)] for an end-anchored pattern: some suffix matches. *)
Fixpoint testAtEnd (p : list PatItem) (s : string) : bool :=
  matchesToEnd p s
  || match s with
     | EmptyString => false
     | String _ s' => testAtEnd p s'
     end.

(** [s] still carries a date suffix of one of the two forms. *)
Definition endsWithDateSuffix (s : string) : bool :=
  testAtEnd reDate8 s || testAtEnd reDateDashed s.

(** [x || null] on an optional string: the empty string is falsy. *)
Definition truthy (o : option string) : option string :=
  match o with
  | Some EmptyString => None
  | _ => o
  end.

Definition isTruthy (o : option string) : bool :=
  match truthy o with Some _ => true | None => false end.

End JsString.

Import JsString.

(* ================================================================== *)
(** * JavaScript numbers used for amounts *)
(* ================================================================== *)

(** The operations the program applies to amounts of money. *)
Class JsNumber (num : Type) : Type := {
  num_of_N : N -> num;            (* a number that holds a non-negative integer *)
  num_of_Q : Q -> num;            (* a decimal literal, given by its exact value *)
  num_add : num -> num -> num;    (* [x + y] *)
  num_sub : num -> num -> num;    (* [x - y] *)
  num_mul : num -> num -> num;    (* [x * y] *)
  num_div : num -> num -> num;    (* [x / y] *)
  num_ltb : num -> num -> bool;   (* [x < y] *)
  num_eqb : num -> num -> bool    (* [x == y] *)
}.

Definition num_zero {num} `{JsNumber num} : num := num_of_N 0.

(** The comparison function [(a, b) => b.cost_usd - a.cost_usd] is
    negative exactly when [b.cost_usd < a.cost_usd], and [<] never holds
    in both directions. *)
Class OrderedNumber (num : Type) `{JsNumber num} : Prop := {
  num_sub_negative : forall a b, num_ltb (num_sub a b) num_zero = num_ltb a b;
  num_ltb_asym : forall a b, num_ltb a b = true -> num_ltb b a = false
}.

(** Addition without rounding: sums do not depend on the order in which
    they are taken. *)
Class ExactAddition (num : Type) `{JsNumber num} : Prop := {
  num_add_assoc : forall a b c, num_add (num_add a b) c = num_add a (num_add b c);
  num_add_comm : forall a b, num_add a b = num_add b a;
  num_add_zero_l : forall a, num_add num_zero a = a
}.

(** Sums that do not round.  [scaled k q] is the number [k * 2^q].
    Numbers that are multiples of one power of two are added without
    rounding as long as the sum stays below 2^53 units; for [q = 0]
    these are the non-negative integers. *)
Class ExactSums (num : Type) `{JsNumber num} (scaled : N -> Z -> num) : Prop := {
  scaled_integer : forall k, scaled k 0%Z = num_of_N k;
  scaled_zero : forall q, scaled 0%N q = num_zero;
  scaled_add :
    forall a b q, (-1074 <= q <= 971)%Z -> (a + b < 2 ^ 53)%N ->
      num_add (scaled a q) (scaled b q) = scaled (a + b)%N q
}.

Arguments OrderedNumber num {H}.
Arguments ExactAddition num {H}.
Arguments ExactSums num {H} scaled.

(** ** IEEE 754 binary64, the arithmetic of the program *)

(** The double nearest to an integer (ties to even): what a number
    literal or [JSON.parse] yields for it. *)
Definition float_of_Z (z : Z) : float :=
  SF2Prim (binary_normalize prec emax z 0 false).

(** The double nearest to a decimal literal: numerator and denominator
    of the literals of the source are below 2^53 and so exact, and the
    division is correctly rounded. *)
Definition float_of_Q (q : Q) : float :=
  PrimFloat.div (float_of_Z (Qnum q)) (float_of_Z (Zpos (Qden q))).

(** The double nearest to [k * 2^q]. *)
Definition float_scaled (k : N) (q : Z) : float :=
  SF2Prim (binary_normalize prec emax (Z.of_N k) q false).

#[export] Instance float_JsNumber : JsNumber float := {
  num_of_N n := float_of_Z (Z.of_N n);
  num_of_Q := float_of_Q;
  num_add := PrimFloat.add;
  num_sub := PrimFloat.sub;
  num_mul := PrimFloat.mul;
  num_div := PrimFloat.div;
  num_ltb := PrimFloat.ltb;
  num_eqb := PrimFloat.eqb
}.

(** The binary64 value [x], as the pair of a mantissa and an exponent
    that specifies it, is zero or positive and below [2^K]. *)
Definition below (K : Z) (x : spec_float) : Prop :=
  match x with
  | S754_zero false => True
  | S754_finite false m e => (Zpos (digits2_pos m) + e <= K)%Z
  | _ => False
  end.

Definition belowb (K : Z) (x : spec_float) : bool :=
  match x with
  | S754_zero false => true
  | S754_finite false m e => (Zpos (digits2_pos m) + e <=? K)%Z
  | _ => false
  end.

(** The double [f] is zero or positive and below [2^K]. *)
Definition fbelow (K : Z) (f : float) : Prop := below K (Prim2SF f).

(** The binary64 value [x] is not zero and has the sign [s]. *)
Definition signed (s : bool) (x : spec_float) : Prop :=
  match x with
  | S754_finite s' _ _ | S754_infinity s' => s' = s
  | _ => False
  end.

(** ** Rationals, the same formulas without rounding *)

Definition Qltb (x y : Q) : bool := negb (Qle_bool y x).

Definition Q_JsNumber : JsNumber Q := {|
  num_of_N n := inject_Z (Z.of_N n);
  num_of_Q q := q;
  num_add := Qplus;
  num_sub := Qminus;
  num_mul := Qmult;
  num_div := Qdiv;
  num_ltb := Qltb;
  num_eqb := Qeq_bool
|}.

(* ================================================================== *)
(** * src/pricing.js *)
(* ================================================================== *)

Module Pricing.

(** One row of [PRICING]: prices in USD per 1,000,000 tokens; [None]
    is [null]. *)
Record PricingEntry : Type := mkEntry {
  prefix : string;
  provider : string;
  input : Q;
  output : Q;
  cache_write : option Q;
  cache_read : option Q
}.

Definition anthropic p i o cw cr : PricingEntry :=
  mkEntry p "anthropic" i o (Some cw) (Some cr).

Definition openai p i o cr : PricingEntry :=
  mkEntry p "openai" i o None cr.

Definition PRICING : list PricingEntry := [
    (* Anthropic Claude 4.6 *)
    anthropic "claude-opus-4-6"   5.00%Q 25.00%Q 6.25%Q 0.50%Q;
    anthropic "claude-sonnet-4-6" 3.00%Q 15.00%Q 3.75%Q 0.30%Q;
    anthropic "claude-haiku-4-6"  1.00%Q 5.00%Q  1.25%Q 0.10%Q;
    (* Anthropic Claude 4.5 *)
    anthropic "claude-opus-4-5"   5.00%Q 25.00%Q 6.25%Q 0.50%Q;
    anthropic "claude-sonnet-4-5" 3.00%Q 15.00%Q 3.75%Q 0.30%Q;
    anthropic "claude-haiku-4-5"  1.00%Q 5.00%Q  1.25%Q 0.10%Q;
    (* Anthropic Claude 4.0 / 4.1 *)
    anthropic "claude-opus-4-1"   15.00%Q 75.00%Q 18.75%Q 1.50%Q;
    anthropic "claude-opus-4"     15.00%Q 75.00%Q 18.75%Q 1.50%Q;
    (* Anthropic Claude 3.x *)
    anthropic "claude-opus-3"     15.00%Q 75.00%Q 18.75%Q 1.50%Q;
    anthropic "claude-sonnet-3-7" 3.00%Q 15.00%Q 3.75%Q 0.30%Q;
    anthropic "claude-sonnet-3-5" 3.00%Q 15.00%Q 3.75%Q 0.30%Q;
    anthropic "claude-sonnet-3"   3.00%Q 15.00%Q 3.75%Q 0.30%Q;
    anthropic "claude-haiku-3-5"  0.80%Q 4.00%Q  1.00%Q 0.08%Q;
    anthropic "claude-haiku-3"    0.25%Q 1.25%Q  0.30%Q 0.03%Q;
    (* OpenAI GPT-4o family *)
    openai "gpt-4o-mini"   0.15%Q  0.60%Q  (Some 0.075%Q);
    openai "gpt-4o"        2.50%Q  10.00%Q (Some 1.25%Q);
    openai "gpt-4-turbo"   10.00%Q 30.00%Q None;
    openai "gpt-4"         30.00%Q 60.00%Q None;
    openai "gpt-3.5-turbo" 0.50%Q  1.50%Q  None;
    (* OpenAI o-series *)
    openai "o4-mini" 1.10%Q  4.40%Q  (Some 0.275%Q);
    openai "o3-mini" 1.10%Q  4.40%Q  (Some 0.55%Q);
    openai "o3"      10.00%Q 40.00%Q (Some 2.50%Q);
    openai "o1-mini" 3.00%Q  12.00%Q (Some 1.50%Q);
    openai "o1"      15.00%Q 60.00%Q (Some 7.50%Q)
  ].

(** The local [normalised] of [lookupModel]:
    [model.toLowerCase().replace(/-\d{8}$/, '').replace(/-\d{4}-\d{2}-\d{2}$/, '')]. *)
Definition normalised (model : string) : string :=
  replaceAtEnd reDateDashed (replaceAtEnd reDate8 (toLowerCase model)).

(** [lookupModel(model)]: [None] for an empty model ([!model]) and when
    no prefix of the table matches. *)
Definition lookupModel (model : string) : option PricingEntry :=
  match model with
  | EmptyString => None
  | _ => List.find (fun p => startsWith (normalised model) (prefix p)) PRICING
  end.

Section Cost.
Context {num : Type} `{JsNumber num}.

(** [rate || 0] for a nullable rate of the table. *)
Definition rateOrZero (r : option Q) : num :=
  match r with
  | Some q => if Qeq_bool q 0 then num_zero else num_of_Q q
  | None => num_zero
  end.

(** [tokens / M * rate] *)
Definition perMillion (tokens : N) (rate : num) : num :=
  num_mul (num_div (num_of_N tokens) (num_of_N 1000000)) rate.

(** [computeCostUSD].  The token counts are numbers holding
    non-negative integers, for which [tokens || 0] is [tokens]. *)
Definition computeCostUSD (model : string)
    (inputTokens outputTokens cacheCreationTokens cacheReadTokens : N) : num :=
  match lookupModel model with
  | None => num_zero
  | Some entry =>
      let cost := num_zero in
      let cost := num_add cost (perMillion inputTokens (num_of_Q (input entry))) in
      let cost := num_add cost (perMillion outputTokens (num_of_Q (output entry))) in
      let cost := num_add cost (perMillion cacheCreationTokens (rateOrZero (cache_write entry))) in
      let cost := num_add cost (perMillion cacheReadTokens (rateOrZero (cache_read entry))) in
      cost
  end.
End Cost.

(** The four rates of an entry, as doubles, are below 128. *)
Definition ratesBelow (entry : PricingEntry) : bool :=
  belowb 7 (Prim2SF (num_of_Q (num:=float) (input entry)))
  && belowb 7 (Prim2SF (num_of_Q (num:=float) (output entry)))
  && belowb 7 (Prim2SF (rateOrZero (num:=float) (cache_write entry)))
  && belowb 7 (Prim2SF (rateOrZero (num:=float) (cache_read entry))).

(** [inferProvider(model)] for a non-empty or empty model string. *)
Definition inferProvider (model : string) : string :=
  match model with
  | EmptyString => "unknown"
  | _ =>
      match lookupModel model with
      | Some entry => provider entry
      | None =>
          if startsWith model "gpt-" || startsWith model "o1"
             || startsWith model "o3" || startsWith model "o4"
          then "openai"
          else if startsWith model "claude" then "anthropic"
          else "unknown"
      end
  end.

End Pricing.

(* ================================================================== *)
(** * JavaScript arrays and insertion-ordered maps *)
(* ================================================================== *)

Module JsArray.
Section Sort.
Variable A : Type.

(** [before x y] is the test [comparefn(x, y) < 0]. *)
Variable before : A -> A -> bool.

(** [x] is put in front of the first element it must precede. *)
Fixpoint insertSorted (x : A) (l : list A) : list A :=
  match l with
  | [] => [x]
  | y :: l' => if before x y then x :: l else y :: insertSorted x l'
  end.

(** [Array.prototype.sort(comparefn)].  The sort is stable.  The
    engine of node (V8: binary insertion and merging of runs) only
    ever asks whether [comparefn(x, y) < 0] for an element [x] that
    stood to the right of [y]; the elements are inserted from left
    to right, each one behind the elements it does not precede. *)
Definition sort (l : list A) : list A :=
  fold_left (fun acc x => insertSorted x acc) l [].

(** [a] may stand in front of [b]: [b] does not have to precede [a]. *)
Definition inOrder (a b : A) : Prop := before b a = false.

(** A class of elements none of which has to precede another one, such
    as the elements with one given sort key. *)
Definition unordered (P : A -> bool) : Prop :=
  forall x z, P x = true -> P z = true -> before x z = false.
End Sort.

Section Slice.
Variable A : Type.

(** A relative index of [slice] clamped into [0, len]. *)
Definition relIndex (len i : Z) : Z :=
  if (i <? 0)%Z then Z.max (len + i) 0 else Z.min i len.

(** [l.slice(start, end)] for integer arguments. *)
Definition slice (start end_ : Z) (l : list A) : list A :=
  let len := Z.of_nat (length l) in
  let k := relIndex len start in
  let final := relIndex len end_ in
  firstn (Z.to_nat (final - k)) (skipn (Z.to_nat k) l).
End Slice.

Section OrderedMap.
Variables V : Type.

(** [if (!map.has(k)) map.set(k, init); update(map.get(k))] on a
    [Map] with string keys, kept as the list of its entries in
    insertion order: an existing entry is updated in place, a new
    one goes to the end. *)
Fixpoint upsert (k : string) (init : V) (update : V -> V)
    (m : list (string * V)) : list (string * V) :=
  match m with
  | [] => [(k, update init)]
  | (k', v) :: m' =>
      if String.eqb k k' then (k', update v) :: m'
      else (k', v) :: upsert k init update m'
  end.

(** [[...map.values()]] *)
Definition values (m : list (string * V)) : list V := List.map snd m.

(** A loop that groups the elements of an array by a key: the value of a
    new key is made from the element that brings it, and every element
    updates the value of its key. *)
Variable E : Type.
Variable key : E -> string.
Variable init : E -> V.
Variable update : E -> V -> V.

(** The map after the loop over [l]. *)
Definition grouped (l : list E) : list (string * V) :=
  fold_left (fun m e => upsert (key e) (init e) (update e) m) l [].

(** The elements of [l] with key [k]. *)
Definition group (k : string) (l : list E) : list E :=
  List.filter (fun e => String.eqb (key e) k) l.

(** The value that the loop leaves for the group [g], whose first
    element is [e0]. *)
Definition folded (e0 : E) (g : list E) : V :=
  fold_left (fun v e => update e v) g (init e0).
End OrderedMap.

(** [set.add(x)] on a [Set] of strings kept in insertion order. *)
Fixpoint setAdd (x : string) (s : list string) : list string :=
  match s with
  | [] => [x]
  | y :: s' => if String.eqb x y then s else y :: setAdd x s'
  end.
End JsArray.

(* ================================================================== *)
(** * The usage event *)
(* ================================================================== *)

Record UsageEvent (num : Type) : Type := mkEvent {
  provider : string;
  model : string;
  session_id : option string;
  project_path : option string;
  request_id : string;
  occurred_at : string;
  input_tokens : N;
  output_tokens : N;
  cache_creation_tokens : N;
  cache_read_tokens : N;
  cost_usd : num;
  source : string;
  prompt_text : option string
}.

(* ================================================================== *)
(** * The log parser *)
(* ================================================================== *)

Module Parser.

(** [message.usage] of a log record. *)
Record Usage : Type := mkUsage {
  u_input_tokens : option N;
  u_output_tokens : option N;
  u_cache_creation_input_tokens : option N;
  u_cache_read_input_tokens : option N
}.

(** An item of a structured [message.content]: its [type] and its
    [text] when that is a string. *)
Record ContentItem : Type := mkItem {
  item_type : option string;
  item_text : option string
}.

Inductive Content : Type :=
  | CString (s : string)
  | CArray (items : list ContentItem)
  | COther.

Record Message : Type := mkMessage {
  m_id : option string;
  m_model : option string;
  m_usage : option Usage;
  m_content : option Content
}.

(** One parsed log line. *)
Record LogRecord : Type := mkRecord {
  r_type : option string;
  r_message : option Message;
  r_sessionId : option string;
  r_cwd : option string;
  r_timestamp : option string;
  r_isSidechain : bool
}.

(** One line of a log file as [parseJSONL] meets it. *)
Inductive Line : Type :=
  | Blank                          (* empty once trimmed *)
  | Malformed                      (* [JSON.parse] throws *)
  | JsonNull                       (* the text [null]: reading [obj.type] throws *)
  | JsonRecord (obj : LogRecord).  (* any other value; a value that is not
                                      an object has none of the fields *)

(** [sessions-index.json] of a slug directory. *)
Record IndexEntry : Type := mkIndexEntry {
  fullPath : option string;
  projectPath : option string
}.

Inductive IndexFile : Type :=
  | NoIndex
  | BadIndex                                  (* unreadable or not JSON *)
  | Index (entries : list (option IndexEntry)). (* [None]: a [null] entry *)

Record DirEnt : Type := mkDirEnt {
  ent_name : string;
  ent_isFile : bool;
  ent_content : option (list Line)          (* [None]: [readFileSync] throws *)
}.

Record SlugDir : Type := mkSlugDir {
  sd_index : IndexFile;
  sd_entries : option (list DirEnt)         (* [None]: [readdirSync] throws *)
}.

(** The Claude data directory as [loadAllEvents] finds it. *)
Inductive ClaudeDir : Type :=
  | DirMissing
  | ProjectsMissing
  | ProjectsUnreadable                        (* [readdirSync(projectsDir)] throws *)
  | Projects (slugDirs : list SlugDir).

(** [path.basename] (POSIX): the last non-empty component. *)
Fixpoint basenameFrom (cur last : string) (p : string) : string :=
  match p with
  | EmptyString => match cur with EmptyString => last | _ => cur end
  | String c p' =>
      if Ascii.eqb c "/"
      then basenameFrom EmptyString
             (match cur with EmptyString => last | _ => cur end) p'
      else basenameFrom (String.append cur (String c EmptyString)) last p'
  end.

Definition basename (p : string) : string :=
  basenameFrom EmptyString EmptyString p.

(** [extractHumanText(content)] *)
Definition extractHumanText (content : option Content) : option string :=
  match content with
  | None => None
  | Some (CString EmptyString) => None
  | Some (CString s) => truthy (Some (sliceTo 400 (trim s)))
  | Some (CArray items) =>
      let parts :=
        List.flat_map
          (fun item =>
             match item_type item, item_text item with
             | Some ty, Some text =>
                 if String.eqb ty "text" then [trim text] else []
             | _, _ => []
             end) items in
      let joined := trim (join " " parts) in
      match joined with
      | EmptyString => None
      | _ => Some (sliceTo 400 joined)
      end
  | Some COther => None
  end.

(** [item.type === 'text' && typeof item.text === 'string'] *)
Definition isTextItem (item : ContentItem) : bool :=
  match item_type item, item_text item with
  | Some ty, Some _ => String.eqb ty "text"
  | _, _ => false
  end.

(** [t] is the human text of a user record among [lines]. *)
Definition humanTextOf (lines : list Line) (t : string) : Prop :=
  exists obj msg,
    In (JsonRecord obj) lines
    /\ r_type obj = Some "user"
    /\ r_message obj = Some msg
    /\ extractHumanText (m_content msg) = Some t.

(** The entries of the index read up to a [null] entry, at which the
    loop throws into the enclosing [catch]: the map filled so far, and
    whether the loop ran to its end. *)
Fixpoint indexEntries (entries : list (option IndexEntry))
    (m : gmap string (option string)) : gmap string (option string) * bool :=
  match entries with
  | [] => (m, true)
  | None :: _ => (m, false)
  | Some entry :: rest =>
      match truthy (fullPath entry) with
      | Some fp => indexEntries rest (<[basename fp := truthy (projectPath entry)]> m)
      | None => indexEntries rest m
      end
  end.

(** [projectPathMap] and the slug-level [projectPath] after the index
    has been read. *)
Definition readIndex (idx : IndexFile)
    : gmap string (option string) * option string :=
  match idx with
  | NoIndex | BadIndex => (∅, None)
  | Index entries =>
      let '(m, completed) := indexEntries entries ∅ in
      (m,
       if completed then
         match entries with
         | Some entry :: _ => truthy (projectPath entry)
         | _ => None
         end
       else None)
  end.

(** The index entry names the file [name]: its [fullPath] is there and
    has the base name [name]. *)
Definition entryNames (name : string) (entry : IndexEntry) : bool :=
  match truthy (fullPath entry) with
  | Some fp => String.eqb (basename fp) name
  | None => false
  end.

Section Run.
Context {num : Type} `{JsNumber num}.

(** [new Date().toISOString()] at its k-th evaluation of the run. *)
Variable clock : nat -> string.

(** What [parseJSONL] shares with its caller: the set [seen], the
    array [events], and how often the clock has been read. *)
Record Run : Type := mkRun {
  seen : gset string;
  events : list (UsageEvent num);
  ticks : nat
}.

Definition orZero (o : option N) : N :=
  match o with Some n => n | None => 0%N end.

(** The object pushed on [events]. *)
Definition newEvent (projectPath lastHumanText : option string)
    (now : string) (obj : LogRecord) (usage : Usage)
    (requestId model : string) : UsageEvent num :=
  let inputTokens := orZero (u_input_tokens usage) in
  let outputTokens := orZero (u_output_tokens usage) in
  let cacheCreationTokens := orZero (u_cache_creation_input_tokens usage) in
  let cacheReadTokens := orZero (u_cache_read_input_tokens usage) in
  {| provider := Pricing.inferProvider model;
     model := model;
     session_id := truthy (r_sessionId obj);
     project_path :=
       match truthy projectPath with
       | Some p => Some p
       | None => truthy (r_cwd obj)
       end;
     request_id := requestId;
     occurred_at :=
       match truthy (r_timestamp obj) with
       | Some t => t
       | None => now
       end;
     input_tokens := inputTokens;
     output_tokens := outputTokens;
     cache_creation_tokens := cacheCreationTokens;
     cache_read_tokens := cacheReadTokens;
     cost_usd :=
       Pricing.computeCostUSD model inputTokens outputTokens
         cacheCreationTokens cacheReadTokens;
     source := if r_isSidechain obj then "claude-code-subagent" else "claude-code";
     prompt_text := truthy lastHumanText |}.

(** One turn of the loop of [parseJSONL]: the shared state and
    [lastHumanText] after the line, or [None] when the line throws. *)
Definition parseLine (projectPath : option string) (st : Run)
    (lastHumanText : option string) (line : Line)
    : option (Run * option string) :=
  match line with
  | Blank | Malformed => Some (st, lastHumanText)
  | JsonNull => None
  | JsonRecord obj =>
      if bool_decide (r_type obj = Some "user") then
        let text :=
          match r_message obj with
          | Some msg => extractHumanText (m_content msg)
          | None => None
          end in
        Some (st, match truthy text with
                  | Some t => Some t
                  | None => lastHumanText
                  end)
      else if negb (bool_decide (r_type obj = Some "assistant")) then
        Some (st, lastHumanText)
      else
        match r_message obj with
        | None => Some (st, lastHumanText)
        | Some msg =>
        match m_usage msg with
        | None => Some (st, lastHumanText)
        | Some usage =>
        match truthy (m_id msg) with
        | None => Some (st, lastHumanText)
        | Some requestId =>
            if bool_decide (requestId ∈ seen st) then Some (st, lastHumanText)
            else
              let seen' := {[ requestId ]} ∪ seen st in
              match truthy (m_model msg) with
              | None => Some (mkRun seen' (events st) (ticks st), lastHumanText)
              | Some model =>
                  if String.eqb model "<synthetic>"
                  then Some (mkRun seen' (events st) (ticks st), lastHumanText)
                  else
                    let ticks' :=
                      match truthy (r_timestamp obj) with
                      | Some _ => ticks st
                      | None => S (ticks st)
                      end in
                    let ev :=
                      newEvent projectPath lastHumanText (clock (ticks st))
                        obj usage requestId model in
                    Some (mkRun seen' (events st ++ [ev]) ticks', lastHumanText)
              end
        end end end
  end.

Fixpoint parseLines (projectPath : option string) (st : Run)
    (lastHumanText : option string) (lines : list Line) : option Run :=
  match lines with
  | [] => Some st
  | line :: rest =>
      match parseLine projectPath st lastHumanText line with
      | None => None
      | Some (st', lastHumanText') => parseLines projectPath st' lastHumanText' rest
      end
  end.

(** [parseJSONL(filePath, projectPath, seen, events)]; the file is
    given by its lines, or [None] when it cannot be read. *)
Definition parseJSONL (content : option (list Line))
    (projectPath : option string) (st : Run) : option Run :=
  match content with
  | None => Some st
  | Some lines => parseLines projectPath st None lines
  end.

(** The inner loop of [loadAllEvents] over the entries of a slug
    directory. *)
Fixpoint loadEntries (projectPathMap : gmap string (option string))
    (projectPath : option string) (entries : list DirEnt) (st : Run)
    : option Run :=
  match entries with
  | [] => Some st
  | ent :: rest =>
      if negb (ent_isFile ent) || negb (endsWith (ent_name ent) ".jsonl")
      then loadEntries projectPathMap projectPath rest st
      else
        let proj :=
          match projectPathMap !! ent_name ent with
          | Some (Some p) => Some p
          | _ => projectPath
          end in
        match parseJSONL (ent_content ent) proj st with
        | None => None
        | Some st' => loadEntries projectPathMap projectPath rest st'
        end
  end.

(** The outer loop of [loadAllEvents]. *)
Fixpoint loadSlugDirs (slugDirs : list SlugDir) (st : Run) : option Run :=
  match slugDirs with
  | [] => Some st
  | slugDir :: rest =>
      let '(projectPathMap, projectPath) := readIndex (sd_index slugDir) in
      match sd_entries slugDir with
      | None => loadSlugDirs rest st
      | Some entries =>
          match loadEntries projectPathMap projectPath entries st with
          | None => None
          | Some st' => loadSlugDirs rest st'
          end
      end
  end.

(** [events] as it stands before the final sort; [None] when the
    scan throws. *)
Definition collectEvents (claudeDir : ClaudeDir) : option (list (UsageEvent num)) :=
  match claudeDir with
  | DirMissing | ProjectsMissing => Some []
  | ProjectsUnreadable => None
  | Projects slugDirs =>
      match loadSlugDirs slugDirs (mkRun ∅ [] 0) with
      | None => None
      | Some st => Some (events st)
      end
  end.

(** The comparison function of the final sort:
    [(a, b) => (a.occurred_at < b.occurred_at ? -1 : 1)]. *)
Definition byTimestamp (a b : UsageEvent num) : Z :=
  if String.ltb (occurred_at a) (occurred_at b) then (-1)%Z else 1%Z.

(** [loadAllEvents(claudeDir)]: the returned array, or [None] when
    the call throws. *)
Definition loadAllEvents (claudeDir : ClaudeDir) : option (list (UsageEvent num)) :=
  match claudeDir with
  | DirMissing | ProjectsMissing => Some []
  | _ =>
      match collectEvents claudeDir with
      | None => None
      | Some events =>
          Some (JsArray.sort (fun a b => (byTimestamp a b <? 0)%Z) events)
      end
  end.

(** ** The records of a run, in the order in which they are read *)

Definition recordsOfLines (lines : list Line) : list LogRecord :=
  List.flat_map
    (fun line => match line with JsonRecord obj => [obj] | _ => [] end) lines.

Definition recordsOfEntries (entries : list DirEnt) : list LogRecord :=
  List.flat_map
    (fun ent =>
       if negb (ent_isFile ent) || negb (endsWith (ent_name ent) ".jsonl")
       then []
       else match ent_content ent with
            | Some lines => recordsOfLines lines
            | None => []
            end) entries.

Definition scanRecords (claudeDir : ClaudeDir) : list LogRecord :=
  match claudeDir with
  | Projects slugDirs =>
      List.flat_map
        (fun slugDir =>
           match sd_entries slugDir with
           | Some entries => recordsOfEntries entries
           | None => []
           end) slugDirs
  | _ => []
  end.

(** The lines of a run: those of the readable [.jsonl] files of the
    readable slug directories. *)
Definition linesOfEntries (entries : list DirEnt) : list Line :=
  List.flat_map
    (fun ent =>
       if negb (ent_isFile ent) || negb (endsWith (ent_name ent) ".jsonl")
       then []
       else match ent_content ent with
            | Some lines => lines
            | None => []
            end) entries.

Definition scanLines (claudeDir : ClaudeDir) : list Line :=
  match claudeDir with
  | Projects slugDirs =>
      List.flat_map
        (fun slugDir =>
           match sd_entries slugDir with
           | Some entries => linesOfEntries entries
           | None => []
           end) slugDirs
  | _ => []
  end.

(** The request id under which a record reaches the dedup test: the
    record is an assistant turn, with a message, usage data and a
    non-empty id. *)
Definition requestIdOf (obj : LogRecord) : option string :=
  if bool_decide (r_type obj = Some "assistant") then
    match r_message obj with
    | Some msg =>
        match m_usage msg with
        | Some _ => truthy (m_id msg)
        | None => None
        end
    | None => None
    end
  else None.

(** The model under which a record is emitted: present, non-empty and
    not the placeholder. *)
Definition emittedModel (obj : LogRecord) : option string :=
  match r_message obj with
  | Some msg =>
      match truthy (m_model msg) with
      | Some model => if String.eqb model "<synthetic>" then None else Some model
      | None => None
      end
  | None => None
  end.

(** [obj] reaches the dedup test under the request id [r]. *)
Definition hasRequestId (r : string) (obj : LogRecord) : bool :=
  bool_decide (requestIdOf obj = Some r).

(** The usage data of a record. *)
Definition usageOf (obj : LogRecord) : option Usage :=
  match r_message obj with
  | Some msg => m_usage msg
  | None => None
  end.

(** [e] is the event that [parseJSONL] pushes for the record [obj]. *)
Definition eventOf (obj : LogRecord) (e : UsageEvent num) : Prop :=
  exists (model : string) (usage : Usage)
         (projectPath lastHumanText : option string) (now : string),
    emittedModel obj = Some model
    /\ usageOf obj = Some usage
    /\ requestIdOf obj = Some (request_id e)
    /\ e = newEvent projectPath lastHumanText now obj usage (request_id e) model.

(** The events of [evs] that carry the request id [r]. *)
Definition withRequestId (r : string) (evs : list (UsageEvent num))
    : list (UsageEvent num) :=
  List.filter (fun e => String.eqb (request_id e) r) evs.

(** What the first record [obj] with request id [r] leaves in [evs]: its
    own event and no other when it has a model to emit, nothing at all
    otherwise. *)
Definition firstWins (evs : list (UsageEvent num)) (r : string)
    (obj : LogRecord) : Prop :=
  match emittedModel obj with
  | Some _ => exists e, withRequestId r evs = [e] /\ eventOf obj e
  | None => withRequestId r evs = []
  end.

(** The state of a run after the records [done] have been read. *)
(** What [parseJSONL] does to the shared state on one record. *)
Inductive recordEffect (projectPath lastHumanText : option string)
    (obj : LogRecord) (st st' : Run) : Prop :=
| NotACandidate :
    requestIdOf obj = None -> st' = st ->
    recordEffect projectPath lastHumanText obj st st'
| AlreadySeen (r : string) :
    requestIdOf obj = Some r -> r ∈ seen st -> st' = st ->
    recordEffect projectPath lastHumanText obj st st'
| SeenNoModel (r : string) :
    requestIdOf obj = Some r -> r ∉ seen st -> emittedModel obj = None ->
    st' = mkRun ({[ r ]} ∪ seen st) (events st) (ticks st) ->
    recordEffect projectPath lastHumanText obj st st'
| Emitted (r model : string) (usage : Usage) :
    requestIdOf obj = Some r -> r ∉ seen st ->
    emittedModel obj = Some model -> usageOf obj = Some usage ->
    seen st' = {[ r ]} ∪ seen st ->
    events st' =
      events st ++ [newEvent projectPath lastHumanText (clock (ticks st))
                      obj usage r model] ->
    recordEffect projectPath lastHumanText obj st st'.

Record runInvariant (done : list LogRecord) (st : Run) : Prop := {
  inv_seen :
    forall r, r ∈ seen st <-> List.find (hasRequestId r) done <> None;
  inv_events_seen :
    forall e, In e (events st) -> request_id e ∈ seen st;
  inv_nodup :
    List.NoDup (List.map (@request_id num) (events st));
  inv_first :
    forall r obj, List.find (hasRequestId r) done = Some obj ->
                  firstWins (events st) r obj
}.

End Run.
End Parser.

(* ================================================================== *)
(** * The aggregations of the server *)
(* ================================================================== *)

Module Server.

(** The first argument of [reduce] in [computeOverview]. *)
Record Totals (num : Type) : Type := mkTotals {
  t_total_requests : N;
  t_input_tokens : num;
  t_output_tokens : num;
  t_cache_creation_tokens : num;
  t_cache_read_tokens : num;
  t_cost_usd : num
}.

(** A value of [modelMap]. *)
Record ModelRow (num : Type) : Type := mkModelRow {
  m_model : string;
  m_provider : string;
  m_requests : N;
  m_input_tokens : num;
  m_output_tokens : num;
  m_cache_creation_tokens : num;
  m_cache_read_tokens : num;
  m_cost_usd : num
}.

Record Overview (num : Type) : Type := mkOverview {
  totals : Totals num;
  byModel : list (ModelRow num)
}.

(** A value of the map of [computeTopSessions]; [models] is the [Set] in
    insertion order while the events are read and its comma-joined
    members in the returned row. *)
Record SessionRow (num models : Type) : Type := mkSessionRow {
  s_session_id : option string;
  s_project_path : option string;
  s_requests : N;
  s_input_tokens : num;
  s_output_tokens : num;
  s_cache_creation_tokens : num;
  s_cache_read_tokens : num;
  s_cost_usd : num;
  s_started_at : string;
  s_ended_at : string;
  s_models : models
}.

(** The options of [computeEvents]. *)
Record EventsQuery : Type := mkQuery {
  q_page : option Z;
  q_limit : option Z;
  q_model : option string;
  q_provider : option string;
  q_from : option string;
  q_to : option string;
  q_session_id : option string;
  q_sort : option string
}.

(** The result of [computeEvents].  [pages] is [None] when [limit] is 0
    and [Math.ceil(total / limit)] is not a number or infinite. *)
Record EventPage (num : Type) : Type := mkPage {
  rows : list (UsageEvent num);
  total : Z;
  page : Z;
  limit : Z;
  pages : option Z
}.

(** A value of the map of [computeTimeseries]. *)
Record TimeseriesRow (num : Type) : Type := mkTimeseriesRow {
  ts_date : string;
  ts_model : string;
  ts_provider : string;
  ts_cost_usd : num;
  ts_requests : N
}.

(** A value of the map of [computeProjects]; [sessions] is the [Set] in
    insertion order while the events are read and its size in the
    returned row. *)
Record ProjectRow (num sessions : Type) : Type := mkProjectRow {
  p_project_path : string;
  p_requests : N;
  p_cost_usd : num;
  p_input_tokens : num;
  p_output_tokens : num;
  p_cache_read_tokens : num;
  p_cache_creation_tokens : num;
  p_sessions : sessions
}.

(** [Math.ceil(a / b)] for integers [a] and [b]; [None] for [b = 0]. *)
Definition ceilDiv (a b : Z) : option Z :=
  if (b =? 0)%Z then None else Some (- ((- a) / b))%Z.

Section Aggregations.
Context {num : Type} `{JsNumber num}.

(** [String.prototype.localeCompare], which depends on the locale of
    the host. *)
Variable localeCompare : string -> string -> Z.

(** [filterByDate(events, from, to)] *)
Definition filterByDate (events : list (UsageEvent num))
    (from to : option string) : list (UsageEvent num) :=
  match truthy from, truthy to with
  | None, None => events
  | from', to' =>
      let hi := option_map (fun t => String.append t "T23:59:59") to' in
      List.filter
        (fun e =>
           if match from' with
              | Some f => String.ltb (occurred_at e) f
              | None => false
              end then false
           else if match hi with
                   | Some h => String.ltb h (occurred_at e)
                   | None => false
                   end then false
           else true)
        events
  end.

(** The comparison function [(a, b) => b.cost_usd - a.cost_usd], on the
    cost of the two rows. *)
Definition byCostDesc (a b : num) : num := num_sub b a.

(** [comparefn(a, b) < 0] for [byCostDesc]. *)
Definition costBefore {R : Type} (cost : R -> num) (a b : R) : bool :=
  num_ltb (byCostDesc (cost a) (cost b)) num_zero.

(** [acc.field += e.field] for a token count: an addition of doubles,
    the token count of the event being the double that holds it. *)
Definition addTokens (acc : num) (tokens : N) : num := num_add acc (num_of_N tokens).

(** The callback of [reduce] in [computeOverview]. *)
Definition addToTotals (acc : Totals num) (e : UsageEvent num) : Totals num :=
  {| t_total_requests := (t_total_requests acc + 1)%N;
     t_input_tokens := addTokens (t_input_tokens acc) (input_tokens e);
     t_output_tokens := addTokens (t_output_tokens acc) (output_tokens e);
     t_cache_creation_tokens :=
       addTokens (t_cache_creation_tokens acc) (cache_creation_tokens e);
     t_cache_read_tokens := addTokens (t_cache_read_tokens acc) (cache_read_tokens e);
     t_cost_usd := num_add (t_cost_usd acc) (cost_usd e) |}.

Definition newModelRow (e : UsageEvent num) : ModelRow num :=
  {| m_model := model e; m_provider := provider e; m_requests := 0%N;
     m_input_tokens := num_zero; m_output_tokens := num_zero;
     m_cache_creation_tokens := num_zero; m_cache_read_tokens := num_zero;
     m_cost_usd := num_zero |}.

Definition addToModelRow (e : UsageEvent num) (m : ModelRow num) : ModelRow num :=
  {| m_model := m_model m; m_provider := m_provider m;
     m_requests := (m_requests m + 1)%N;
     m_input_tokens := addTokens (m_input_tokens m) (input_tokens e);
     m_output_tokens := addTokens (m_output_tokens m) (output_tokens e);
     m_cache_creation_tokens :=
       addTokens (m_cache_creation_tokens m) (cache_creation_tokens e);
     m_cache_read_tokens := addTokens (m_cache_read_tokens m) (cache_read_tokens e);
     m_cost_usd := num_add (m_cost_usd m) (cost_usd e) |}.

(** [modelMap] after the loop over the filtered events. *)
Definition modelMapOf (filtered : list (UsageEvent num))
    : list (string * ModelRow num) :=
  fold_left
    (fun modelMap e =>
       JsArray.upsert (model e) (newModelRow e) (addToModelRow e) modelMap)
    filtered [].

(** [computeOverview(events, from, to)] *)
Definition computeOverview (events : list (UsageEvent num))
    (from to : option string) : Overview num :=
  let filtered := filterByDate events from to in
  let totals :=
    fold_left addToTotals filtered
      (mkTotals 0%N num_zero num_zero num_zero num_zero num_zero) in
  let modelMap := modelMapOf filtered in
  let byModel := JsArray.sort (costBefore (@m_cost_usd num)) (JsArray.values modelMap) in
  {| totals := totals; byModel := byModel |}.

Definition sessionKey (e : UsageEvent num) : string :=
  match truthy (session_id e) with
  | Some id => id
  | None => "unknown"
  end.

Definition newSessionRow (e : UsageEvent num) : SessionRow num (list string) :=
  {| s_session_id := session_id e; s_project_path := project_path e;
     s_requests := 0%N;
     s_input_tokens := num_zero; s_output_tokens := num_zero;
     s_cache_creation_tokens := num_zero; s_cache_read_tokens := num_zero;
     s_cost_usd := num_zero;
     s_started_at := occurred_at e; s_ended_at := occurred_at e;
     s_models := [] |}.

Definition addToSessionRow (e : UsageEvent num)
    (s : SessionRow num (list string)) : SessionRow num (list string) :=
  {| s_session_id := s_session_id s; s_project_path := s_project_path s;
     s_requests := (s_requests s + 1)%N;
     s_input_tokens := addTokens (s_input_tokens s) (input_tokens e);
     s_output_tokens := addTokens (s_output_tokens s) (output_tokens e);
     s_cache_creation_tokens :=
       addTokens (s_cache_creation_tokens s) (cache_creation_tokens e);
     s_cache_read_tokens := addTokens (s_cache_read_tokens s) (cache_read_tokens e);
     s_cost_usd := num_add (s_cost_usd s) (cost_usd e);
     s_started_at :=
       if String.ltb (occurred_at e) (s_started_at s)
       then occurred_at e else s_started_at s;
     s_ended_at :=
       if String.ltb (s_ended_at s) (occurred_at e)
       then occurred_at e else s_ended_at s;
     s_models := JsArray.setAdd (model e) (s_models s) |}.

(** The map of [computeTopSessions] after the loop. *)
Definition sessionMapOf (filtered : list (UsageEvent num))
    : list (string * SessionRow num (list string)) :=
  fold_left
    (fun map e =>
       JsArray.upsert (sessionKey e) (newSessionRow e) (addToSessionRow e) map)
    filtered [].

(** [s => ({ ...s, models: [...s.models].join(',') })] *)
Definition joinModels (s : SessionRow num (list string)) : SessionRow num string :=
  {| s_session_id := s_session_id s; s_project_path := s_project_path s;
     s_requests := s_requests s;
     s_input_tokens := s_input_tokens s; s_output_tokens := s_output_tokens s;
     s_cache_creation_tokens := s_cache_creation_tokens s;
     s_cache_read_tokens := s_cache_read_tokens s;
     s_cost_usd := s_cost_usd s;
     s_started_at := s_started_at s; s_ended_at := s_ended_at s;
     s_models := join "," (s_models s) |}.

(** [computeTopSessions(events, from, to, limit = 20)]; [None] is an
    omitted limit. *)
Definition computeTopSessions (events : list (UsageEvent num))
    (from to : option string) (limit : option Z)
    : list (SessionRow num string) :=
  let limit := match limit with Some n => n | None => 20%Z end in
  let filtered := filterByDate events from to in
  let map := sessionMapOf filtered in
  List.map joinModels
    (JsArray.slice 0 limit
       (JsArray.sort (costBefore (@s_cost_usd num (list string)))
          (JsArray.values map))).

(** [f.filter(pred)] when the option is given, [f] otherwise. *)
Definition filterIf (o : option string)
    (pred : string -> UsageEvent num -> bool)
    (f : list (UsageEvent num)) : list (UsageEvent num) :=
  match truthy o with
  | Some v => List.filter (pred v) f
  | None => f
  end.

(** The five filters of [computeEvents], applied in turn. *)
Definition applyFilters (q : EventsQuery) (events : list (UsageEvent num))
    : list (UsageEvent num) :=
  let f := events in
  let f := filterIf (q_from q)
             (fun from e => negb (String.ltb (occurred_at e) from)) f in
  let f := filterIf (q_to q)
             (fun to e => String.leb (occurred_at e) (String.append to "T23:59:59")) f in
  let f := filterIf (q_model q) (fun m e => String.eqb (model e) m) f in
  let f := filterIf (q_provider q) (fun p e => String.eqb (provider e) p) f in
  let f := filterIf (q_session_id q)
             (fun sid e => bool_decide (session_id e = Some sid)) f in
  f.

(** [computeEvents(events, { page = 1, limit = 50, ... })] *)
Definition computeEvents (events : list (UsageEvent num)) (q : EventsQuery)
    : EventPage num :=
  let page := match q_page q with Some p => p | None => 1%Z end in
  let limit := match q_limit q with Some l => l | None => 50%Z end in
  let f := applyFilters q events in
  let f :=
    if bool_decide (q_sort q = Some "cost")
    then JsArray.sort (costBefore (@cost_usd num)) f
    else JsArray.sort
           (fun a b => (localeCompare (occurred_at b) (occurred_at a) <? 0)%Z) f in
  let total := Z.of_nat (length f) in
  let offset := ((page - 1) * limit)%Z in
  {| rows := JsArray.slice offset (offset + limit) f;
     total := total; page := page; limit := limit;
     pages := ceilDiv total limit |}.

(** [e.occurred_at.slice(0, 10)] *)
Definition dateOf (e : UsageEvent num) : string := sliceTo 10 (occurred_at e).

(** The key [`${date}|${e.model}`] of [computeTimeseries]. *)
Definition timeseriesKey (e : UsageEvent num) : string :=
  String.append (dateOf e) (String.append "|" (model e)).

Definition newTimeseriesRow (e : UsageEvent num) : TimeseriesRow num :=
  {| ts_date := dateOf e; ts_model := model e; ts_provider := provider e;
     ts_cost_usd := num_zero; ts_requests := 0 |}%N.

Definition addToTimeseriesRow (e : UsageEvent num) (r : TimeseriesRow num)
    : TimeseriesRow num :=
  {| ts_date := ts_date r; ts_model := ts_model r; ts_provider := ts_provider r;
     ts_cost_usd := num_add (ts_cost_usd r) (cost_usd e);
     ts_requests := ts_requests r + 1 |}%N.

(** The map of [computeTimeseries] after the loop. *)
Definition timeseriesMapOf (filtered : list (UsageEvent num))
    : list (string * TimeseriesRow num) :=
  fold_left
    (fun map e =>
       JsArray.upsert (timeseriesKey e) (newTimeseriesRow e) (addToTimeseriesRow e) map)
    filtered [].

(** [computeTimeseries(events, from, to)] *)
Definition computeTimeseries (events : list (UsageEvent num))
    (from to : option string) : list (TimeseriesRow num) :=
  let filtered := filterByDate events from to in
  let map := timeseriesMapOf filtered in
  JsArray.sort (fun a b => (localeCompare (ts_date a) (ts_date b) <? 0)%Z)
    (JsArray.values map).

Definition projectKey (e : UsageEvent num) : string :=
  match truthy (project_path e) with
  | Some p => p
  | None => "Unknown"
  end.

Definition newProjectRow (e : UsageEvent num) : ProjectRow num (list string) :=
  {| p_project_path := projectKey e; p_requests := 0%N; p_cost_usd := num_zero;
     p_input_tokens := num_zero; p_output_tokens := num_zero;
     p_cache_read_tokens := num_zero; p_cache_creation_tokens := num_zero;
     p_sessions := [] |}.

Definition addToProjectRow (e : UsageEvent num)
    (p : ProjectRow num (list string)) : ProjectRow num (list string) :=
  {| p_project_path := p_project_path p;
     p_requests := (p_requests p + 1)%N;
     p_cost_usd := num_add (p_cost_usd p) (cost_usd e);
     p_input_tokens := addTokens (p_input_tokens p) (input_tokens e);
     p_output_tokens := addTokens (p_output_tokens p) (output_tokens e);
     p_cache_read_tokens := addTokens (p_cache_read_tokens p) (cache_read_tokens e);
     p_cache_creation_tokens :=
       addTokens (p_cache_creation_tokens p) (cache_creation_tokens e);
     p_sessions :=
       match truthy (session_id e) with
       | Some id => JsArray.setAdd id (p_sessions p)
       | None => p_sessions p
       end |}.

(** The map of [computeProjects] after the loop. *)
Definition projectMapOf (filtered : list (UsageEvent num))
    : list (string * ProjectRow num (list string)) :=
  fold_left
    (fun map e =>
       JsArray.upsert (projectKey e) (newProjectRow e) (addToProjectRow e) map)
    filtered [].

(** [p => ({ ...p, sessions: p.sessions.size })] *)
Definition countSessions (p : ProjectRow num (list string)) : ProjectRow num N :=
  {| p_project_path := p_project_path p; p_requests := p_requests p;
     p_cost_usd := p_cost_usd p;
     p_input_tokens := p_input_tokens p; p_output_tokens := p_output_tokens p;
     p_cache_read_tokens := p_cache_read_tokens p;
     p_cache_creation_tokens := p_cache_creation_tokens p;
     p_sessions := N.of_nat (length (p_sessions p)) |}.

(** [computeProjects(events, from, to)] *)
Definition computeProjects (events : list (UsageEvent num))
    (from to : option string) : list (ProjectRow num N) :=
  let filtered := filterByDate events from to in
  let map := projectMapOf filtered in
  List.map countSessions
    (JsArray.sort (costBefore (@p_cost_usd num (list string))) (JsArray.values map)).

(** [[...new Set(l)]]: the members in the order of their first
    occurrence. *)
Definition distinct (l : list string) : list string :=
  fold_left (fun s x => JsArray.setAdd x s) l [].

(** The answer of [GET /api/models]:
    [[...new Set(getEvents().map(e => e.model))].sort()].  Without a
    comparison function [sort] orders strings by their code units. *)
Definition modelsList (events : list (UsageEvent num)) : list string :=
  JsArray.sort String.ltb (distinct (List.map (@model num) events)).

(** ** Vocabulary of the statements *)

(** [e] passes every filter of the query. *)
Definition passesFilters (q : EventsQuery) (e : UsageEvent num) : bool :=
  match truthy (q_from q) with
  | Some from => negb (String.ltb (occurred_at e) from)
  | None => true
  end
  && match truthy (q_to q) with
     | Some to => String.leb (occurred_at e) (String.append to "T23:59:59")
     | None => true
     end
  && match truthy (q_model q) with
     | Some m => String.eqb (model e) m
     | None => true
     end
  && match truthy (q_provider q) with
     | Some p => String.eqb (provider e) p
     | None => true
     end
  && match truthy (q_session_id q) with
     | Some sid => bool_decide (session_id e = Some sid)
     | None => true
     end.

(** The sum of a list of amounts as a loop from 0 would compute it. *)
Definition sumCost (costs : list num) : num :=
  fold_left num_add costs num_zero.

(** The sum of a token count over a list of events, as an integer. *)
Definition sumTokens (field : UsageEvent num -> N) (g : list (UsageEvent num)) : N :=
  fold_right (fun e acc => (field e + acc)%N) 0%N g.

(** The sum of a token count over a list of events as the loops compute
    it: in doubles, from 0, in the order of the list. *)
Definition tokenSum (field : UsageEvent num -> N) (g : list (UsageEvent num)) : num :=
  sumCost (List.map (fun e => num_of_N (field e)) g).

(** Each of the four token counts of the events adds up to less than
    2^53, so that a double holds every partial sum. *)
Definition safeTokens (g : list (UsageEvent num)) : Prop :=
  (sumTokens (@input_tokens num) g < 2 ^ 53
   /\ sumTokens (@output_tokens num) g < 2 ^ 53
   /\ sumTokens (@cache_creation_tokens num) g < 2 ^ 53
   /\ sumTokens (@cache_read_tokens num) g < 2 ^ 53)%N.

(** The four token sums [i], [o], [cc] and [cr] of a row are the
    integer sums over the events [g]. *)
Definition exactTokens (g : list (UsageEvent num)) (i o cc cr : num) : Prop :=
  i = num_of_N (sumTokens (@input_tokens num) g)
  /\ o = num_of_N (sumTokens (@output_tokens num) g)
  /\ cc = num_of_N (sumTokens (@cache_creation_tokens num) g)
  /\ cr = num_of_N (sumTokens (@cache_read_tokens num) g).

(** The events of one model. *)
Definition ofModel (m : string) (filtered : list (UsageEvent num))
    : list (UsageEvent num) :=
  List.filter (fun e => String.eqb (model e) m) filtered.

(** The rows are in descending order of cost: no row costs less than
    its right neighbour. *)
Definition descendingBy {R : Type} (cost : R -> num) (rows : list R) : Prop :=
  Sorted (fun a b => num_ltb (cost a) (cost b) = false) rows.

(** The row of [byModel] for the events [g] of the model [m]. *)
Record modelRowOf (m : string) (g : list (UsageEvent num)) (row : ModelRow num)
    : Prop := {
  mr_model : m_model row = m;
  mr_provider : exists e0 g', g = e0 :: g' /\ m_provider row = provider e0;
  mr_requests : m_requests row = N.of_nat (length g);
  mr_input_tokens : m_input_tokens row = tokenSum (@input_tokens num) g;
  mr_output_tokens : m_output_tokens row = tokenSum (@output_tokens num) g;
  mr_cache_creation_tokens :
    m_cache_creation_tokens row = tokenSum (@cache_creation_tokens num) g;
  mr_cache_read_tokens :
    m_cache_read_tokens row = tokenSum (@cache_read_tokens num) g;
  mr_cost_usd : m_cost_usd row = sumCost (List.map (@cost_usd num) g)
}.

(** The key under which a row of [computeTopSessions] was grouped. *)
Definition rowKey {M : Type} (row : SessionRow num M) : string :=
  match truthy (s_session_id row) with
  | Some id => id
  | None => "unknown"
  end.

(** The events of one session key. *)
Definition ofSession (k : string) (filtered : list (UsageEvent num))
    : list (UsageEvent num) :=
  List.filter (fun e => String.eqb (sessionKey e) k) filtered.

(** [t] is the smallest timestamp of [g]. *)
Definition earliest (t : string) (g : list (UsageEvent num)) : Prop :=
  (exists e, In e g /\ occurred_at e = t)
  /\ forall e, In e g -> String.leb t (occurred_at e) = true.

(** [t] is the greatest timestamp of [g]. *)
Definition latest (t : string) (g : list (UsageEvent num)) : Prop :=
  (exists e, In e g /\ occurred_at e = t)
  /\ forall e, In e g -> String.leb (occurred_at e) t = true.

(** [models] lists the models of [g], each one once. *)
Definition distinctModels (models : list string) (g : list (UsageEvent num)) : Prop :=
  List.NoDup models
  /\ forall m, In m models <-> exists e, In e g /\ model e = m.

(** The row of [computeTopSessions] for the events [g] of the session
    key [k]. *)
Record sessionRowOf (k : string) (g : list (UsageEvent num))
    (row : SessionRow num string) : Prop := {
  sr_key : rowKey row = k;
  sr_first :
    exists e0 g', g = e0 :: g'
      /\ s_session_id row = session_id e0
      /\ s_project_path row = project_path e0;
  sr_requests : s_requests row = N.of_nat (length g);
  sr_input_tokens : s_input_tokens row = tokenSum (@input_tokens num) g;
  sr_output_tokens : s_output_tokens row = tokenSum (@output_tokens num) g;
  sr_cache_creation_tokens :
    s_cache_creation_tokens row = tokenSum (@cache_creation_tokens num) g;
  sr_cache_read_tokens :
    s_cache_read_tokens row = tokenSum (@cache_read_tokens num) g;
  sr_cost_usd : s_cost_usd row = sumCost (List.map (@cost_usd num) g);
  sr_started_at : earliest (s_started_at row) g;
  sr_ended_at : latest (s_ended_at row) g;
  sr_models :
    exists models, distinctModels models g /\ s_models row = join "," models
}.

(** The events in the date range, as a test on one event. *)
Definition inDateRange (from to : option string) (e : UsageEvent num) : bool :=
  match truthy from with
  | Some f => negb (String.ltb (occurred_at e) f)
  | None => true
  end
  && match truthy to with
     | Some t => negb (String.ltb (String.append t "T23:59:59") (occurred_at e))
     | None => true
     end.

(** The filtered events of [computeEvents] in the order of the listing,
    before a page is cut out. *)
Definition listing (q : EventsQuery) (events : list (UsageEvent num))
    : list (UsageEvent num) :=
  if bool_decide (q_sort q = Some "cost")
  then JsArray.sort (costBefore (@cost_usd num)) (applyFilters q events)
  else JsArray.sort
         (fun a b => (localeCompare (occurred_at b) (occurred_at a) <? 0)%Z)
         (applyFilters q events).

(** The query [q] asked for page [p]. *)
Definition atPage (q : EventsQuery) (p : Z) : EventsQuery :=
  {| q_page := Some p; q_limit := q_limit q; q_model := q_model q;
     q_provider := q_provider q; q_from := q_from q; q_to := q_to q;
     q_session_id := q_session_id q; q_sort := q_sort q |}.

(** The sum of a list of counts. *)
Definition sumN (counts : list N) : N := fold_right N.add 0%N counts.

(** The events of one key of [computeTimeseries]. *)
Definition ofTimeseriesKey (k : string) (filtered : list (UsageEvent num))
    : list (UsageEvent num) :=
  List.filter (fun e => String.eqb (timeseriesKey e) k) filtered.

(** The row of [computeTimeseries] for the events [g] of one key. *)
Record timeseriesRowOf (g : list (UsageEvent num)) (row : TimeseriesRow num)
    : Prop := {
  tr_first :
    exists e0 g', g = e0 :: g'
      /\ ts_date row = dateOf e0
      /\ ts_model row = model e0
      /\ ts_provider row = provider e0;
  tr_cost_usd : ts_cost_usd row = sumCost (List.map (@cost_usd num) g);
  tr_requests : ts_requests row = N.of_nat (length g)
}.

(** The events of one project key. *)
Definition ofProject (k : string) (filtered : list (UsageEvent num))
    : list (UsageEvent num) :=
  List.filter (fun e => String.eqb (projectKey e) k) filtered.

(** [ids] lists the session ids of [g], each one once. *)
Definition distinctSessions (ids : list string) (g : list (UsageEvent num)) : Prop :=
  List.NoDup ids
  /\ forall id, In id ids <-> exists e, In e g /\ truthy (session_id e) = Some id.

(** The row of [computeProjects] for the events [g] of the project key
    [k]. *)
Record projectRowOf (k : string) (g : list (UsageEvent num))
    (row : ProjectRow num N) : Prop := {
  pr_key : p_project_path row = k;
  pr_nonempty : g <> [];
  pr_requests : p_requests row = N.of_nat (length g);
  pr_cost_usd : p_cost_usd row = sumCost (List.map (@cost_usd num) g);
  pr_input_tokens : p_input_tokens row = tokenSum (@input_tokens num) g;
  pr_output_tokens : p_output_tokens row = tokenSum (@output_tokens num) g;
  pr_cache_read_tokens :
    p_cache_read_tokens row = tokenSum (@cache_read_tokens num) g;
  pr_cache_creation_tokens :
    p_cache_creation_tokens row = tokenSum (@cache_creation_tokens num) g;
  pr_sessions :
    exists ids, distinctSessions ids g /\ p_sessions row = N.of_nat (length ids)
}.

End Aggregations.
End Server.

(* ================================================================== *)
(** * The statements of the database module *)
(* ================================================================== *)

Module Db.

(** A value bound to a placeholder. *)
Inductive SqlValue : Type :=
  | SText (s : string)
  | SNumber (n : Z).

(** The [{ sql, params }] of [buildWhere]. *)
Record Where : Type := mkWhere {
  sql : string;
  params : list SqlValue
}.

(** The text given to [db.prepare] and the values given to [run],
    [get] or [all]. *)
Record Statement : Type := mkStatement {
  text : string;
  args : list SqlValue
}.

(** [if (o) { conditions.push(cond); params.push(param(o)); }] *)
Definition pushIf (o : option string) (cond : string) (param : string -> SqlValue)
    (acc : list string * list SqlValue) : list string * list SqlValue :=
  match truthy o with
  | Some v => (fst acc ++ [cond], snd acc ++ [param v])
  | None => acc
  end.

(** [conditions.length ? 'WHERE ' + conditions.join(' AND ') : ''] *)
Definition whereClause (conditions : list string) : string :=
  match conditions with
  | [] => EmptyString
  | _ => String.append "WHERE " (join " AND " conditions)
  end.

Definition endOfDay (to : string) : SqlValue := SText (String.append to "T23:59:59").

(** [buildWhere(from, to)] *)
Definition buildWhere (from to : option string) : Where :=
  let acc := ([], []) in
  let acc := pushIf from "occurred_at >= ?" SText acc in
  let acc := pushIf to "occurred_at <= ?" endOfDay acc in
  {| sql := whereClause (fst acc); params := snd acc |}.

(** [modelWhere] of [getOverview] and [tsWhere] of [getTimeseries]. *)
Definition modelWhere (w : Where) : string :=
  match params w with
  | [] => "WHERE model IS NOT NULL AND model != '<synthetic>'"
  | _ => String.append (sql w) " AND model IS NOT NULL AND model != '<synthetic>'"
  end.

(** The statement that [deleteEvents(db, from, to)] runs. *)
Definition deleteEvents (from to : option string) : Statement :=
  let acc := ([], []) in
  let acc := pushIf from "occurred_at >= ?" SText acc in
  let acc := pushIf to "occurred_at <= ?" endOfDay acc in
  let where_ := whereClause (fst acc) in
  {| text := String.append "DELETE FROM usage_events " where_; args := snd acc |}.

Definition nl : string := String (ascii_of_nat 10) EmptyString.

(** The two statements that [getEvents(db, options)] runs: the count
    and the page.  The option [sort] of the query is not read. *)
Definition getEvents (q : Server.EventsQuery) : Statement * Statement :=
  let page := match Server.q_page q with Some p => p | None => 1%Z end in
  let limit := match Server.q_limit q with Some l => l | None => 50%Z end in
  let acc := ([], []) in
  let acc := pushIf (Server.q_from q) "occurred_at >= ?" SText acc in
  let acc := pushIf (Server.q_to q) "occurred_at <= ?" endOfDay acc in
  let acc := pushIf (Server.q_model q) "model = ?" SText acc in
  let acc := pushIf (Server.q_provider q) "provider = ?" SText acc in
  let acc := pushIf (Server.q_session_id q) "session_id = ?" SText acc in
  let where_ := whereClause (fst acc) in
  let offset := ((page - 1) * limit)%Z in
  ({| text := String.append "SELECT COUNT(*) AS n FROM usage_events " where_;
      args := snd acc |},
   {| text :=
        String.concat EmptyString
          [nl; "    SELECT * FROM usage_events "; where_; nl;
           "    ORDER BY occurred_at DESC"; nl;
           "    LIMIT ? OFFSET ?"; nl; "  "];
      args := snd acc ++ [SNumber limit; SNumber offset] |}).

(** The number of placeholders of a statement text. *)
Fixpoint placeholders (s : string) : nat :=
  match s with
  | EmptyString => 0
  | String c s' => (if Ascii.eqb c "?" then 1 else 0) + placeholders s'
  end.

End Db.

(* ================================================================== *)
(** * bin/llm-spend.js *)
(* ================================================================== *)

Module Cli.

(** [args.indexOf(flag)]; [None] is -1. *)
Fixpoint indexOf (flag : string) (args : list string) : option nat :=
  match args with
  | [] => None
  | a :: rest =>
      if String.eqb a flag then Some 0
      else option_map S (indexOf flag rest)
  end.

(** [getFlag(flag, defaultVal)]; [None] is [undefined] or [null]. *)
Definition getFlag (args : list string) (flag : string) (defaultVal : option string)
    : option string :=
  match indexOf flag args with
  | None => defaultVal
  | Some i => List.nth_error args (i + 1)
  end.

(** [hasFlag(flag)] *)
Definition hasFlag (args : list string) (flag : string) : bool :=
  List.existsb (fun a => String.eqb a flag) args.

(** The value of the longest prefix of decimal digits; [None] when
    there is no digit. *)
Fixpoint digitsValue (s : string) (acc : option Z) : option Z :=
  match s with
  | EmptyString => acc
  | String c s' =>
      if isDigit c then
        digitsValue s'
          (Some (10 * match acc with Some n => n | None => 0 end
                 + (Z.of_N (N_of_ascii c) - 48)))%Z
      else acc
  end.

(** [parseInt(s, 10)]: white space is skipped, a sign is read, then the
    digits up to the first other character; [None] is [NaN].  The
    result is given as the integer that the digits denote; the number
    that JavaScript returns is the double nearest to it, which compares
    with 1 and with 65535 as the integer does. *)
Definition parseInt10 (o : option string) : option Z :=
  match o with
  | None => None
  | Some s =>
      match trimStart s with
      | String "-" r => option_map Z.opp (digitsValue r None)
      | String "+" r => digitsValue r None
      | t => digitsValue t None
      end
  end.

(** What the script does with its arguments: it prints the help or the
    version and exits with 0, reports an invalid port and exits with
    1, or calls [startServer({ port, open, claudeDir })]. *)
Inductive Outcome : Type :=
  | Help
  | Version
  | InvalidPort (portStr : option string)
  | Start (port : Z) (openBrowser : bool) (claudeDir : option string).

(** The script, for the arguments [args = process.argv.slice(2)];
    [defaultDir] is [path.join(os.homedir(), '.claude')]. *)
Definition main (args : list string) (defaultDir : string) : Outcome :=
  if hasFlag args "--help" || hasFlag args "-h" then Help
  else if hasFlag args "--version" || hasFlag args "-V" then Version
  else
    let portStr :=
      match truthy (getFlag args "--port" None) with
      | Some s => Some s
      | None => getFlag args "-p" (Some "3000")
      end in
    match parseInt10 portStr with
    | None => InvalidPort portStr
    | Some port =>
        if (port <? 1)%Z || (65535 <? port)%Z then InvalidPort portStr
        else
          Start port (negb (hasFlag args "--no-open"))
            (getFlag args "--claude-dir" (Some defaultDir))
    end.

End Cli.

(* ================================================================== *)
(** * A small log directory and a small event collection *)
(* ================================================================== *)

Module Sample.
Import Parser.

Definition usage (i o : N) : Usage := mkUsage (Some i) (Some o) None None.

Definition assistant (id model : option string) (u : option Usage)
    (timestamp : string) : Line :=
  JsonRecord
    (mkRecord (Some "assistant") (Some (mkMessage id model u None))
       (Some "s1") (Some "/home/u/p") (Some timestamp) false).

Definition user (text : string) : Line :=
  JsonRecord
    (mkRecord (Some "user")
       (Some (mkMessage None None None (Some (CString text))))
       (Some "s1") None (Some "2024-01-01T00:00:00.000Z") false).

(** Two log files of one project.  [r1] occurs twice in the first file
    and once more in the second; the first record of [r2] carries the
    placeholder model and a later one a real model. *)
Definition fileA : list Line := [
  user "fix the parser";
  assistant (Some "r1") (Some "claude-opus-4-6-20250601")
    (Some (usage 1000000 1000000)) "2024-01-03T10:00:00.000Z";
  Blank;
  assistant (Some "r1") (Some "claude-opus-4-6-20250601")
    (Some (usage 5 5)) "2024-01-03T10:00:05.000Z";
  Malformed;
  assistant (Some "r2") (Some "<synthetic>")
    (Some (usage 0 0)) "2024-01-02T09:00:00.000Z";
  assistant (Some "r2") (Some "claude-haiku-4-5")
    (Some (usage 10 10)) "2024-01-02T09:00:01.000Z"
].

Definition fileB : list Line := [
  assistant (Some "r3") (Some "gpt-4o") (Some (usage 2000 100))
    "2024-01-01T08:00:00.000Z";
  assistant (Some "r1") (Some "claude-haiku-4-5") (Some (usage 7 7))
    "2024-01-01T08:30:00.000Z";
  assistant (Some "r4") (Some "unknown-model-x") (Some (usage 50 50))
    "2024-01-03T10:00:00.000Z"
].

Definition claudeDir : ClaudeDir :=
  Projects [
    mkSlugDir
      (Index [Some (mkIndexEntry (Some "/home/u/.claude/projects/p/a.jsonl")
                      (Some "/home/u/p"))])
      (Some [mkDirEnt "a.jsonl" true (Some fileA);
             mkDirEnt "notes.txt" true (Some [assistant (Some "r9") (Some "o3")
                                                (Some (usage 1 1)) "2024-01-01T00:00:00.000Z"]);
             mkDirEnt "b.jsonl" true (Some fileB)])
  ].

Definition clock (k : nat) : string := "2024-06-01T12:00:00.000Z".

(** Three requests of 20,000, 40,000 and 60,000 input tokens at 5 USD per
    million: 0.1, 0.2 and 0.3 USD, the first on one model and the other
    two on another. *)
Definition spendDir : ClaudeDir :=
  Projects [
    mkSlugDir NoIndex
      (Some [mkDirEnt "c.jsonl" true
               (Some [assistant (Some "q1") (Some "claude-opus-4-6")
                        (Some (usage 20000 0)) "2024-02-01T10:00:00.000Z";
                      assistant (Some "q2") (Some "claude-opus-4-5")
                        (Some (usage 40000 0)) "2024-02-01T11:00:00.000Z";
                      assistant (Some "q3") (Some "claude-opus-4-5")
                        (Some (usage 60000 0)) "2024-02-01T12:00:00.000Z"])])
  ].

(** An event with the given session, timestamp and cost. *)
Definition event {num : Type} (id session occurred : string) (cost : num)
    : UsageEvent num :=
  {| provider := "anthropic"; model := "claude-opus-4-6";
     session_id := Some session; project_path := None;
     request_id := id; occurred_at := occurred;
     input_tokens := 0; output_tokens := 0;
     cache_creation_tokens := 0; cache_read_tokens := 0;
     cost_usd := cost; source := "claude-code"; prompt_text := None |}.

(** Three sessions of cost 10, 20 and 30. *)
Definition threeSessions : list (UsageEvent float) := [
  event "a1" "sa" "2024-03-01T10:00:00.000Z" 10%float;
  event "b1" "sb" "2024-03-01T11:00:00.000Z" 20%float;
  event "c1" "sc" "2024-03-01T12:00:00.000Z" 30%float
].

(** The same in rationals, with a second request in one session. *)
Definition sessionsQ : list (UsageEvent Q) := [
  event "a1" "sa" "2024-03-01T10:00:00.000Z" 10%Q;
  event "b1" "sb" "2024-03-01T11:00:00.000Z" 20%Q;
  event "c1" "sc" "2024-03-01T12:00:00.000Z" 30%Q;
  event "a2" "sa" "2024-03-02T10:00:00.000Z" 0.5%Q
].

(** A collation that agrees with the order of the code units, as every
    collation does on timestamps of one format. *)
Definition localeCompare (a b : string) : Z :=
  match String.compare a b with
  | Lt => (-1)%Z
  | Eq => 0%Z
  | Gt => 1%Z
  end.

(** Page 3 of size 2, no filter. *)
Definition pageThree : Server.EventsQuery :=
  Server.mkQuery (Some 3%Z) (Some 2%Z) None None None None None None.

(** Page 2 of size 2 of the events from 2024-03-01T11 on, by cost. *)
Definition pageTwo : Server.EventsQuery :=
  Server.mkQuery (Some 2%Z) (Some 2%Z) None None (Some "2024-03-01T11") None
    None (Some "cost").

(** The row of the session of cost 30. *)
Definition row30 : Server.SessionRow float string :=
  {| Server.s_session_id := Some "sc"; Server.s_project_path := None;
     Server.s_requests := 1;
     Server.s_input_tokens := 0%float; Server.s_output_tokens := 0%float;
     Server.s_cache_creation_tokens := 0%float; Server.s_cache_read_tokens := 0%float;
     Server.s_cost_usd := 30%float;
     Server.s_started_at := "2024-03-01T12:00:00.000Z";
     Server.s_ended_at := "2024-03-01T12:00:00.000Z";
     Server.s_models := "claude-opus-4-6" |}.

(** A request in the last second of 2 January 2024. *)
Definition lastSecond : UsageEvent float :=
  event "z1" "sz" "2024-01-02T23:59:59.500Z" 1%float.

(** Three requests of 10, 20 and 30 USD, the second on another model
    than the other two. *)
Definition wholeDollars : list (UsageEvent float) := [
  event "a1" "sa" "2024-03-01T10:00:00.000Z" 10%float;
  {| provider := "openai"; model := "gpt-4o";
     session_id := Some "sb"; project_path := None;
     request_id := "b1"; occurred_at := "2024-03-01T11:00:00.000Z";
     input_tokens := 0; output_tokens := 0;
     cache_creation_tokens := 0; cache_read_tokens := 0;
     cost_usd := 20%float; source := "claude-code"; prompt_text := None |};
  event "c1" "sc" "2024-03-01T12:00:00.000Z" 30%float
].

(** The cost of these requests in whole dollars. *)
Definition dollars (e : UsageEvent float) : N :=
  if String.eqb (request_id e) "a1" then 10%N
  else if String.eqb (request_id e) "b1" then 20%N
  else 30%N.

(** The events before the final sort and the returned collection, in
    binary64 arithmetic. *)
Definition collected : list (UsageEvent float) :=
  Eval vm_compute in
    match collectEvents clock claudeDir with Some l => l | None => [] end.

Definition loaded : list (UsageEvent float) :=
  Eval vm_compute in
    match loadAllEvents clock claudeDir with Some l => l | None => [] end.

Definition spend : list (UsageEvent float) :=
  Eval vm_compute in
    match loadAllEvents clock spendDir with Some l => l | None => [] end.

End Sample.

Unset Implicit Arguments.

(* ================================================================== *)
(** * Properties of the model-name normalisation *)
(* ================================================================== *)

Section NormalisationFacts.
Import Pricing.

Lemma lowerChar_idempotent (c : ascii) : lowerChar (lowerChar c) = lowerChar c.
Proof.
  destruct c as [[] [] [] [] [] [] [] []]; vm_compute; reflexivity.
Qed.

Lemma toLowerCase_idempotent (s : string) :
  toLowerCase (toLowerCase s) = toLowerCase s.
Proof.
  induction s as [|c s IH]; simpl; [reflexivity|].
  now rewrite lowerChar_idempotent, IH.
Qed.

(** Cutting a match keeps a string in lower case in lower case. *)
Lemma replaceAtEnd_lower (p : list PatItem) (s : string) :
  toLowerCase s = s -> toLowerCase (replaceAtEnd p s) = replaceAtEnd p s.
Proof.
  induction s as [|c s IH]; intros Hs.
  - simpl. destruct (matchesToEnd p EmptyString); reflexivity.
  - simpl in *. injection Hs as Hc Hs.
    destruct (matchesToEnd p (String c s)); simpl; [reflexivity|].
    now rewrite Hc, IH.
Qed.

(** Without a match the string is returned as it is. *)
Lemma replaceAtEnd_no_match (p : list PatItem) (s : string) :
  testAtEnd p s = false -> replaceAtEnd p s = s.
Proof.
  induction s as [|c s IH]; simpl; intros Ht.
  - apply orb_false_iff in Ht as [-> _]. reflexivity.
  - apply orb_false_iff in Ht as [-> Ht]. now rewrite IH.
Qed.

Lemma replaceAtEnd_length_le (p : list PatItem) (s : string) :
  String.length (replaceAtEnd p s) <= String.length s.
Proof.
  induction s as [|c s IH]; simpl.
  - destruct (matchesToEnd p EmptyString); simpl; lia.
  - destruct (matchesToEnd p (String c s)); simpl; lia.
Qed.

(** With a match of a non-empty pattern the string gets shorter. *)
Lemma replaceAtEnd_match_shorter (p : list PatItem) (s : string) :
  p <> [] -> testAtEnd p s = true ->
  String.length (replaceAtEnd p s) < String.length s.
Proof.
  intros Hp. induction s as [|c s IH]; simpl; intros Ht.
  - destruct p; [congruence|]. simpl in Ht. discriminate.
  - destruct (matchesToEnd p (String c s)) eqn:Hm; simpl in *; [lia|].
    specialize (IH Ht). lia.
Qed.

Lemma normalised_lower (m : string) : toLowerCase (normalised m) = normalised m.
Proof.
  unfold normalised. do 2 apply replaceAtEnd_lower. apply toLowerCase_idempotent.
Qed.

Lemma normalised_twice (m : string) :
  normalised (normalised m)
  = replaceAtEnd reDateDashed (replaceAtEnd reDate8 (normalised m)).
Proof. unfold normalised at 1. now rewrite normalised_lower. Qed.

(** ** Names with one date suffix *)

Lemma toLowerCase_append (a b : string) :
  toLowerCase (String.append a b) = String.append (toLowerCase a) (toLowerCase b).
Proof. induction a as [|c a IH]; simpl; [reflexivity|now rewrite IH]. Qed.

Lemma toLowerCase_empty (s : string) : toLowerCase s = EmptyString <-> s = EmptyString.
Proof. destruct s; simpl; split; congruence. Qed.

Lemma matchesToEnd_length (p : list PatItem) (s : string) :
  matchesToEnd p s = true -> String.length s = length p.
Proof.
  revert s. induction p as [|q p IH]; intros [|c s]; simpl; try discriminate.
  - reflexivity.
  - intros Hm. apply andb_true_iff in Hm as [_ Hm]. now rewrite (IH s Hm).
Qed.

Lemma append_length (a b : string) :
  String.length (String.append a b) = String.length a + String.length b.
Proof. induction a as [|c a IH]; simpl; [reflexivity|now rewrite IH]. Qed.

(** A pattern of fixed length anchored at the end can only match the
    last characters: what stands before a match is kept. *)
Lemma replaceAtEnd_append (p : list PatItem) (a s : string) :
  matchesToEnd p s = true -> replaceAtEnd p (String.append a s) = a.
Proof.
  intros Hm. induction a as [|c a IH]; simpl.
  - destruct s; simpl; now rewrite Hm.
  - destruct (matchesToEnd p (String c (String.append a s))) eqn:Hm'.
    + apply matchesToEnd_length in Hm'. apply matchesToEnd_length in Hm.
      simpl in Hm'. rewrite append_length in Hm'. lia.
    + now rewrite IH.
Qed.

Lemma testAtEnd_append_longer (p : list PatItem) (a s : string) :
  length p < String.length s ->
  testAtEnd p (String.append a s) = testAtEnd p s.
Proof.
  intros Hlen. induction a as [|c a IH]; simpl; [reflexivity|].
  destruct (matchesToEnd p (String c (String.append a s))) eqn:Hm'; [|exact IH].
  apply matchesToEnd_length in Hm'. simpl in Hm'. rewrite append_length in Hm'. lia.
Qed.

Lemma isDigit_lower (c : ascii) : isDigit c = true -> lowerChar c = c.
Proof.
  destruct c as [[] [] [] [] [] [] [] []]; vm_compute; intros; congruence.
Qed.

Lemma isDigit_not_dash (c : ascii) : isDigit c = true -> Ascii.eqb "-" c = false.
Proof.
  destruct c as [[] [] [] [] [] [] [] []]; vm_compute; intros; congruence.
Qed.

Lemma matchItem_lower (q : PatItem) (c : ascii) :
  q = PLit "-" \/ q = PDigit -> matchItem q c = true -> lowerChar c = c.
Proof.
  intros [->| ->].
  - unfold matchItem. intros Hc. apply Ascii.eqb_eq in Hc. subst c. reflexivity.
  - apply isDigit_lower.
Qed.

Lemma matchesToEnd_lower (p : list PatItem) (s : string) :
  List.Forall (fun q => q = PLit "-" \/ q = PDigit) p ->
  matchesToEnd p s = true -> toLowerCase s = s.
Proof.
  intros Hp. revert s. induction Hp as [|q p Hq Hp IH]; intros [|c s]; simpl;
    try discriminate; [reflexivity|].
  intros Hm. apply andb_true_iff in Hm as [Hc Hm].
  now rewrite (matchItem_lower q c Hq Hc), (IH s Hm).
Qed.

(** A dashed date does not end in eight digits behind a dash. *)
Lemma dashed_date_has_no_date8 (s : string) :
  matchesToEnd reDateDashed s = true -> testAtEnd reDate8 s = false.
Proof.
  intros Hm. pose proof (matchesToEnd_length _ _ Hm) as Hlen.
  do 11 (destruct s as [|? s]; [discriminate Hlen|]).
  destruct s; [|discriminate Hlen].
  cbn [matchesToEnd reDateDashed matchItem] in Hm. rewrite !andb_true_iff in Hm.
  destruct Hm as (_ & _ & Hd & _).
  cbn [testAtEnd matchesToEnd reDate8 matchItem].
  rewrite (isDigit_not_dash _ Hd), ?andb_false_r. reflexivity.
Qed.

Lemma normalised_plain (model : string) :
  endsWithDateSuffix (toLowerCase model) = false ->
  Pricing.normalised model = toLowerCase model.
Proof.
  unfold endsWithDateSuffix, Pricing.normalised. intros Hno.
  apply orb_false_iff in Hno as [H8 Hdashed].
  now rewrite (replaceAtEnd_no_match _ _ H8), (replaceAtEnd_no_match _ _ Hdashed).
Qed.

Lemma normalised_dated (model suffix : string) :
  matchesToEnd reDate8 suffix = true \/ matchesToEnd reDateDashed suffix = true ->
  Pricing.normalised (String.append model suffix)
  = replaceAtEnd reDateDashed (toLowerCase model)
    \/ Pricing.normalised (String.append model suffix) = toLowerCase model.
Proof.
  unfold Pricing.normalised. rewrite toLowerCase_append. intros [H8|Hdashed].
  - left.
    rewrite (matchesToEnd_lower reDate8 suffix); [|repeat constructor; tauto|exact H8].
    now rewrite (replaceAtEnd_append _ _ _ H8).
  - right.
    rewrite (matchesToEnd_lower reDateDashed suffix);
      [|repeat constructor; tauto|exact Hdashed].
    rewrite (replaceAtEnd_no_match reDate8).
    + now apply replaceAtEnd_append.
    + rewrite testAtEnd_append_longer.
      * now apply dashed_date_has_no_date8.
      * rewrite (matchesToEnd_length _ _ Hdashed). simpl. lia.
Qed.

End NormalisationFacts.

(** C2.  [computeCostUSD] on "claude-opus-4-6-20250601" with 1,000,000
    input and 1,000,000 output tokens and no cache tokens: the date
    suffix is stripped, the row "claude-opus-4-6" of the table is found,
    the input part is 5, the output part is 25 and the cost is exactly
    30, in binary64 arithmetic as well as without rounding. *)
Theorem computeCostUSD_dated_opus_is_30 :
  Pricing.normalised "claude-opus-4-6-20250601" = "claude-opus-4-6"
  /\ option_map Pricing.prefix (Pricing.lookupModel "claude-opus-4-6-20250601")
     = Some "claude-opus-4-6"
  /\ Pricing.perMillion (num:=float) 1000000 (num_of_Q 5.00%Q) = 5%float
  /\ Pricing.perMillion (num:=float) 1000000 (num_of_Q 25.00%Q) = 25%float
  /\ Pricing.computeCostUSD (num:=float)
       "claude-opus-4-6-20250601" 1000000 1000000 0 0 = 30%float
  /\ Qeq (Pricing.computeCostUSD (H:=Q_JsNumber)
            "claude-opus-4-6-20250601" 1000000 1000000 0 0) 30%Q.
Proof.
  repeat split; vm_compute; reflexivity.
Qed.

(** C3, as stated, fails: a model name that carries two date suffixes
    loses one of them at each application. *)
Lemma normalised_not_idempotent :
  ~ (forall model : string,
       Pricing.normalised (Pricing.normalised model) = Pricing.normalised model).
Proof.
  intros Hidem.
  specialize (Hidem "claude-opus-4-6-20250929-20250929").
  vm_compute in Hidem. discriminate Hidem.
Qed.

(** C3, amended.  Normalising twice gives the same string as normalising
    once exactly when the normalised name no longer ends in a date
    suffix of either form.  That is the case for every model name that
    carries at most one date suffix: a name [base ++ suffix] whose
    [base] does not end in a date suffix and whose [suffix] is empty, a
    [-YYYYMMDD] or a [-YYYY-MM-DD]. *)
Theorem normalised_idempotent_iff (model : string) :
  (Pricing.normalised (Pricing.normalised model) = Pricing.normalised model
   <-> endsWithDateSuffix (Pricing.normalised model) = false)
  /\ (forall base suffix : string,
        model = String.append base suffix ->
        endsWithDateSuffix (toLowerCase base) = false ->
        suffix = EmptyString
        \/ matchesToEnd reDate8 suffix = true
        \/ matchesToEnd reDateDashed suffix = true ->
        endsWithDateSuffix (Pricing.normalised model) = false
        /\ Pricing.normalised (Pricing.normalised model) = Pricing.normalised model).
Proof.
  assert (Hiff : Pricing.normalised (Pricing.normalised model) = Pricing.normalised model
                 <-> endsWithDateSuffix (Pricing.normalised model) = false).
  { rewrite normalised_twice. unfold endsWithDateSuffix.
    set (r := Pricing.normalised model).
    split.
    - intros Heq. apply orb_false_iff.
      destruct (testAtEnd reDate8 r) eqn:H8.
      + exfalso.
        pose proof (replaceAtEnd_match_shorter reDate8 r ltac:(discriminate) H8).
        pose proof (replaceAtEnd_length_le reDateDashed (replaceAtEnd reDate8 r)).
        rewrite Heq in *. lia.
      + split; [reflexivity|].
        rewrite (replaceAtEnd_no_match _ _ H8) in Heq.
        destruct (testAtEnd reDateDashed r) eqn:HD; [|reflexivity].
        exfalso.
        pose proof (replaceAtEnd_match_shorter reDateDashed r ltac:(discriminate) HD).
        rewrite Heq in *. lia.
    - intros [H8 HD]%orb_false_iff.
      rewrite (replaceAtEnd_no_match _ _ H8). now apply replaceAtEnd_no_match. }
  split; [exact Hiff|].
  intros base suffix Hmodel Hplain Hsuffix.
  assert (Hnorm : Pricing.normalised model = toLowerCase base).
  { subst model. destruct Hsuffix as [->|Hsuffix].
    - replace (String.append base EmptyString) with base.
      + now apply normalised_plain.
      + clear. induction base as [|c base IH]; [reflexivity|].
        exact (f_equal (String c) IH).
    - destruct (normalised_dated base suffix Hsuffix) as [Hn|Hn]; [|exact Hn].
      rewrite Hn. apply replaceAtEnd_no_match.
      unfold endsWithDateSuffix in Hplain. now apply orb_false_iff in Hplain. }
  assert (Hends : endsWithDateSuffix (Pricing.normalised model) = false)
    by now rewrite Hnorm.
  split; [exact Hends|]. now apply Hiff.
Qed.

(** An instance of the amended C3: a name with one date suffix. *)
Lemma normalised_idempotent_iff_witness :
  endsWithDateSuffix (Pricing.normalised "Claude-Opus-4-6-20250601") = false
  /\ Pricing.normalised (Pricing.normalised "Claude-Opus-4-6-20250601")
     = Pricing.normalised "Claude-Opus-4-6-20250601".
Proof.
  destruct (normalised_idempotent_iff "Claude-Opus-4-6-20250601") as [_ Hone].
  apply (Hone "Claude-Opus-4-6" "-20250601").
  - reflexivity.
  - vm_compute; reflexivity.
  - right. left. vm_compute; reflexivity.
Defined.

(* ================================================================== *)
(** * Properties of [JsArray.sort] *)
(* ================================================================== *)

Section SortFacts.
Variable A : Type.
Variable before : A -> A -> bool.

Local Abbreviation inOrder := (JsArray.inOrder before).
Local Abbreviation unordered := (JsArray.unordered before).

Lemma insertSorted_perm (x : A) (l : list A) :
  Permutation (x :: l) (JsArray.insertSorted before x l).
Proof.
  induction l as [|y l IH]; simpl; [reflexivity|].
  destruct (before x y); [reflexivity|].
  rewrite perm_swap. now constructor.
Qed.

Lemma sort_perm_acc (l acc : list A) :
  Permutation (acc ++ l)
    (fold_left (fun acc x => JsArray.insertSorted before x acc) l acc).
Proof.
  revert acc. induction l as [|x l IH]; intros acc; simpl.
  - now rewrite app_nil_r.
  - rewrite <- IH. rewrite <- insertSorted_perm.
    symmetry. apply Permutation_middle.
Qed.

Lemma sort_perm (l : list A) : Permutation l (JsArray.sort before l).
Proof. apply (sort_perm_acc l []). Qed.

Lemma sort_length (l : list A) : length (JsArray.sort before l) = length l.
Proof. symmetry. apply Permutation_length, sort_perm. Qed.

Lemma sort_in (l : list A) (x : A) : In x (JsArray.sort before l) <-> In x l.
Proof.
  split; apply Permutation_in; [symmetry|]; apply sort_perm.
Qed.

Lemma insertSorted_hd (R : A -> A -> Prop) (a x : A) (l : list A) :
  R a x -> HdRel R a l -> HdRel R a (JsArray.insertSorted before x l).
Proof.
  intros Hx Hl. destruct l as [|y l]; simpl; [now constructor|].
  destruct (before x y); constructor; [assumption|].
  now inversion Hl.
Qed.

Section Asymmetric.
Hypothesis before_asym : forall x y, before x y = true -> before y x = false.

Lemma insertSorted_sorted (x : A) (l : list A) :
  Sorted inOrder l -> Sorted inOrder (JsArray.insertSorted before x l).
Proof using before_asym.
  induction l as [|y l IH]; simpl; intros Hs.
  - repeat constructor.
  - destruct (before x y) eqn:Hxy.
    + constructor; [assumption|]. constructor. now apply before_asym.
    + inversion Hs as [|? ? Hl Hhd]; subst.
      constructor; [now apply IH|].
      now apply insertSorted_hd.
Qed.

Lemma sort_sorted_acc (l acc : list A) :
  Sorted inOrder acc ->
  Sorted inOrder (fold_left (fun acc x => JsArray.insertSorted before x acc) l acc).
Proof using before_asym.
  revert acc. induction l as [|x l IH]; intros acc Hacc; simpl; [assumption|].
  now apply IH, insertSorted_sorted.
Qed.

(** Each element of the sorted array may stand in front of its right
    neighbour. *)
Lemma sort_sorted (l : list A) : Sorted inOrder (JsArray.sort before l).
Proof using before_asym. apply sort_sorted_acc. constructor. Qed.

Section WeakOrder.
Hypothesis inOrder_trans :
  forall x y z, inOrder x y -> inOrder y z -> inOrder x z.

Lemma before_split (x y z : A) :
  before x y = true -> before x z = true \/ before z y = true.
Proof using inOrder_trans.
  intros Hxy.
  destruct (before x z) eqn:Hxz; [now left|].
  destruct (before z y) eqn:Hzy; [now right|].
  exfalso. assert (Hn : inOrder y x) by (apply inOrder_trans with z; assumption).
  unfold inOrder in Hn. congruence.
Qed.

Lemma sort_strongly_sorted (l : list A) :
  StronglySorted inOrder (JsArray.sort before l).
Proof using before_asym inOrder_trans.
  apply Sorted_StronglySorted; [exact inOrder_trans | apply sort_sorted].
Qed.

Lemma insertSorted_stable (P : A -> bool) (x : A) (l : list A) :
  unordered P ->
  StronglySorted inOrder l ->
  List.filter P (JsArray.insertSorted before x l)
  = List.filter P l ++ List.filter P [x].
Proof using before_asym inOrder_trans.
  intros HP. induction l as [|y l IH]; intros Hs; [reflexivity|].
  inversion Hs as [|? ? Hl Hall]; subst.
  cbn [JsArray.insertSorted]. destruct (before x y) eqn:Hxy.
  - change (List.filter P (x :: y :: l))
      with (if P x then x :: List.filter P (y :: l) else List.filter P (y :: l)).
    change (List.filter P [x]) with (if P x then [x] else []).
    destruct (P x) eqn:Hx; [|now rewrite app_nil_r].
    assert (Hz : forall z, In z (y :: l) -> P z = false).
    { intros z Hz.
      assert (Hxz : before x z = true).
      { destruct Hz as [<-|Hz]; [assumption|].
        rewrite List.Forall_forall in Hall. specialize (Hall z Hz).
        destruct (before_split x y z Hxy) as [?|Hzy]; [assumption|].
        unfold inOrder in Hall. congruence. }
      destruct (P z) eqn:Hpz; [|reflexivity].
      specialize (HP x z Hx Hpz). congruence. }
    assert (Hnone : List.filter P (y :: l) = []).
    { clear IH Hs Hall Hl Hxy. revert Hz. generalize (y :: l). intros l0 Hz.
      induction l0 as [|z l0 IH0]; [reflexivity|].
      cbn [List.filter]. rewrite (Hz z (or_introl eq_refl)).
      apply IH0. intros z' Hz'. apply Hz. now right. }
    rewrite Hnone. reflexivity.
  - cbn [List.filter]. rewrite (IH Hl).
    destruct (P y); reflexivity.
Qed.

Lemma sort_stable_acc (P : A -> bool) (l acc : list A) :
  unordered P ->
  StronglySorted inOrder acc ->
  List.filter P
    (fold_left (fun acc x => JsArray.insertSorted before x acc) l acc)
  = List.filter P acc ++ List.filter P l.
Proof using before_asym inOrder_trans.
  intros HP. revert acc. induction l as [|x l IH]; intros acc Hacc; simpl fold_left.
  - now rewrite app_nil_r.
  - rewrite IH.
    + rewrite insertSorted_stable by assumption.
      rewrite <- app_assoc. f_equal.
      change (x :: l) with ([x] ++ l). apply eq_sym, List.filter_app.
    + apply Sorted_StronglySorted; [exact inOrder_trans|].
      apply insertSorted_sorted. now apply StronglySorted_Sorted.
Qed.

(** The sort is stable: elements none of which has to precede another
    one come out in the order in which they went in. *)
Lemma sort_stable (P : A -> bool) (l : list A) :
  unordered P ->
  List.filter P (JsArray.sort before l) = List.filter P l.
Proof using before_asym inOrder_trans.
  intros HP. unfold JsArray.sort. rewrite sort_stable_acc; [reflexivity|assumption|constructor].
Qed.

End WeakOrder.
End Asymmetric.
End SortFacts.

(* ================================================================== *)
(** * The order of strings *)
(* ================================================================== *)

Lemma ascii_compare_lt_trans (a b c : ascii) :
  Ascii.compare a b = Lt -> Ascii.compare b c = Lt -> Ascii.compare a c = Lt.
Proof.
  unfold Ascii.compare. rewrite !N.compare_lt_iff. lia.
Qed.

Lemma string_compare_lt_trans (a b c : string) :
  String.compare a b = Lt -> String.compare b c = Lt -> String.compare a c = Lt.
Proof.
  revert b c. induction a as [|x a IH]; intros [|y b] [|z c]; simpl; try congruence.
  destruct (Ascii.compare x y) eqn:Hxy; try discriminate;
    destruct (Ascii.compare y z) eqn:Hyz; try discriminate; intros Hab Hbc.
  - apply Ascii.compare_eq_iff in Hxy, Hyz. subst.
    assert (Hzz : Ascii.compare z z = Eq) by (unfold Ascii.compare; apply N.compare_refl).
    rewrite Hzz. now apply IH with b.
  - apply Ascii.compare_eq_iff in Hxy. subst. now rewrite Hyz.
  - apply Ascii.compare_eq_iff in Hyz. subst. now rewrite Hxy.
  - now rewrite (ascii_compare_lt_trans x y z).
Qed.

Lemma string_compare_refl (a : string) : String.compare a a = Eq.
Proof.
  induction a as [|x a IH]; simpl; [reflexivity|].
  assert (Hxx : Ascii.compare x x = Eq) by (unfold Ascii.compare; apply N.compare_refl).
  now rewrite Hxx.
Qed.

Lemma string_ltb_irrefl (a : string) : String.ltb a a = false.
Proof. unfold String.ltb. now rewrite string_compare_refl. Qed.

Lemma string_ltb_asym (a b : string) : String.ltb a b = true -> String.ltb b a = false.
Proof.
  unfold String.ltb. rewrite (String.compare_antisym a b).
  destruct (String.compare b a); simpl; congruence.
Qed.

Lemma string_leb_ltb (a b : string) : String.leb a b = negb (String.ltb b a).
Proof.
  unfold String.leb, String.ltb. rewrite (String.compare_antisym b a).
  destruct (String.compare a b); reflexivity.
Qed.

Lemma string_ltb_trans (a b c : string) :
  String.ltb a b = true -> String.ltb b c = true -> String.ltb a c = true.
Proof.
  unfold String.ltb. intros Hab Hbc.
  destruct (String.compare a b) eqn:H1; try discriminate.
  destruct (String.compare b c) eqn:H2; try discriminate.
  now rewrite (string_compare_lt_trans a b c).
Qed.

Lemma string_not_ltb_eq (a b : string) :
  String.ltb a b = false -> String.ltb b a = false -> a = b.
Proof.
  unfold String.ltb. rewrite (String.compare_antisym b a).
  destruct (String.compare a b) eqn:Hab; simpl; try discriminate.
  intros _ _. now apply String.compare_eq_iff.
Qed.

(** [b < a] is false and [c < b] is false: then [c < a] is false. *)
Lemma string_not_ltb_trans (a b c : string) :
  String.ltb b a = false -> String.ltb c b = false -> String.ltb c a = false.
Proof.
  intros Hba Hcb. destruct (String.ltb c a) eqn:Hca; [|reflexivity].
  destruct (String.ltb a b) eqn:Hab.
  - rewrite (string_ltb_trans c a b Hca Hab) in Hcb. discriminate.
  - rewrite (string_not_ltb_eq a b Hab Hba) in Hca. congruence.
Qed.

(* ================================================================== *)
(** * The dedup invariant of a run *)
(* ================================================================== *)

Section ParserFacts.
Import Parser.
Context {num : Type} `{JsNumber num}.
Variable clock : nat -> string.

Abbreviation Event := (UsageEvent num).

Lemma withRequestId_app (r : string) (l1 l2 : list Event) :
  withRequestId r (l1 ++ l2) = withRequestId r l1 ++ withRequestId r l2.
Proof. apply List.filter_app. Qed.

Lemma withRequestId_nil_iff (r : string) (l : list Event) :
  withRequestId r l = [] <-> forall e, In e l -> request_id e <> r.
Proof.
  unfold withRequestId. induction l as [|x l IH]; simpl.
  - split; [intros _ e []|reflexivity].
  - destruct (String.eqb (request_id x) r) eqn:Hx.
    + apply String.eqb_eq in Hx. split; [discriminate|].
      intros Hall. exfalso. now apply (Hall x (or_introl eq_refl)).
    + apply String.eqb_neq in Hx. rewrite IH. split.
      * intros Hall e [<-|He]; [assumption|now apply Hall].
      * intros Hall e He. apply Hall. now right.
Qed.

Lemma withRequestId_in (r : string) (l : list Event) (e : Event) :
  In e (withRequestId r l) <-> In e l /\ request_id e = r.
Proof.
  unfold withRequestId. rewrite List.filter_In. now rewrite String.eqb_eq.
Qed.

Lemma parseLine_record (projectPath lastHumanText lastHumanText' : option string)
    (obj : LogRecord) (st st' : @Run num) :
  parseLine clock projectPath st lastHumanText (JsonRecord obj)
    = Some (st', lastHumanText') ->
  recordEffect clock projectPath lastHumanText obj st st'.
Proof.
  unfold parseLine, requestIdOf.
  destruct (bool_decide (r_type obj = Some "user")) eqn:Huser.
  - apply bool_decide_eq_true in Huser. intros [= <- _].
    apply NotACandidate; [|reflexivity].
    unfold requestIdOf. rewrite Huser. reflexivity.
  - destruct (bool_decide (r_type obj = Some "assistant")) eqn:Hass; simpl.
    2:{ intros [= <- _]. apply NotACandidate; [|reflexivity].
        unfold requestIdOf. now rewrite Hass. }
    destruct (r_message obj) as [msg|] eqn:Hmsg.
    2:{ intros [= <- _]. apply NotACandidate; [|reflexivity].
        unfold requestIdOf. now rewrite Hass, Hmsg. }
    destruct (m_usage msg) as [usage|] eqn:Husage.
    2:{ intros [= <- _]. apply NotACandidate; [|reflexivity].
        unfold requestIdOf. now rewrite Hass, Hmsg, Husage. }
    destruct (truthy (m_id msg)) as [r|] eqn:Hid.
    2:{ intros [= <- _]. apply NotACandidate; [|reflexivity].
        unfold requestIdOf. now rewrite Hass, Hmsg, Husage. }
    assert (Hreq : requestIdOf obj = Some r).
    { unfold requestIdOf. now rewrite Hass, Hmsg, Husage. }
    destruct (bool_decide (r ∈ seen st)) eqn:Hseen.
    + apply bool_decide_eq_true in Hseen. intros [= <- _].
      now apply AlreadySeen with r.
    + apply bool_decide_eq_false in Hseen.
      destruct (truthy (m_model msg)) as [model|] eqn:Hmodel.
      2:{ intros [= <- _]. apply SeenNoModel with r; try assumption; [|reflexivity].
          unfold emittedModel. now rewrite Hmsg, Hmodel. }
      destruct (String.eqb model "<synthetic>") eqn:Hsyn.
      * intros [= <- _]. apply SeenNoModel with r; try assumption; [|reflexivity].
        unfold emittedModel. now rewrite Hmsg, Hmodel, Hsyn.
      * intros [= <- _]. apply Emitted with r model usage; try assumption;
          try reflexivity.
        -- unfold emittedModel. now rewrite Hmsg, Hmodel, Hsyn.
        -- unfold usageOf. now rewrite Hmsg.
Qed.

Lemma find_app_first {B : Type} (f : B -> bool) (l1 l2 : list B) :
  List.find f (l1 ++ l2)
  = match List.find f l1 with
    | Some x => Some x
    | None => List.find f l2
    end.
Proof.
  induction l1 as [|x l1 IH]; simpl; [reflexivity|].
  destruct (f x); [reflexivity|assumption].
Qed.

Lemma find_snoc_none (r : string) (done : list LogRecord) (obj : LogRecord) :
  requestIdOf obj <> Some r ->
  List.find (hasRequestId r) (done ++ [obj]) = List.find (hasRequestId r) done.
Proof.
  intros Hne. rewrite find_app_first. destruct (List.find _ done); [reflexivity|].
  simpl. unfold hasRequestId. rewrite bool_decide_eq_false_2; [reflexivity|assumption].
Qed.

Lemma find_snoc_some (r : string) (done : list LogRecord) (obj : LogRecord) :
  requestIdOf obj = Some r ->
  List.find (hasRequestId r) (done ++ [obj])
  = match List.find (hasRequestId r) done with
    | Some x => Some x
    | None => Some obj
    end.
Proof.
  intros Heq. rewrite find_app_first. destruct (List.find _ done); [reflexivity|].
  simpl. unfold hasRequestId. rewrite bool_decide_eq_true_2; [reflexivity|assumption].
Qed.

Lemma runInvariant_start : runInvariant [] (mkRun (num:=num) ∅ [] 0).
Proof.
  split; simpl.
  - intros r. split; [intros Hr; now apply not_elem_of_empty in Hr|congruence].
  - intros e [].
  - constructor.
  - intros r obj [=].
Qed.

Lemma runInvariant_record (projectPath lastHumanText : option string)
    (obj : LogRecord) (done : list LogRecord) (st st' : @Run num) :
  runInvariant done st ->
  recordEffect clock projectPath lastHumanText obj st st' ->
  runInvariant (done ++ [obj]) st'.
Proof.
  intros [Hseen Hev Hnd Hfirst] Heff.
  destruct Heff as [Hnone ->|r Hreq Hin ->|r Hreq Hnotin Hmodel ->
                    |r model usage Hreq Hnotin Hmodel Husage Hseen' Hevents'].
  - (* the record is not a candidate *)
    assert (Hfind : forall r, List.find (hasRequestId r) (done ++ [obj])
                              = List.find (hasRequestId r) done).
    { intros r. apply find_snoc_none. congruence. }
    split; try assumption.
    + intros r. rewrite Hfind. apply Hseen.
    + intros r o. rewrite Hfind. apply Hfirst.
  - (* its request id has been seen *)
    assert (Hfind : forall r', List.find (hasRequestId r') (done ++ [obj])
                               = List.find (hasRequestId r') done).
    { intros r'. destruct (decide (r' = r)) as [->|Hne].
      - rewrite find_snoc_some by assumption.
        apply Hseen in Hin. destruct (List.find _ done); [reflexivity|congruence].
      - apply find_snoc_none. congruence. }
    split; try assumption.
    + intros r'. rewrite Hfind. apply Hseen.
    + intros r' o. rewrite Hfind. apply Hfirst.
  - (* a new request id, no model to emit *)
    assert (Hfresh : List.find (hasRequestId r) done = None).
    { destruct (List.find (hasRequestId r) done) eqn:Hf; [|reflexivity].
      exfalso. apply Hnotin, Hseen. congruence. }
    split; simpl.
    + intros r'. destruct (decide (r' = r)) as [->|Hne].
      * rewrite find_snoc_some, Hfresh by assumption. split; [congruence|intros _; apply elem_of_union_l; now apply elem_of_singleton].
      * rewrite find_snoc_none by congruence. rewrite <- Hseen.
        rewrite elem_of_union, elem_of_singleton. tauto.
    + intros e He. apply Hev in He. now apply elem_of_union_r.
    + assumption.
    + intros r' o. destruct (decide (r' = r)) as [->|Hne].
      * rewrite find_snoc_some, Hfresh by assumption. intros [= <-].
        unfold firstWins. rewrite Hmodel.
        apply withRequestId_nil_iff. intros e He Heq. apply Hev in He. congruence.
      * rewrite find_snoc_none by congruence. apply Hfirst.
  - (* a new request id, an event is pushed *)
    assert (Hfresh : List.find (hasRequestId r) done = None).
    { destruct (List.find (hasRequestId r) done) eqn:Hf; [|reflexivity].
      exfalso. apply Hnotin, Hseen. congruence. }
    assert (Hno : withRequestId r (events st) = []).
    { apply withRequestId_nil_iff. intros e He Heq. apply Hev in He. congruence. }
    set (ev := newEvent projectPath lastHumanText (clock (ticks st)) obj usage r model) in *.
    assert (Hid : request_id ev = r) by reflexivity.
    split.
    + intros r'. rewrite Hseen'. destruct (decide (r' = r)) as [->|Hne].
      * rewrite find_snoc_some, Hfresh by assumption. split; [congruence|intros _; apply elem_of_union_l; now apply elem_of_singleton].
      * rewrite find_snoc_none by congruence. rewrite <- Hseen.
        rewrite elem_of_union, elem_of_singleton. tauto.
    + intros e. rewrite Hevents', Hseen', List.in_app_iff.
      intros [He|[<-|[]]]; [apply Hev in He; now apply elem_of_union_r|].
      rewrite Hid. apply elem_of_union_l. now apply elem_of_singleton.
    + rewrite Hevents', List.map_app. simpl.
      apply List.NoDup_app. repeat split.
      * assumption.
      * repeat constructor. intros [].
      * intros x Hx [Hx'|[]].
        apply List.in_map_iff in Hx as (e & He1 & He2).
        apply Hev in He2. apply Hnotin.
        replace r with (request_id e) by congruence. exact He2.
    + intros r' o. rewrite Hevents'. unfold firstWins, withRequestId.
      rewrite List.filter_app. fold (withRequestId r' (events st)).
      cbn [List.filter]. rewrite Hid.
      destruct (decide (r' = r)) as [->|Hne].
      * rewrite find_snoc_some, Hfresh by assumption. intros [= <-].
        rewrite Hmodel, Hno, String.eqb_refl. simpl.
        exists ev. split; [reflexivity|].
        exists model, usage, projectPath, lastHumanText, (clock (ticks st)).
        rewrite Hid. repeat split; assumption.
      * rewrite find_snoc_none by congruence.
        intros Hf. specialize (Hfirst r' o Hf). unfold firstWins in Hfirst.
        assert (Hneq : String.eqb r r' = false) by (apply String.eqb_neq; congruence).
        rewrite Hneq, app_nil_r. exact Hfirst.
Qed.

Lemma runInvariant_lines (projectPath : option string) (lines : list Line) :
  forall (lastHumanText : option string) (done : list LogRecord) (st st' : @Run num),
    runInvariant done st ->
    parseLines clock projectPath st lastHumanText lines = Some st' ->
    runInvariant (done ++ recordsOfLines lines) st'.
Proof.
  induction lines as [|line lines IH]; intros lh done st st' Hinv; simpl.
  - intros [= <-]. now rewrite app_nil_r.
  - destruct (parseLine clock projectPath st lh line) as [[st1 lh1]|] eqn:Hline;
      [|discriminate].
    intros Hrest. unfold recordsOfLines. simpl. fold (recordsOfLines lines).
    destruct line as [| | |obj].
    + injection Hline as <- <-. simpl. eapply IH; eassumption.
    + injection Hline as <- <-. simpl. eapply IH; eassumption.
    + discriminate.
    + simpl.
      replace (done ++ obj :: recordsOfLines lines)
        with ((done ++ [obj]) ++ recordsOfLines lines)
        by (now rewrite <- app_assoc).
      apply (IH lh1 _ st1); [|assumption].
      apply runInvariant_record with projectPath lh st; [assumption|].
      now apply parseLine_record with lh1.
Qed.

Lemma runInvariant_entries (projectPathMap : gmap string (option string))
    (projectPath : option string) (entries : list DirEnt) :
  forall (done : list LogRecord) (st st' : @Run num),
    runInvariant done st ->
    loadEntries clock projectPathMap projectPath entries st = Some st' ->
    runInvariant (done ++ recordsOfEntries entries) st'.
Proof.
  induction entries as [|ent entries IH]; intros done st st' Hinv; simpl.
  - intros [= <-]. now rewrite app_nil_r.
  - unfold recordsOfEntries. simpl. fold (recordsOfEntries entries).
    destruct (negb (ent_isFile ent) || negb (endsWith (ent_name ent) ".jsonl")).
    + simpl. now apply IH.
    + destruct (parseJSONL _ _ _ _) as [st1|] eqn:Hparse; [|discriminate].
      intros Hrest. rewrite app_assoc. apply (IH _ st1); [|assumption].
      unfold parseJSONL in Hparse. destruct (ent_content ent) as [lines|].
      * now apply (runInvariant_lines _ _ _ done _ _ Hinv) in Hparse.
      * injection Hparse as <-. now rewrite app_nil_r.
Qed.

Lemma runInvariant_slugDirs (slugDirs : list SlugDir) :
  forall (done : list LogRecord) (st st' : @Run num),
    runInvariant done st ->
    loadSlugDirs clock slugDirs st = Some st' ->
    runInvariant (done ++ scanRecords (Projects slugDirs)) st'.
Proof.
  induction slugDirs as [|slugDir slugDirs IH]; intros done st st' Hinv; simpl.
  - intros [= <-]. now rewrite app_nil_r.
  - destruct (readIndex (sd_index slugDir)) as [projectPathMap projectPath].
    destruct (sd_entries slugDir) as [entries|].
    + destruct (loadEntries _ _ _ _ _) as [st1|] eqn:Hload; [|discriminate].
      intros Hrest. rewrite app_assoc. apply (IH _ st1); [|assumption].
      now apply (runInvariant_entries _ _ _ done _ _ Hinv) in Hload.
    + simpl. now apply IH.
Qed.

(** The array before the final sort satisfies the invariant for all the
    records of the scan. *)
Lemma collectEvents_invariant (claudeDir : ClaudeDir) (pre : list Event) :
  collectEvents clock claudeDir = Some pre ->
  exists st, events st = pre /\ runInvariant (scanRecords claudeDir) st.
Proof.
  destruct claudeDir as [| | |slugDirs]; simpl.
  - intros [= <-]. exists (mkRun ∅ [] 0). split; [reflexivity|apply runInvariant_start].
  - intros [= <-]. exists (mkRun ∅ [] 0). split; [reflexivity|apply runInvariant_start].
  - discriminate.
  - destruct (loadSlugDirs _ _ _) as [st|] eqn:Hload; [|discriminate].
    intros [= <-]. exists st. split; [reflexivity|].
    apply (runInvariant_slugDirs slugDirs [] _ _ runInvariant_start Hload).
Qed.

(** [loadAllEvents] returns the collected events sorted by timestamp. *)
Lemma loadAllEvents_sort (claudeDir : ClaudeDir) (evs : list Event) :
  loadAllEvents clock claudeDir = Some evs ->
  exists pre,
    collectEvents clock claudeDir = Some pre
    /\ evs = JsArray.sort (fun a b => (byTimestamp a b <? 0)%Z) pre.
Proof.
  unfold loadAllEvents.
  destruct claudeDir as [| | |slugDirs].
  - intros [= <-]. now exists [].
  - intros [= <-]. now exists [].
  - discriminate.
  - destruct (collectEvents _ _) as [pre|]; [|discriminate].
    intros [= <-]. now exists pre.
Qed.

Lemma withRequestId_perm (r : string) (l l' : list Event) (e : Event) :
  Permutation l l' -> withRequestId r l = [e] -> withRequestId r l' = [e].
Proof.
  intros Hp Hl.
  assert (Hp' : Permutation (withRequestId r l) (withRequestId r l')).
  { unfold withRequestId. clear Hl. induction Hp; simpl.
    - constructor.
    - destruct (String.eqb (request_id x) r); [now constructor|assumption].
    - destruct (String.eqb (request_id x) r), (String.eqb (request_id y) r);
        try reflexivity. apply perm_swap.
    - now transitivity (List.filter (fun e => String.eqb (request_id e) r) l'). }
  rewrite Hl in Hp'. now apply Permutation_length_1_inv in Hp'.
Qed.

End ParserFacts.

(* ================================================================== *)
(** * Properties of [loadAllEvents] *)
(* ================================================================== *)

Lemma Sorted_weaken {A : Type} (R R' : A -> A -> Prop) (l : list A) :
  (forall a b, R a b -> R' a b) -> Sorted R l -> Sorted R' l.
Proof.
  intros HR. induction 1 as [|a l Hl IH Hhd]; constructor; [assumption|].
  destruct Hhd; constructor. now apply HR.
Qed.

(** C1.  In a collection returned by [loadAllEvents] no two events share
    a request id.  Each event is the one pushed for the first record of
    the scan that carries its request id, and it is the only event with
    that id: the later records with the id have left nothing.  Whenever
    the first record with a request id has a model to emit, its event is
    in the collection. *)
Theorem loadAllEvents_first_request_id_wins
    {num : Type} `{JsNumber num} (clock : nat -> string)
    (claudeDir : Parser.ClaudeDir) (evs : list (UsageEvent num)) :
  Parser.loadAllEvents clock claudeDir = Some evs ->
  List.NoDup (List.map (@request_id num) evs)
  /\ (forall e, In e evs ->
        exists obj,
          List.find (Parser.hasRequestId (request_id e))
            (Parser.scanRecords claudeDir) = Some obj
          /\ Parser.eventOf obj e
          /\ Parser.withRequestId (request_id e) evs = [e])
  /\ (forall r obj model,
        List.find (Parser.hasRequestId r) (Parser.scanRecords claudeDir) = Some obj ->
        Parser.emittedModel obj = Some model ->
        exists e, Parser.withRequestId r evs = [e] /\ Parser.eventOf obj e).
Proof.
  intros Hload.
  destruct (loadAllEvents_sort clock _ _ Hload) as (pre & Hpre & ->).
  destruct (collectEvents_invariant clock _ _ Hpre)
    as (st & <- & [Hinv_seen Hinv_ev Hinv_nodup Hinv_first]).
  set (srt := JsArray.sort _ (Parser.events st)).
  assert (Hperm : Permutation (Parser.events st) srt) by apply sort_perm.
  split; [|split].
  - apply (Permutation_NoDup (l := List.map (@request_id num) (Parser.events st))).
    + now apply Permutation_map.
    + exact Hinv_nodup.
  - intros e He.
    assert (He' : In e (Parser.events st))
      by (apply Permutation_in with srt; [now symmetry|assumption]).
    pose proof (Hinv_ev e He') as Hseen.
    apply Hinv_seen in Hseen.
    destruct (List.find _ _) as [obj|] eqn:Hfind; [|congruence].
    exists obj. split; [reflexivity|].
    pose proof (Hinv_first _ _ Hfind) as Hfirst.
    unfold Parser.firstWins in Hfirst.
    assert (Hin : In e (Parser.withRequestId (request_id e) (Parser.events st)))
      by (apply withRequestId_in; split; [assumption|reflexivity]).
    destruct (Parser.emittedModel obj).
    + destruct Hfirst as (e' & Hone & Hev).
      rewrite Hone in Hin. destruct Hin as [<-|[]].
      split; [assumption|]. now apply withRequestId_perm with (Parser.events st).
    + rewrite Hfirst in Hin. destruct Hin.
  - intros r obj model Hfind Hmodel.
    pose proof (Hinv_first _ _ Hfind) as Hfirst.
    unfold Parser.firstWins in Hfirst. rewrite Hmodel in Hfirst.
    destruct Hfirst as (e & Hone & Hev). exists e.
    split; [|assumption]. now apply withRequestId_perm with (Parser.events st).
Qed.

(** An instance of C1: the sample directory, where [r1] occurs three
    times. *)
Lemma loadAllEvents_first_request_id_wins_witness :
  Parser.loadAllEvents Sample.clock Sample.claudeDir = Some Sample.loaded
  /\ List.NoDup (List.map (@request_id float) Sample.loaded)
  /\ List.map (@request_id float) Sample.loaded = ["r3"; "r1"; "r4"].
Proof.
  assert (Hload : Parser.loadAllEvents Sample.clock Sample.claudeDir = Some Sample.loaded)
    by (vm_compute; reflexivity).
  split; [exact Hload|]. split.
  - exact (proj1 (loadAllEvents_first_request_id_wins
                    Sample.clock Sample.claudeDir Sample.loaded Hload)).
  - vm_compute; reflexivity.
Defined.

(** A record with a fresh request id and no model to emit: the id joins
    [seen], nothing else changes. *)
Lemma parseLine_consumes_id {num : Type} `{JsNumber num} (clock : nat -> string)
    (projectPath lastHumanText : option string) (st : Parser.Run)
    (obj : Parser.LogRecord) (r : string) :
  Parser.requestIdOf obj = Some r ->
  r ∉ Parser.seen st ->
  Parser.emittedModel obj = None ->
  Parser.parseLine (num:=num) clock projectPath st lastHumanText (Parser.JsonRecord obj)
  = Some (Parser.mkRun ({[ r ]} ∪ Parser.seen st) (Parser.events st) (Parser.ticks st),
          lastHumanText).
Proof.
  unfold Parser.requestIdOf, Parser.emittedModel, Parser.parseLine.
  destruct (bool_decide (Parser.r_type obj = Some "assistant")) eqn:Hass; [|discriminate].
  apply bool_decide_eq_true in Hass.
  rewrite bool_decide_eq_false_2 by (rewrite Hass; discriminate).
  simpl.
  destruct (Parser.r_message obj) as [msg|]; [|discriminate].
  destruct (Parser.m_usage msg) as [usage|]; [|discriminate].
  intros -> Hnotin. rewrite bool_decide_eq_false_2 by assumption.
  destruct (truthy (Parser.m_model msg)) as [model|]; [|reflexivity].
  destruct (String.eqb model "<synthetic>"); [reflexivity|discriminate].
Qed.

(** C10.  A request id is used up by its first record that reaches the
    dedup test, whether or not that record emits an event.  When that
    record has no model or the placeholder model, reading it adds the id
    to [seen] and pushes nothing, and the returned collection holds no
    event with that id, whatever the later records with the id carry. *)
Theorem first_record_without_model_consumes_request_id
    {num : Type} `{JsNumber num} (clock : nat -> string)
    (claudeDir : Parser.ClaudeDir) (evs : list (UsageEvent num))
    (r : string) (obj : Parser.LogRecord) :
  Parser.loadAllEvents clock claudeDir = Some evs ->
  List.find (Parser.hasRequestId r) (Parser.scanRecords claudeDir) = Some obj ->
  Parser.emittedModel obj = None ->
  (forall projectPath lastHumanText (st : Parser.Run),
     r ∉ Parser.seen st ->
     Parser.parseLine (num:=num) clock projectPath st lastHumanText
       (Parser.JsonRecord obj)
     = Some (Parser.mkRun ({[ r ]} ∪ Parser.seen st) (Parser.events st)
               (Parser.ticks st), lastHumanText))
  /\ (forall e, In e evs -> request_id e <> r).
Proof.
  intros Hload Hfind Hmodel.
  assert (Hreq : Parser.requestIdOf obj = Some r).
  { apply List.find_some in Hfind as [_ Hid].
    unfold Parser.hasRequestId in Hid. now apply bool_decide_eq_true in Hid. }
  split.
  - intros projectPath lastHumanText st Hnotin.
    now apply parseLine_consumes_id.
  - destruct (loadAllEvents_sort clock _ _ Hload) as (pre & Hpre & ->).
    destruct (collectEvents_invariant clock _ _ Hpre)
      as (st & <- & [_ _ _ Hinv_first]).
    specialize (Hinv_first _ _ Hfind). unfold Parser.firstWins in Hinv_first.
    rewrite Hmodel in Hinv_first.
    intros e He. apply sort_in in He.
    now apply (proj1 (withRequestId_nil_iff _ _) Hinv_first).
Qed.

(** An instance of C10: in the sample directory the first record of
    [r2] carries the placeholder and the next one a real model. *)
Lemma first_record_without_model_consumes_request_id_witness :
  (exists obj,
     List.find (Parser.hasRequestId "r2") (Parser.scanRecords Sample.claudeDir)
       = Some obj
     /\ Parser.emittedModel obj = None)
  /\ (forall e, In e Sample.loaded -> request_id e <> "r2").
Proof.
  assert (Hload : Parser.loadAllEvents Sample.clock Sample.claudeDir = Some Sample.loaded)
    by (vm_compute; reflexivity).
  pose (obj := Parser.mkRecord (Some "assistant")
                 (Some (Parser.mkMessage (Some "r2") (Some "<synthetic>")
                          (Some (Sample.usage 0 0)) None))
                 (Some "s1") (Some "/home/u/p")
                 (Some "2024-01-02T09:00:00.000Z") false).
  assert (Hfind : List.find (Parser.hasRequestId "r2")
                    (Parser.scanRecords Sample.claudeDir) = Some obj)
    by (vm_compute; reflexivity).
  assert (Hmodel : Parser.emittedModel obj = None) by (vm_compute; reflexivity).
  split.
  - exists obj. split; assumption.
  - exact (proj2 (first_record_without_model_consumes_request_id
                    Sample.clock Sample.claudeDir Sample.loaded "r2" obj
                    Hload Hfind Hmodel)).
Defined.

(** The comparison of the final sort is negative exactly for a smaller
    timestamp. *)
Lemma byTimestamp_negative {num : Type} (a b : UsageEvent num) :
  (Parser.byTimestamp a b <? 0)%Z = String.ltb (occurred_at a) (occurred_at b).
Proof.
  unfold Parser.byTimestamp.
  destruct (String.ltb (occurred_at a) (occurred_at b)); reflexivity.
Qed.

(** C4.  The collection returned by [loadAllEvents] is sorted ascending
    by [occurred_at]: each event has a timestamp lexically less than or
    equal to that of its right neighbour.  It is a rearrangement of the
    events collected by the scan, and the sort is stable: the events
    with one and the same timestamp are in the order in which the scan
    collected them. *)
Theorem loadAllEvents_sorted_by_occurred_at
    {num : Type} `{JsNumber num} (clock : nat -> string)
    (claudeDir : Parser.ClaudeDir) (evs : list (UsageEvent num)) :
  Parser.loadAllEvents clock claudeDir = Some evs ->
  Sorted (fun a b => String.leb (occurred_at a) (occurred_at b) = true) evs
  /\ exists pre,
       Parser.collectEvents clock claudeDir = Some pre
       /\ Permutation pre evs
       /\ forall t,
            List.filter (fun e => String.eqb (occurred_at e) t) evs
            = List.filter (fun e => String.eqb (occurred_at e) t) pre.
Proof.
  intros Hload.
  destruct (loadAllEvents_sort clock _ _ Hload) as (pre & Hpre & ->).
  set (before := fun a b : UsageEvent num => (Parser.byTimestamp a b <? 0)%Z).
  assert (Hasym : forall x y, before x y = true -> before y x = false).
  { intros x y. unfold before. rewrite !byTimestamp_negative.
    apply string_ltb_asym. }
  assert (Htrans : forall x y z,
             JsArray.inOrder before x y -> JsArray.inOrder before y z -> JsArray.inOrder before x z).
  { intros x y z. unfold JsArray.inOrder, before. rewrite !byTimestamp_negative.
    apply string_not_ltb_trans. }
  split; [|exists pre; split; [assumption|split]].
  - apply Sorted_weaken with (JsArray.inOrder before).
    + intros a b. unfold JsArray.inOrder, before. rewrite byTimestamp_negative.
      rewrite string_leb_ltb. now intros ->.
    + now apply sort_sorted.
  - apply sort_perm.
  - intros t. apply sort_stable; try assumption.
    intros x z Hx Hz. apply String.eqb_eq in Hx, Hz.
    unfold before. rewrite byTimestamp_negative, Hx, Hz.
    apply string_ltb_irrefl.
Qed.

(** An instance of C4: the sample directory, where [r1] and [r4] have
    the same timestamp and are collected in this order. *)
Lemma loadAllEvents_sorted_by_occurred_at_witness :
  Parser.loadAllEvents Sample.clock Sample.claudeDir = Some Sample.loaded
  /\ Sorted (fun a b => String.leb (occurred_at a) (occurred_at b) = true)
       Sample.loaded
  /\ List.map (@request_id float) Sample.collected = ["r1"; "r3"; "r4"]
  /\ List.map (@occurred_at float) Sample.loaded
     = ["2024-01-01T08:00:00.000Z"; "2024-01-03T10:00:00.000Z";
        "2024-01-03T10:00:00.000Z"].
Proof.
  assert (Hload : Parser.loadAllEvents Sample.clock Sample.claudeDir = Some Sample.loaded)
    by (vm_compute; reflexivity).
  split; [exact Hload|]. split; [|split; vm_compute; reflexivity].
  exact (proj1 (loadAllEvents_sorted_by_occurred_at
                  Sample.clock Sample.claudeDir Sample.loaded Hload)).
Defined.

(* ================================================================== *)
(** * Properties of the date filter *)
(* ================================================================== *)

Section FilterFacts.
Context {num : Type} `{JsNumber num}.

(** Without bounds the input is returned as it is. *)
Lemma filterByDate_no_bounds (events : list (UsageEvent num)) :
  Server.filterByDate events None None = events.
Proof. reflexivity. Qed.

(** With bounds, an event is kept exactly when its timestamp is not
    below [from] and not above [to] followed by [T23:59:59]. *)
Lemma filterByDate_bounds (events : list (UsageEvent num))
    (from to : option string) (e : UsageEvent num) :
  In e (Server.filterByDate events from to)
  <-> In e events
      /\ (forall f, truthy from = Some f -> String.leb f (occurred_at e) = true)
      /\ (forall t, truthy to = Some t ->
            String.leb (occurred_at e) (String.append t "T23:59:59") = true).
Proof.
  assert (Hsome : forall (P : string -> Prop) x,
             (forall y, Some x = Some y -> P y) <-> P x).
  { intros P x. split; [intros HP; now apply HP|intros HP y [= <-]; exact HP]. }
  assert (Hnone : forall P : string -> Prop,
             (forall y, @None string = Some y -> P y) <-> True).
  { intros P. split; [trivial|intros _ y [=]]. }
  unfold Server.filterByDate.
  destruct (truthy from) as [f|], (truthy to) as [t|]; cbn [option_map];
    rewrite ?List.filter_In, ?Hsome, ?Hnone, ?string_leb_ltb.
  - destruct (String.ltb (occurred_at e) f), (String.ltb _ (occurred_at e));
      simpl; intuition congruence.
  - destruct (String.ltb (occurred_at e) f); simpl; intuition congruence.
  - destruct (String.ltb _ (occurred_at e)); simpl; intuition congruence.
  - intuition.
Qed.

End FilterFacts.

(** C5, evaluated where the code leaves it.  With [to = "2024-01-02"] the
    upper bound is the string "2024-01-02T23:59:59"; the timestamp
    "2024-01-02T23:59:59.500Z" lies within that day, is greater than the
    bound as a string, and the event is dropped. *)
Theorem filterByDate_drops_last_second_of_to_day :
  startsWith (occurred_at Sample.lastSecond) "2024-01-02" = true
  /\ String.ltb "2024-01-02T23:59:59" (occurred_at Sample.lastSecond) = true
  /\ Server.filterByDate [Sample.lastSecond] None (Some "2024-01-02") = []
  /\ Server.filterByDate [Sample.lastSecond] (Some "2024-01-02") (Some "2024-01-02") = [].
Proof. repeat split; vm_compute; reflexivity. Qed.

(* ================================================================== *)
(** * Properties of the paginated listing *)
(* ================================================================== *)

Lemma filter_filter_andb {A : Type} (p q : A -> bool) (l : list A) :
  List.filter p (List.filter q l) = List.filter (fun x => q x && p x) l.
Proof.
  induction l as [|x l IH]; simpl; [reflexivity|].
  destruct (q x); simpl; [destruct (p x)|]; now rewrite IH.
Qed.

Lemma filter_ext_eq {A : Type} (p q : A -> bool) (l : list A) :
  (forall x, p x = q x) -> List.filter p l = List.filter q l.
Proof.
  intros Hpq. induction l as [|x l IH]; simpl; [reflexivity|].
  now rewrite Hpq, IH.
Qed.

Lemma filter_all {A : Type} (l : list A) : List.filter (fun _ => true) l = l.
Proof. induction l as [|x l IH]; simpl; [reflexivity|now rewrite IH]. Qed.

(** [slice] with a start and an end that are not negative. *)
Lemma slice_length {A : Type} (start end_ : Z) (l : list A) :
  (0 <= start)%Z -> (start <= end_)%Z ->
  Z.of_nat (length (JsArray.slice start end_ l))
  = Z.max 0 (Z.min (end_ - start) (Z.of_nat (length l) - start)).
Proof.
  intros Hs He. unfold JsArray.slice, JsArray.relIndex.
  rewrite List.length_firstn, List.length_skipn.
  destruct (Z.ltb_spec start 0); [lia|].
  destruct (Z.ltb_spec end_ 0); lia.
Qed.

Lemma ceilDiv_spec (a b : Z) :
  (0 < b)%Z ->
  exists n, Server.ceilDiv a b = Some n /\ ((n - 1) * b < a <= n * b)%Z.
Proof.
  intros Hb. unfold Server.ceilDiv.
  destruct (Z.eqb_spec b 0); [lia|].
  eexists. split; [reflexivity|].
  pose proof (Z.div_mod (- a) b ltac:(lia)).
  pose proof (Z.mod_pos_bound (- a) b Hb). nia.
Qed.

Section EventsFacts.
Context {num : Type} `{JsNumber num}.
Variable localeCompare : string -> string -> Z.

Lemma filterIf_filter (o : option string)
    (pred : string -> UsageEvent num -> bool) (f : list (UsageEvent num)) :
  Server.filterIf o pred f
  = List.filter
      (fun e => match truthy o with Some v => pred v e | None => true end) f.
Proof.
  unfold Server.filterIf. destruct (truthy o); [reflexivity|].
  symmetry. apply filter_all.
Qed.

(** The five filters keep the events that pass all of them. *)
Lemma applyFilters_passes (q : Server.EventsQuery) (events : list (UsageEvent num)) :
  Server.applyFilters q events = List.filter (Server.passesFilters q) events.
Proof.
  unfold Server.applyFilters. rewrite !filterIf_filter, !filter_filter_andb.
  apply filter_ext_eq. intros e. unfold Server.passesFilters.
  now rewrite !andb_assoc.
Qed.

End EventsFacts.

(** C6, as stated, fails on a page past the last one: of three events,
    page 3 of size 2 starts at offset 4; it has no rows, whereas
    [min(limit, total - offset)] is -1. *)
Lemma computeEvents_page_past_the_end :
  let r := Server.computeEvents Sample.localeCompare Sample.threeSessions
             Sample.pageThree in
  Server.total r = 3%Z /\ Server.page r = 3%Z /\ Server.limit r = 2%Z
  /\ Z.of_nat (length (Server.rows r)) = 0%Z
  /\ Z.of_nat (length (Server.rows r))
     <> Z.min (Server.limit r)
          (Server.total r - (Server.page r - 1) * Server.limit r).
Proof. vm_compute. repeat split; discriminate. Qed.

(** C6, amended.  For a page number of at least 1 and a page size of at
    least 1, [total] counts the events that pass the filters, the page
    holds [max(0, min(limit, total - offset))] rows with
    [offset = (page - 1) * limit], and [pages] is the ceiling of
    [total / limit]. *)
Theorem computeEvents_pagination
    {num : Type} `{JsNumber num} (localeCompare : string -> string -> Z)
    (events : list (UsageEvent num)) (q : Server.EventsQuery) :
  let r := Server.computeEvents localeCompare events q in
  let offset := ((Server.page r - 1) * Server.limit r)%Z in
  (1 <= Server.page r)%Z -> (1 <= Server.limit r)%Z ->
  Server.page r = match Server.q_page q with Some p => p | None => 1%Z end
  /\ Server.limit r = match Server.q_limit q with Some l => l | None => 50%Z end
  /\ Server.total r
     = Z.of_nat (length (List.filter (Server.passesFilters q) events))
  /\ Z.of_nat (length (Server.rows r))
     = Z.max 0 (Z.min (Server.limit r) (Server.total r - offset))
  /\ exists n, Server.pages r = Some n
       /\ ((n - 1) * Server.limit r < Server.total r <= n * Server.limit r)%Z.
Proof.
  intros r offset Hpage Hlimit.
  assert (Htotal : Server.total r
                   = Z.of_nat (length (List.filter (Server.passesFilters q) events))).
  { unfold r, Server.computeEvents. cbn [Server.total].
    destruct (bool_decide _); rewrite sort_length, applyFilters_passes; reflexivity. }
  split; [reflexivity|]. split; [reflexivity|]. split; [exact Htotal|]. split.
  - unfold r, Server.computeEvents in *. cbn [Server.rows Server.total Server.limit
      Server.page] in *.
    subst offset.
    set (p := match Server.q_page q with Some p => p | None => 1%Z end) in *.
    set (l := match Server.q_limit q with Some l => l | None => 50%Z end) in *.
    rewrite slice_length by nia. f_equal. f_equal. lia.
  - unfold r, Server.computeEvents. cbn [Server.pages Server.total Server.limit].
    apply ceilDiv_spec. unfold r, Server.computeEvents in Hlimit.
    cbn [Server.limit] in Hlimit. lia.
Qed.

(** An instance of the amended C6: page 2 of size 2 of the two events
    that pass the filter is past the end and empty, and there is one
    page. *)
Lemma computeEvents_pagination_witness :
  let r := Server.computeEvents Sample.localeCompare Sample.threeSessions
             Sample.pageTwo in
  Server.total r = 2%Z
  /\ Z.of_nat (length (Server.rows r)) = 0%Z
  /\ Server.pages r = Some 1%Z
  /\ Z.of_nat (length (Server.rows r))
     = Z.max 0 (Z.min (Server.limit r)
                  (Server.total r - (Server.page r - 1) * Server.limit r)).
Proof.
  split; [vm_compute; reflexivity|].
  split; [vm_compute; reflexivity|].
  split; [vm_compute; reflexivity|].
  apply (computeEvents_pagination Sample.localeCompare Sample.threeSessions
           Sample.pageTwo); vm_compute; discriminate.
Defined.

(* ================================================================== *)
(** * Grouping with an insertion-ordered map *)
(* ================================================================== *)

Section GroupFacts.
Variables E V : Type.
Variable key : E -> string.
Variable init : E -> V.
Variable update : E -> V -> V.

Local Abbreviation grouped := (JsArray.grouped key init update).
Local Abbreviation group := (JsArray.group key).
Local Abbreviation folded := (JsArray.folded init update).

Lemma upsert_keys (k : string) (e : E) (m : list (string * V)) :
  List.map fst (JsArray.upsert k (init e) (update e) m)
  = if List.in_dec String.string_dec k (List.map fst m)
    then List.map fst m else List.map fst m ++ [k].
Proof.
  induction m as [|[k' v] m IH]; simpl; [reflexivity|].
  destruct (String.eqb_spec k k') as [->|Hne]; simpl.
  - destruct (String.string_dec k' k'); [reflexivity|congruence].
  - rewrite IH. destruct (String.string_dec k' k); [congruence|].
    destruct (List.in_dec String.string_dec k (List.map fst m)); reflexivity.
Qed.

Lemma upsert_nodup (k : string) (e : E) (m : list (string * V)) :
  List.NoDup (List.map fst m) ->
  List.NoDup (List.map fst (JsArray.upsert k (init e) (update e) m)).
Proof.
  intros Hnd. rewrite upsert_keys.
  destruct (List.in_dec String.string_dec k (List.map fst m)) as [Hin|Hin];
    [assumption|].
  apply List.NoDup_app. repeat split.
  - assumption.
  - repeat constructor. intros [].
  - intros x Hx [<-|[]]. contradiction.
Qed.

(** The entries after one more element. *)
Lemma upsert_in (k : string) (e : E) (m : list (string * V)) (k' : string) (v' : V) :
  List.NoDup (List.map fst m) ->
  In (k', v') (JsArray.upsert k (init e) (update e) m)
  <-> (k' <> k /\ In (k', v') m)
      \/ (k' = k /\ ((exists v, In (k, v) m /\ v' = update e v)
                  \/ (~ In k (List.map fst m) /\ v' = update e (init e)))).
Proof.
  induction m as [|[k0 v0] m IH]; intros Hnd; simpl.
  - split.
    + intros [[= <- <-]|[]]. right. split; [reflexivity|]. right. tauto.
    + intros [[_ []]|[-> [(v & [] & _)|[_ ->]]]]. now left.
  - inversion Hnd as [|? ? Hnot Hnd']; subst. specialize (IH Hnd').
    destruct (String.eqb_spec k k0) as [->|Hne]; simpl.
    + split.
      * intros [[= <- <-]|Hin].
        -- right. split; [reflexivity|]. left. exists v0. split; [now left|reflexivity].
        -- left. split; [|now right].
           intros ->. apply Hnot. apply List.in_map_iff. now exists (k0, v').
      * intros [[Hne [[= -> ->]|Hin]]|[-> [(v & [[= ->]|Hin] & ->)|[Hnotin ->]]]].
        -- congruence.
        -- now right.
        -- now left.
        -- exfalso. apply Hnot. apply List.in_map_iff. now exists (k0, v).
        -- exfalso. apply Hnotin. now left.
    + rewrite IH. split.
      * intros [[= <- <-]|[[Hne' Hin]|[-> Hcase]]].
        -- left. split; [congruence|now left].
        -- left. split; [assumption|now right].
        -- right. split; [reflexivity|].
           destruct Hcase as [(v & Hin & ->)|[Hnotin ->]].
           ++ left. exists v. split; [now right|reflexivity].
           ++ right. split; [|reflexivity]. intros [?|?]; [congruence|contradiction].
      * intros [[Hne' [[= -> ->]|Hin]]|[-> [(v & [[= ? ?]|Hin] & ->)|[Hnotin ->]]]].
        -- now left.
        -- right. left. now split.
        -- congruence.
        -- right. right. split; [reflexivity|]. left. now exists v.
        -- right. right. split; [reflexivity|]. right. split; [|reflexivity].
           intros Hin. apply Hnotin. now right.
Qed.

Lemma grouped_snoc (l : list E) (e : E) :
  grouped (l ++ [e]) = JsArray.upsert (key e) (init e) (update e) (grouped l).
Proof. unfold JsArray.grouped. now rewrite List.fold_left_app. Qed.

Lemma group_snoc (k : string) (l : list E) (e : E) :
  group k (l ++ [e]) = group k l ++ (if String.eqb (key e) k then [e] else []).
Proof. unfold JsArray.group. now rewrite List.filter_app. Qed.

(** The map has one entry for each key that occurs, and its value is the
    one folded over the elements with that key, in their order, from the
    initial value made for the first of them. *)
Lemma grouped_spec (l : list E) :
  List.NoDup (List.map fst (grouped l))
  /\ forall k v,
       In (k, v) (grouped l)
       <-> exists e0 g, group k l = e0 :: g /\ v = folded e0 (e0 :: g).
Proof.
  induction l as [|e l IH] using List.rev_ind.
  - split; [constructor|]. intros k v. simpl. split; [intros []|].
    intros (e0 & g & Hg & _). discriminate.
  - destruct IH as [Hnd IH]. rewrite grouped_snoc. split; [now apply upsert_nodup|].
    intros k v. rewrite upsert_in by assumption. rewrite group_snoc.
    destruct (String.eqb_spec (key e) k) as [Hk|Hk].
    + subst k. split.
      * intros [[Hne _]|[_ [(v0 & Hin & ->)|[Hnotin ->]]]]; [congruence| |].
        -- apply IH in Hin as (e0 & g & Hg & ->).
           exists e0, (g ++ [e]). rewrite Hg. split; [reflexivity|].
           unfold JsArray.folded. rewrite List.app_comm_cons, List.fold_left_app. reflexivity.
        -- destruct (group (key e) l) as [|e0 g] eqn:Hg.
           ++ exists e, []. split; reflexivity.
           ++ exfalso. apply Hnotin. apply List.in_map_iff.
              exists (key e, folded e0 (e0 :: g)). split; [reflexivity|].
              apply IH. now exists e0, g.
      * intros (e0 & g & Hg & ->). right. split; [reflexivity|].
        destruct (group (key e) l) as [|e1 g1] eqn:Hg1.
        -- injection Hg as <- <-. right. split; [|reflexivity].
           intros Hin. apply List.in_map_iff in Hin as ([k0 v0] & Hk0 & Hin).
           simpl in Hk0. subst k0. apply IH in Hin as (? & ? & Hx & _).
           rewrite Hg1 in Hx. discriminate.
        -- simpl in Hg. injection Hg as <- <-. left.
           exists (folded e1 (e1 :: g1)). split.
           ++ apply IH. now exists e1, g1.
           ++ unfold JsArray.folded. rewrite List.app_comm_cons, List.fold_left_app. reflexivity.
    + rewrite app_nil_r. rewrite <- IH. split.
      * intros [[_ Hin]|[-> _]]; [assumption|congruence].
      * intros Hin. left. split; [congruence|assumption].
Qed.

(** The keys of the map are the keys that occur. *)
Lemma grouped_keys (l : list E) (k : string) :
  In k (List.map fst (grouped l)) <-> In k (List.map key l).
Proof.
  destruct (grouped_spec l) as [_ Hspec]. split.
  - intros Hin. apply List.in_map_iff in Hin as ([k0 v] & Hk & Hin). simpl in Hk. subst k0.
    apply Hspec in Hin as (e0 & g & Hg & _).
    assert (He0 : In e0 (group k l)) by (rewrite Hg; now left).
    unfold JsArray.group in He0. apply List.filter_In in He0 as [He0 Hk].
    apply String.eqb_eq in Hk. apply List.in_map_iff. now exists e0.
  - intros Hin. apply List.in_map_iff in Hin as (e & Hk & He).
    destruct (group k l) as [|e0 g] eqn:Hg.
    + exfalso. assert (Hin : In e (group k l)).
      { unfold JsArray.group. apply List.filter_In. split; [assumption|].
        now apply String.eqb_eq. }
      rewrite Hg in Hin. destruct Hin.
    + apply List.in_map_iff. exists (k, folded e0 (e0 :: g)). split; [reflexivity|].
      apply Hspec. now exists e0, g.
Qed.

End GroupFacts.

(* ================================================================== *)
(** * Binary64 arithmetic *)
(* ================================================================== *)

(** What the properties of costs need to know about the rounded
    operations on doubles, from their specification on mantissas and
    exponents ([SpecFloat], [FloatAxioms]): how large a result can get,
    and what sign a difference has. *)

Section Binary64Facts.
Local Open Scope Z_scope.

Local Abbreviation fexp := (SpecFloat.fexp prec emax).

Ltac unfold_fexp := unfold SpecFloat.fexp, SpecFloat.emin, prec, emax in *.

(** ** Number of binary digits *)

Lemma digits2_pos_bounds (p : positive) :
  2 ^ (Zpos (digits2_pos p) - 1) <= Zpos p < 2 ^ Zpos (digits2_pos p).
Proof.
  induction p as [p IH|p IH|]; cbn [digits2_pos].
  - rewrite Pos2Z.inj_succ. replace (Z.succ (Zpos (digits2_pos p)) - 1)
      with (Z.succ (Zpos (digits2_pos p) - 1)) by lia.
    rewrite !Z.pow_succ_r by lia. lia.
  - rewrite Pos2Z.inj_succ. replace (Z.succ (Zpos (digits2_pos p)) - 1)
      with (Z.succ (Zpos (digits2_pos p) - 1)) by lia.
    rewrite !Z.pow_succ_r by lia. lia.
  - simpl. lia.
Qed.

Lemma Zdigits2_nonneg (m : Z) : 0 <= Zdigits2 m.
Proof. destruct m; simpl; lia. Qed.

Lemma Zdigits2_bounds (m : Z) :
  0 < m -> 2 ^ (Zdigits2 m - 1) <= m < 2 ^ Zdigits2 m.
Proof. destruct m as [|p|p]; try lia. intros _. apply digits2_pos_bounds. Qed.

(** [m] has at most [k] digits when it is below [2^k]. *)
Lemma Zdigits2_le_of_lt (m k : Z) : 0 <= m -> 0 <= k -> m < 2 ^ k -> Zdigits2 m <= k.
Proof.
  intros Hm Hk Hlt. destruct (Z.eq_dec m 0) as [->|Hne]; [simpl; lia|].
  destruct (Zdigits2_bounds m ltac:(lia)) as [Hlo _].
  destruct (Z.le_gt_cases (Zdigits2 m) k) as [|Hgt]; [assumption|exfalso].
  assert (2 ^ k <= 2 ^ (Zdigits2 m - 1)) by (apply Z.pow_le_mono_r; lia). lia.
Qed.

(** [m] has at least [k] digits when it is at least [2^(k-1)]. *)
Lemma Zdigits2_ge_of_le (m k : Z) : 1 <= k -> 2 ^ (k - 1) <= m -> k <= Zdigits2 m.
Proof.
  intros Hk Hle.
  assert (0 < 2 ^ (k - 1)) by (apply Z.pow_pos_nonneg; lia).
  destruct (Zdigits2_bounds m ltac:(lia)) as [_ Hhi].
  destruct (Z.le_gt_cases k (Zdigits2 m)) as [|Hgt]; [assumption|exfalso].
  assert (2 ^ Zdigits2 m <= 2 ^ (k - 1))
    by (apply Z.pow_le_mono_r; [lia|pose proof (Zdigits2_nonneg m); lia]). lia.
Qed.

Lemma Zdigits2_mono (a b : Z) : 0 <= a <= b -> Zdigits2 a <= Zdigits2 b.
Proof.
  intros [Ha Hab]. destruct (Z.eq_dec a 0) as [->|Hne]; [apply Zdigits2_nonneg|].
  destruct (Zdigits2_bounds a ltac:(lia)) as [Hlo _].
  apply Zdigits2_ge_of_le; [|lia].
  destruct a; simpl; try lia.
Qed.

Lemma Zdigits2_succ (m : Z) : 0 <= m -> Zdigits2 (m + 1) <= Zdigits2 m + 1.
Proof.
  intros Hm. destruct (Z.eq_dec m 0) as [->|Hne]; [simpl; lia|].
  destruct (Zdigits2_bounds m ltac:(lia)) as [_ Hhi].
  apply Zdigits2_le_of_lt; [lia|pose proof (Zdigits2_nonneg m); lia|].
  rewrite Z.pow_add_r by (pose proof (Zdigits2_nonneg m); lia). lia.
Qed.

Lemma Zdigits2_shift (m k : Z) :
  0 < m -> 0 <= k -> Zdigits2 (m * 2 ^ k) = Zdigits2 m + k.
Proof.
  intros Hm Hk. destruct (Zdigits2_bounds m Hm) as [Hlo Hhi].
  pose proof (Zdigits2_nonneg m) as Hd.
  assert (Hd1 : 1 <= Zdigits2 m) by (destruct m; simpl; lia).
  assert (Hp : 0 < 2 ^ k) by (apply Z.pow_pos_nonneg; lia).
  apply Z.le_antisymm.
  - apply Zdigits2_le_of_lt; [nia|lia|]. rewrite Z.pow_add_r by lia. nia.
  - apply Zdigits2_ge_of_le; [lia|].
    replace (Zdigits2 m + k - 1) with (Zdigits2 m - 1 + k) by lia.
    rewrite Z.pow_add_r by lia. nia.
Qed.

Lemma Zdigits2_mul (a b : Z) :
  0 < a -> 0 < b ->
  Zdigits2 a + Zdigits2 b - 1 <= Zdigits2 (a * b) <= Zdigits2 a + Zdigits2 b.
Proof.
  intros Ha Hb.
  destruct (Zdigits2_bounds a Ha) as [Hla Hha], (Zdigits2_bounds b Hb) as [Hlb Hhb].
  assert (Hda : 1 <= Zdigits2 a) by (destruct a; simpl; lia).
  assert (Hdb : 1 <= Zdigits2 b) by (destruct b; simpl; lia).
  assert (0 < 2 ^ (Zdigits2 a - 1)) by (apply Z.pow_pos_nonneg; lia).
  assert (0 < 2 ^ (Zdigits2 b - 1)) by (apply Z.pow_pos_nonneg; lia).
  split.
  - apply Zdigits2_ge_of_le; [lia|].
    replace (Zdigits2 a + Zdigits2 b - 1 - 1)
      with ((Zdigits2 a - 1) + (Zdigits2 b - 1)) by lia.
    rewrite Z.pow_add_r by lia. nia.
  - apply Zdigits2_le_of_lt; [nia|lia|]. rewrite Z.pow_add_r by lia. nia.
Qed.

(** ** Shifting a mantissa to the right *)

Lemma shr_1_digits (mrs : shr_record) :
  0 <= shr_m mrs ->
  0 <= shr_m (shr_1 mrs)
  /\ Zdigits2 (shr_m (shr_1 mrs)) = Z.max 0 (Zdigits2 (shr_m mrs) - 1).
Proof.
  destruct mrs as [m r s]. simpl. intros Hm.
  destruct m as [|[p|p|]|p]; cbn [shr_1 shr_m Zdigits2 digits2_pos];
    rewrite ?Pos2Z.inj_succ; lia.
Qed.

Lemma iter_shr_1_digits (p : positive) : forall mrs : shr_record,
  0 <= shr_m mrs ->
  0 <= shr_m (SpecFloat.iter_pos shr_1 p mrs)
  /\ Zdigits2 (shr_m (SpecFloat.iter_pos shr_1 p mrs))
     = Z.max 0 (Zdigits2 (shr_m mrs) - Zpos p).
Proof.
  induction p as [p IH|p IH|]; intros mrs Hm; cbn [SpecFloat.iter_pos].
  - destruct (shr_1_digits mrs Hm) as [H1 D1].
    destruct (IH _ H1) as [H2 D2]. destruct (IH _ H2) as [H3 D3].
    split; [assumption|]. rewrite D3, D2, D1. lia.
  - destruct (IH _ Hm) as [H2 D2]. destruct (IH _ H2) as [H3 D3].
    split; [assumption|]. rewrite D3, D2. lia.
  - apply shr_1_digits, Hm.
Qed.

Lemma shr_digits (mrs : shr_record) (e n : Z) :
  0 <= shr_m mrs ->
  0 <= shr_m (fst (shr mrs e n))
  /\ Zdigits2 (shr_m (fst (shr mrs e n)))
     = Z.max 0 (Zdigits2 (shr_m mrs) - Z.max 0 n)
  /\ snd (shr mrs e n) = e + Z.max 0 n.
Proof.
  intros Hm. pose proof (Zdigits2_nonneg (shr_m mrs)).
  destruct n as [|p|p]; simpl.
  - repeat split; lia.
  - destruct (iter_shr_1_digits p mrs Hm) as [H1 D1]. repeat split; try lia.
  - repeat split; lia.
Qed.

Lemma shr_record_of_loc_m (m : Z) (l : location) : shr_m (shr_record_of_loc m l) = m.
Proof. destruct l as [|[]]; reflexivity. Qed.

Lemma round_nearest_even_digits (m : Z) (l : location) :
  0 <= m ->
  0 <= round_nearest_even m l
  /\ Zdigits2 m <= Zdigits2 (round_nearest_even m l) <= Zdigits2 m + 1.
Proof.
  intros Hm. pose proof (Zdigits2_succ m Hm).
  pose proof (Zdigits2_mono m (m + 1) ltac:(lia)).
  destruct l as [|[]]; simpl; try destruct (Z.even m); split; lia.
Qed.

(** The outcome of [binary_round_aux] on a mantissa that is not
    negative, by the number of digits of the mantissa after the first
    shift ([d1]) and of the final one. *)
Lemma binary_round_aux_digits (s : bool) (m e : Z) (l : location) :
  0 <= m ->
  exists d1 m2 e2,
    let n := Z.max 0 (fexp (Zdigits2 m + e) - e) in
    let e1 := e + n in
    let d0 := Z.max 0 (Zdigits2 m - n) in
    let n2 := Z.max 0 (fexp (d1 + e1) - e1) in
    d0 <= d1 <= d0 + 1
    /\ 0 <= m2
    /\ Zdigits2 m2 = Z.max 0 (d1 - n2)
    /\ e2 = e1 + n2
    /\ binary_round_aux prec emax s m e l
       = match m2 with
         | Z0 => S754_zero s
         | Zpos p => if e2 <=? emax - prec then S754_finite s p e2 else S754_infinity s
         | Zneg _ => S754_nan
         end.
Proof.
  intros Hm. unfold binary_round_aux, shr_fexp.
  pose proof (shr_digits (shr_record_of_loc m l) e (fexp (Zdigits2 m + e) - e)) as H1.
  rewrite shr_record_of_loc_m in H1. specialize (H1 Hm).
  destruct (shr (shr_record_of_loc m l) e (fexp (Zdigits2 m + e) - e)) as [mrs' e'].
  simpl in H1. destruct H1 as (Hm' & Hd' & He').
  destruct (round_nearest_even_digits (shr_m mrs') (loc_of_shr_record mrs') Hm')
    as [Hm1 Hd1].
  set (m1 := round_nearest_even (shr_m mrs') (loc_of_shr_record mrs')) in *.
  pose proof (shr_digits (shr_record_of_loc m1 loc_Exact) e' (fexp (Zdigits2 m1 + e') - e')) as H2.
  rewrite shr_record_of_loc_m in H2. specialize (H2 Hm1).
  destruct (shr (shr_record_of_loc m1 loc_Exact) e' (fexp (Zdigits2 m1 + e') - e')) as [mrs'' e''].
  simpl in H2. destruct H2 as (Hm'' & Hd'' & He'').
  exists (Zdigits2 m1), (shr_m mrs''), e''. cbv zeta.
  rewrite <- He'. rewrite <- Hd'. repeat split; try lia; try assumption.
Qed.

Lemma below_weaken (K K' : Z) (x : spec_float) : K <= K' -> below K x -> below K' x.
Proof. destruct x as [[]|[]| |[] m e]; simpl; try tauto. lia. Qed.

(** Rounding a mantissa that is aligned and below [2^K] does not
    overflow and stays below [2^(K+1)]. *)
Lemma round_aux_below (m e : Z) (l : location) (K : Z) :
  0 <= m -> e <= fexp (Zdigits2 m + e) -> Zdigits2 m + e <= K ->
  -1074 <= K <= 1023 ->
  below (K + 1) (binary_round_aux prec emax false m e l).
Proof.
  intros Hm Hal HK HK'.
  destruct (binary_round_aux_digits false m e l Hm) as (d1 & m2 & e2 & H).
  cbv zeta in H. destruct H as (Hd1 & Hm2 & Hd2 & He2 & ->).
  pose proof (Zdigits2_nonneg m).
  destruct m2 as [|p|p]; [exact I| |lia].
  cbn [Zdigits2] in Hd2. unfold_fexp.
  destruct (Z.leb_spec e2 (1024 - 53)); cbn [below]; lia.
Qed.

(** Rounding an aligned mantissa gives a valid value. *)
Lemma round_aux_valid (s : bool) (m e : Z) (l : location) :
  0 <= m -> e <= fexp (Zdigits2 m + e) ->
  valid_binary (binary_round_aux prec emax s m e l) = true.
Proof.
  intros Hm Hal.
  destruct (binary_round_aux_digits s m e l Hm) as (d1 & m2 & e2 & H).
  cbv zeta in H. destruct H as (Hd1 & Hm2 & Hd2 & He2 & ->).
  pose proof (Zdigits2_nonneg m).
  destruct m2 as [|p|p]; [reflexivity| |reflexivity].
  cbn [Zdigits2] in Hd2.
  destruct (Z.leb_spec e2 (emax - prec)) as [Hle|Hgt]; [|reflexivity].
  unfold valid_binary, bounded, canonical_mantissa.
  apply andb_true_iff. split; [apply Z.eqb_eq|apply Z.leb_le; assumption].
  unfold_fexp. lia.
Qed.

(** Rounding an aligned mantissa that is not zero, at an exponent that
    is not below the smallest one, gives a value that is not zero. *)
Lemma round_aux_signed (s : bool) (m e : Z) (l : location) :
  0 < m -> e <= fexp (Zdigits2 m + e) ->
  SpecFloat.emin prec emax <= Zdigits2 m + e - 1 ->
  signed s (binary_round_aux prec emax s m e l).
Proof.
  intros Hm Hal Hmin.
  destruct (binary_round_aux_digits s m e l ltac:(lia)) as (d1 & m2 & e2 & H).
  cbv zeta in H. destruct H as (Hd1 & Hm2 & Hd2 & He2 & ->).
  assert (1 <= Zdigits2 m) by (destruct m; simpl; lia).
  destruct m2 as [|p|p].
  - exfalso. cbn [Zdigits2] in Hd2. unfold_fexp. lia.
  - destruct (e2 <=? emax - prec); reflexivity.
  - lia.
Qed.

(** ** Shifting a mantissa to the left *)

Lemma iter_xO (m d : positive) : Zpos (Pos.iter xO m d) = Zpos m * 2 ^ Zpos d.
Proof.
  induction d as [|d IH] using Pos.peano_ind.
  - simpl. lia.
  - rewrite Pos.iter_succ, Pos2Z.inj_succ, Z.pow_succ_r by lia.
    rewrite Pos2Z.inj_xO, IH. lia.
Qed.

Lemma shl_align_spec (mx : positive) (ex ex' : Z) :
  snd (shl_align mx ex ex') = Z.min ex ex'
  /\ Zpos (fst (shl_align mx ex ex')) = Zpos mx * 2 ^ (ex - Z.min ex ex').
Proof.
  unfold shl_align. destruct (ex' - ex) as [|d|d] eqn:Hd; cbn [fst snd].
  - split; [lia|]. replace (ex - Z.min ex ex') with 0 by lia. rewrite Z.pow_0_r. lia.
  - split; [lia|]. replace (ex - Z.min ex ex') with 0 by lia. rewrite Z.pow_0_r. lia.
  - split; [lia|]. rewrite iter_xO. f_equal. f_equal. lia.
Qed.

Lemma shl_align_digits (mx : positive) (ex ex' : Z) :
  Zpos (digits2_pos (fst (shl_align mx ex ex'))) + snd (shl_align mx ex ex')
  = Zpos (digits2_pos mx) + ex.
Proof.
  destruct (shl_align_spec mx ex ex') as [He Hm].
  change (Zpos (digits2_pos (fst (shl_align mx ex ex'))))
    with (Zdigits2 (Zpos (fst (shl_align mx ex ex')))).
  rewrite Hm, He, Zdigits2_shift by lia. cbn [Zdigits2]. lia.
Qed.

(** ** [binary_round] *)

Lemma binary_round_aligned (s : bool) (m : positive) (e : Z) :
  exists mz ez,
    binary_round prec emax s m e = binary_round_aux prec emax s (Zpos mz) ez loc_Exact
    /\ Zdigits2 (Zpos mz) + ez = Zpos (digits2_pos m) + e
    /\ ez = Z.min e (fexp (Zpos (digits2_pos m) + e)).
Proof.
  unfold binary_round.
  pose proof (shl_align_digits m e (fexp (Zpos (digits2_pos m) + e))) as Hd.
  destruct (shl_align_spec m e (fexp (Zpos (digits2_pos m) + e))) as [He _].
  destruct (shl_align m e (fexp (Zpos (digits2_pos m) + e))) as [mz ez].
  simpl in *. exists mz, ez. repeat split; assumption.
Qed.

Lemma binary_round_valid (s : bool) (m : positive) (e : Z) :
  valid_binary (binary_round prec emax s m e) = true.
Proof.
  destruct (binary_round_aligned s m e) as (mz & ez & -> & Hd & He).
  apply round_aux_valid; [lia|]. rewrite Hd. lia.
Qed.

Lemma binary_round_below (m : positive) (e K : Z) :
  Zpos (digits2_pos m) + e <= K -> -1074 <= K <= 1023 ->
  below (K + 1) (binary_round prec emax false m e).
Proof.
  intros HK HK'.
  destruct (binary_round_aligned false m e) as (mz & ez & -> & Hd & He).
  apply round_aux_below; try lia. rewrite Hd. lia.
Qed.

Lemma binary_round_signed (s : bool) (m : positive) (e : Z) :
  SpecFloat.emin prec emax <= e ->
  signed s (binary_round prec emax s m e).
Proof.
  intros Hmin.
  destruct (binary_round_aligned s m e) as (mz & ez & -> & Hd & He).
  pose proof (Pos2Z.is_pos (digits2_pos m)).
  apply round_aux_signed; rewrite ?Hd; unfold_fexp; lia.
Qed.

Lemma valid_finite (s : bool) (m : positive) (e : Z) :
  valid_binary (S754_finite s m e) = true ->
  fexp (Zpos (digits2_pos m) + e) = e /\ e <= emax - prec.
Proof.
  unfold valid_binary, bounded, canonical_mantissa.
  intros [H1 H2]%andb_true_iff. split; [now apply Z.eqb_eq|now apply Z.leb_le].
Qed.

(** ** Multiplication *)

Lemma SFmul_below (x y : spec_float) (K J : Z) :
  valid_binary x = true -> valid_binary y = true ->
  below K x -> below J y -> -1074 <= K + J <= 1023 ->
  below (K + J + 1) (SFmul prec emax x y).
Proof.
  intros Vx Vy Bx By HKJ.
  destruct x as [[]|[]| |[] mx ex], y as [[]|[]| |[] my ey];
    try contradiction; try exact I.
  apply valid_finite in Vx as [Cx _], Vy as [Cy _].
  cbn [below] in Bx, By. cbn [SFmul xorb].
  pose proof (Zdigits2_mul (Zpos mx) (Zpos my) ltac:(lia) ltac:(lia)) as Hd.
  cbn [Zdigits2] in Hd.
  pose proof (Pos2Z.is_pos (digits2_pos mx)). pose proof (Pos2Z.is_pos (digits2_pos my)).
  apply round_aux_below; rewrite ?Pos2Z.inj_mul; try lia.
  unfold_fexp. lia.
Qed.

(** ** Division *)

Lemma div_digits (a b : Z) :
  0 < a -> 0 < b ->
  Zdigits2 a - Zdigits2 b <= Zdigits2 (a / b) <= Z.max 0 (Zdigits2 a - Zdigits2 b + 1).
Proof.
  intros Ha Hb.
  destruct (Zdigits2_bounds a Ha) as [Hla Hha], (Zdigits2_bounds b Hb) as [Hlb Hhb].
  assert (Hda : 1 <= Zdigits2 a) by (destruct a; simpl; lia).
  assert (Hdb : 1 <= Zdigits2 b) by (destruct b; simpl; lia).
  assert (Hq : 0 <= a / b) by (apply Z.div_pos; lia).
  split.
  - destruct (Z.le_gt_cases (Zdigits2 a - Zdigits2 b) 0) as [Hle|Hgt].
    + pose proof (Zdigits2_nonneg (a / b)). lia.
    + apply Zdigits2_ge_of_le; [lia|].
      apply Z.div_le_lower_bound; [lia|].
      assert (b * 2 ^ (Zdigits2 a - Zdigits2 b - 1) <= 2 ^ (Zdigits2 a - 1)).
      { replace (Zdigits2 a - 1) with (Zdigits2 b + (Zdigits2 a - Zdigits2 b - 1)) by lia.
        rewrite Z.pow_add_r by lia.
        assert (0 < 2 ^ (Zdigits2 a - Zdigits2 b - 1)) by (apply Z.pow_pos_nonneg; lia).
        nia. }
      lia.
  - destruct (Z.le_gt_cases 0 (Zdigits2 a - Zdigits2 b + 1)) as [Hle|Hgt].
    + apply Zdigits2_le_of_lt; [lia|lia|].
      rewrite Z.max_r by lia.
      apply Z.div_lt_upper_bound; [lia|].
      assert (2 ^ Zdigits2 a <= b * 2 ^ (Zdigits2 a - Zdigits2 b + 1)).
      { replace (Zdigits2 a) with ((Zdigits2 b - 1) + (Zdigits2 a - Zdigits2 b + 1)) at 1 by lia.
        rewrite Z.pow_add_r by lia.
        assert (0 < 2 ^ (Zdigits2 a - Zdigits2 b + 1)) by (apply Z.pow_pos_nonneg; lia).
        nia. }
      lia.
    + assert (a < b).
      { assert (2 ^ Zdigits2 a <= 2 ^ (Zdigits2 b - 1)) by (apply Z.pow_le_mono_r; lia).
        lia. }
      rewrite Z.div_small by lia. simpl. lia.
Qed.

Lemma SFdiv_below (x : spec_float) (my : positive) (ey K c : Z) :
  valid_binary x = true -> below K x ->
  c <= Zpos (digits2_pos my) + ey ->
  -1074 <= K - c + 1 <= 1023 ->
  below (K - c + 2) (SFdiv prec emax x (S754_finite false my ey)).
Proof.
  intros Vx Bx Hc HK.
  destruct x as [[]|[]| |[] mx ex]; try contradiction; try exact I.
  apply valid_finite in Vx as [Cx _]. cbn [below] in Bx.
  cbn [SFdiv xorb]. unfold SFdiv_core_binary.
  cbn [Zdigits2].
  set (dx := Zpos (digits2_pos mx)) in *. set (dy := Zpos (digits2_pos my)) in *.
  set (e' := Z.min (fexp (dx + ex - (dy + ey))) (ex - ey)).
  set (sh := ex - ey - e').
  assert (Hsh : 0 <= sh) by (unfold sh, e'; lia).
  set (m' := match sh with Zpos _ => Z.shiftl (Zpos mx) sh | Z0 => Zpos mx | Zneg _ => 0 end).
  assert (Hm' : m' = Zpos mx * 2 ^ sh).
  { unfold m'. destruct sh as [|p|p] eqn:Hs; [rewrite Z.pow_0_r; lia| |lia].
    apply Z.shiftl_mul_pow2. lia. }
  assert (Hpos : 0 < m').
  { rewrite Hm'. assert (0 < 2 ^ sh) by (apply Z.pow_pos_nonneg; lia). nia. }
  assert (Hdm : Zdigits2 m' = dx + sh).
  { rewrite Hm'. rewrite Zdigits2_shift by lia. reflexivity. }
  pose proof (Z.div_eucl_eq m' (Zpos my) ltac:(lia)) as Heq.
  assert (Hq : fst (Z.div_eucl m' (Zpos my)) = m' / Zpos my) by reflexivity.
  destruct (Z.div_eucl m' (Zpos my)) as [q r]. cbn [fst] in Hq. subst q.
  pose proof (div_digits m' (Zpos my) Hpos ltac:(lia)) as Hd.
  rewrite Hdm in Hd. cbn [Zdigits2] in Hd. fold dy in Hd.
  assert (0 <= m' / Zpos my) by (apply Z.div_pos; lia).
  replace (K - c + 2) with (K - c + 1 + 1) by lia.
  apply round_aux_below; try lia.
  - unfold e', sh in *. unfold_fexp. lia.
  - unfold e', sh in *. unfold_fexp. lia.
Qed.

(** ** Addition of two values that are not negative *)

Lemma SFadd_below (x y : spec_float) (K : Z) :
  valid_binary x = true -> valid_binary y = true ->
  below K x -> below K y -> -1074 <= K + 1 <= 1023 ->
  below (K + 2) (SFadd prec emax x y).
Proof.
  intros Vx Vy Bx By HK.
  destruct x as [[]|[]| |[] mx ex], y as [[]|[]| |[] my ey];
    try contradiction; try exact I;
    try (apply below_weaken with K; [lia|assumption]).
  cbn [below] in Bx, By. cbn [SFadd cond_Zopp].
  set (ez := Z.min ex ey).
  destruct (shl_align_spec mx ex ez) as [_ Hx], (shl_align_spec my ey ez) as [_ Hy].
  replace (Z.min ex ez) with ez in Hx by (unfold ez; lia).
  replace (Z.min ey ez) with ez in Hy by (unfold ez; lia).
  set (mx' := fst (shl_align mx ex ez)) in *. set (my' := fst (shl_align my ey ez)) in *.
  change (Zpos mx' + Zpos my') with (Zpos (mx' + my')). cbn [binary_normalize].
  replace (K + 2) with (K + 1 + 1) by lia.
  apply binary_round_below; [|lia].
  change (Zpos (digits2_pos (mx' + my'))) with (Zdigits2 (Zpos (mx' + my'))).
  rewrite Pos2Z.inj_add, Hx, Hy.
  destruct (digits2_pos_bounds mx) as [_ Hbx], (digits2_pos_bounds my) as [_ Hby].
  pose proof (Pos2Z.is_pos (digits2_pos mx)). pose proof (Pos2Z.is_pos (digits2_pos my)).
  assert (Hex : 0 <= ex - ez) by (unfold ez; lia).
  assert (Hey : 0 <= ey - ez) by (unfold ez; lia).
  assert (Zpos mx * 2 ^ (ex - ez) < 2 ^ (K - ez)).
  { apply Z.lt_le_trans with (2 ^ (Zpos (digits2_pos mx) + (ex - ez))).
    - rewrite Z.pow_add_r by lia.
      assert (0 < 2 ^ (ex - ez)) by (apply Z.pow_pos_nonneg; lia). nia.
    - apply Z.pow_le_mono_r; lia. }
  assert (Zpos my * 2 ^ (ey - ez) < 2 ^ (K - ez)).
  { apply Z.lt_le_trans with (2 ^ (Zpos (digits2_pos my) + (ey - ez))).
    - rewrite Z.pow_add_r by lia.
      assert (0 < 2 ^ (ey - ez)) by (apply Z.pow_pos_nonneg; lia). nia.
    - apply Z.pow_le_mono_r; lia. }
  assert (0 < Zpos mx * 2 ^ (ex - ez))
    by (assert (0 < 2 ^ (ex - ez)) by (apply Z.pow_pos_nonneg; lia); nia).
  assert (Zdigits2 (Zpos mx * 2 ^ (ex - ez) + Zpos my * 2 ^ (ey - ez)) <= K - ez + 1).
  { apply Zdigits2_le_of_lt; [nia|lia|].
    rewrite Z.pow_add_r by lia. lia. }
  lia.
Qed.

(** ** Comparison *)

Lemma SFcompare_antisym (x y : spec_float) :
  SFcompare y x = option_map CompOpp (SFcompare x y).
Proof.
  destruct x as [[]|[]| |[] mx ex], y as [[]|[]| |[] my ey]; try reflexivity;
    cbn [SFcompare option_map]; rewrite (Z.compare_antisym ex ey);
    change (Pos.compare_cont Eq my mx) with (Pos.compare my mx);
    change (Pos.compare_cont Eq mx my) with (Pos.compare mx my);
    rewrite (Pos.compare_antisym mx my);
    destruct (ex ?= ey); cbn [CompOpp]; try reflexivity;
    destruct (Pos.compare mx my); reflexivity.
Qed.

Lemma SFltb_asym (x y : spec_float) : SFltb x y = true -> SFltb y x = false.
Proof.
  unfold SFltb. rewrite (SFcompare_antisym x y).
  destruct (SFcompare x y) as [[]|]; simpl; congruence.
Qed.

(** Two canonical mantissas brought to the smaller exponent compare as
    the values do. *)
Lemma aligned_compare (mx my : positive) (ex ey : Z) :
  fexp (Zpos (digits2_pos mx) + ex) = ex ->
  fexp (Zpos (digits2_pos my) + ey) = ey ->
  (Zpos mx * 2 ^ (ex - Z.min ex ey) ?= Zpos my * 2 ^ (ey - Z.min ex ey))
  = match ex ?= ey with
    | Lt => Lt
    | Gt => Gt
    | Eq => Pos.compare_cont Eq mx my
    end.
Proof.
  intros Cx Cy.
  destruct (digits2_pos_bounds mx) as [Hlx Hhx], (digits2_pos_bounds my) as [Hly Hhy].
  pose proof (Pos2Z.is_pos (digits2_pos mx)). pose proof (Pos2Z.is_pos (digits2_pos my)).
  assert (Hstep : forall (m m' : positive) (e e' : Z),
            fexp (Zpos (digits2_pos m) + e) = e ->
            fexp (Zpos (digits2_pos m') + e') = e' -> e < e' ->
            Zpos m < Zpos m' * 2 ^ (e' - e)).
  { intros m m' e e' Cm Cm' Hlt.
    destruct (digits2_pos_bounds m) as [_ Hh], (digits2_pos_bounds m') as [Hl _].
    pose proof (Pos2Z.is_pos (digits2_pos m)). pose proof (Pos2Z.is_pos (digits2_pos m')).
    assert (Hd' : Zpos (digits2_pos m') = 53) by (unfold_fexp; lia).
    assert (Hd : Zpos (digits2_pos m) <= 53) by (unfold_fexp; lia).
    rewrite Hd' in Hl.
    assert (2 ^ Zpos (digits2_pos m) <= 2 ^ 53) by (apply Z.pow_le_mono_r; lia).
    assert (2 ^ 1 <= 2 ^ (e' - e)) by (apply Z.pow_le_mono_r; lia).
    change (2 ^ 1) with 2 in *. change (2 ^ (53 - 1)) with 4503599627370496 in *.
    change (2 ^ 53) with 9007199254740992 in *. nia. }
  destruct (Z.compare_spec ex ey) as [Heq|Hlt|Hgt].
  - subst ey. rewrite Z.min_id, Z.sub_diag, Z.pow_0_r, !Z.mul_1_r. reflexivity.
  - rewrite Z.min_l by lia. rewrite Z.sub_diag, Z.pow_0_r, Z.mul_1_r.
    apply Z.compare_lt_iff. now apply Hstep.
  - rewrite Z.min_r by lia. rewrite Z.sub_diag, Z.pow_0_r, Z.mul_1_r.
    apply Z.compare_gt_iff. now apply Hstep.
Qed.

(** The sign of a normalised integer. *)
Lemma normalize_negative (d e : Z) :
  SpecFloat.emin prec emax <= e ->
  SFltb (binary_normalize prec emax d e false) (S754_zero false) = (d <? 0).
Proof.
  intros He. destruct d as [|p|p]; cbn [binary_normalize]; [reflexivity| |].
  - pose proof (binary_round_signed false p e He) as Hs.
    destruct (binary_round prec emax false p e) as [?|[]| |[] ? ?];
      try contradiction; try discriminate; reflexivity.
  - pose proof (binary_round_signed true p e He) as Hs.
    destruct (binary_round prec emax true p e) as [?|[]| |[] ? ?];
      try contradiction; try discriminate; reflexivity.
Qed.

(** [x - y < 0] exactly when [x < y]. *)
Lemma SFsub_negative (x y : spec_float) :
  valid_binary x = true -> valid_binary y = true ->
  SFltb (SFsub prec emax x y) (S754_zero false) = SFltb x y.
Proof.
  intros Vx Vy.
  destruct x as [[]|[]| |sx mx ex], y as [[]|[]| |sy my ey]; try reflexivity;
    try (destruct sx; reflexivity); try (destruct sy; reflexivity).
  apply valid_finite in Vx as [Cx _], Vy as [Cy _].
  cbn [SFsub].
  destruct (shl_align_spec mx ex (Z.min ex ey)) as [_ Hx],
           (shl_align_spec my ey (Z.min ex ey)) as [_ Hy].
  replace (Z.min ex (Z.min ex ey)) with (Z.min ex ey) in Hx by lia.
  replace (Z.min ey (Z.min ex ey)) with (Z.min ex ey) in Hy by lia.
  rewrite normalize_negative by (unfold_fexp; lia).
  rewrite Hx, Hy.
  pose proof (aligned_compare mx my ex ey Cx Cy) as Hcmp.
  set (X := Zpos mx * 2 ^ (ex - Z.min ex ey)) in *.
  set (Y := Zpos my * 2 ^ (ey - Z.min ex ey)) in *.
  assert (HX : 0 < X).
  { unfold X. assert (0 < 2 ^ (ex - Z.min ex ey)) by (apply Z.pow_pos_nonneg; lia). nia. }
  assert (HY : 0 < Y).
  { unfold Y. assert (0 < 2 ^ (ey - Z.min ex ey)) by (apply Z.pow_pos_nonneg; lia). nia. }
  unfold SFltb. cbn [SFcompare].
  destruct sx, sy; cbn [cond_Zopp].
  - destruct (ex ?= ey); [destruct (Pos.compare_cont Eq mx my)| |]; cbn [CompOpp];
      rewrite ?Z.compare_eq_iff, ?Z.compare_lt_iff, ?Z.compare_gt_iff in Hcmp;
      destruct (Z.ltb_spec (- X - - Y) 0); try reflexivity; lia.
  - destruct (Z.ltb_spec (- X - Y) 0); [reflexivity|lia].
  - destruct (Z.ltb_spec (X - - Y) 0); [lia|reflexivity].
  - destruct (ex ?= ey); [destruct (Pos.compare_cont Eq mx my)| |];
      rewrite ?Z.compare_eq_iff, ?Z.compare_lt_iff, ?Z.compare_gt_iff in Hcmp;
      destruct (Z.ltb_spec (X - Y) 0); try reflexivity; lia.
Qed.

(** ** Sums without rounding *)

Lemma shr_1_even (m : Z) :
  0 <= m ->
  shr_1 {| shr_m := 2 * m; shr_r := false; shr_s := false |}
  = {| shr_m := m; shr_r := false; shr_s := false |}.
Proof. destruct m as [|p|p]; try lia; reflexivity. Qed.

Lemma iter_shr_1_exact (p : positive) : forall m : Z,
  0 <= m ->
  SpecFloat.iter_pos shr_1 p {| shr_m := m * 2 ^ Zpos p; shr_r := false; shr_s := false |}
  = {| shr_m := m; shr_r := false; shr_s := false |}.
Proof.
  induction p as [p IH|p IH|]; intros m Hm; cbn [SpecFloat.iter_pos].
  - assert (Hp : 0 < 2 ^ Zpos p) by (apply Z.pow_pos_nonneg; lia).
    replace (m * 2 ^ Zpos p~1) with (2 * ((m * 2 ^ Zpos p) * 2 ^ Zpos p)).
    + rewrite shr_1_even by nia. rewrite IH by nia. now apply IH.
    + replace (Zpos p~1) with (Zpos p + Zpos p + 1) by lia.
      rewrite !Z.pow_add_r, Z.pow_1_r by lia. ring.
  - assert (Hp : 0 < 2 ^ Zpos p) by (apply Z.pow_pos_nonneg; lia).
    replace (m * 2 ^ Zpos p~0) with ((m * 2 ^ Zpos p) * 2 ^ Zpos p).
    + rewrite IH by nia. now apply IH.
    + replace (Zpos p~0) with (Zpos p + Zpos p) by lia.
      rewrite Z.pow_add_r by lia. ring.
  - rewrite Z.pow_1_r, Z.mul_comm. now apply shr_1_even.
Qed.

(** [m * 2^n] at the exponent [e] is [m] at the exponent [e + n]. *)
Lemma shr_exact (m e n : Z) :
  0 <= m -> 0 <= n ->
  shr {| shr_m := m * 2 ^ n; shr_r := false; shr_s := false |} e n
  = ({| shr_m := m; shr_r := false; shr_s := false |}, e + n).
Proof.
  intros Hm Hn. destruct n as [|p|p]; [|simpl|lia].
  - simpl. rewrite Z.mul_1_r, Z.add_0_r. reflexivity.
  - f_equal. now apply iter_shr_1_exact.
Qed.

(** Rounding a mantissa with enough zeros at its end changes nothing:
    [m * 2^n] at the exponent [e], where [e + n] is the exponent that
    the format gives to the value, is [m] at [e + n]. *)
Lemma round_aux_exact (m : positive) (e n : Z) :
  0 <= n ->
  SpecFloat.fexp prec emax (Zdigits2 (Zpos m * 2 ^ n) + e) = e + n ->
  e + n <= emax - prec ->
  binary_round_aux prec emax false (Zpos m * 2 ^ n) e loc_Exact
  = S754_finite false m (e + n).
Proof.
  intros Hn Hfexp Hmax. unfold binary_round_aux, shr_fexp.
  rewrite Hfexp. replace (e + n - e) with n by lia.
  cbn [shr_record_of_loc]. rewrite shr_exact by lia.
  cbn [shr_m loc_of_shr_record round_nearest_even shr_record_of_loc].
  assert (Hd : Zdigits2 (Zpos m) + (e + n) = Zdigits2 (Zpos m * 2 ^ n) + e).
  { rewrite Zdigits2_shift by lia. lia. }
  rewrite Hd, Hfexp, Z.sub_diag. cbn [shr shr_m].
  destruct (Z.leb_spec (e + n) (emax - prec)); [reflexivity|lia].
Qed.

(** The value [k * 2^q], written with the mantissa [k * 2^(q - t)] at
    an exponent [t] that is not above [q], is normalised without
    rounding when the format can hold it: the result has the exponent
    [E] that the format gives to the value, and the mantissa
    [k * 2^(q - E)]. *)
Lemma normalize_exact (k : positive) (q t : Z) :
  let E := fexp (Zpos (digits2_pos k) + q) in
  t <= q -> E <= q -> E <= emax - prec ->
  binary_normalize prec emax (Zpos k * 2 ^ (q - t)) t false
  = S754_finite false (Z.to_pos (Zpos k * 2 ^ (q - E))) E.
Proof.
  intros E Ht HE Hmax.
  assert (Hpt : 0 < 2 ^ (q - t)) by (apply Z.pow_pos_nonneg; lia).
  assert (HpE : 0 < 2 ^ (q - E)) by (apply Z.pow_pos_nonneg; lia).
  destruct (Zpos k * 2 ^ (q - t)) as [|M|M] eqn:HM; try nia.
  cbn [binary_normalize]. unfold binary_round.
  assert (HD : Zpos (digits2_pos M) + t = Zpos (digits2_pos k) + q).
  { change (Zpos (digits2_pos M)) with (Zdigits2 (Zpos M)).
    rewrite <- HM, Zdigits2_shift by lia. cbn [Zdigits2]. lia. }
  rewrite HD. fold E.
  destruct (shl_align_spec M t E) as [He Hm].
  destruct (shl_align M t E) as [mz ez]. cbn [fst snd] in He, Hm. subst ez.
  set (m := Z.to_pos (Zpos k * 2 ^ (q - E))).
  assert (Hmpos : Zpos m = Zpos k * 2 ^ (q - E)) by (unfold m; rewrite Z2Pos.id; nia).
  assert (Hmz : Zpos mz = Zpos m * 2 ^ (E - Z.min t E)).
  { rewrite Hm, <- HM, Hmpos, <- !Z.mul_assoc, <- !Z.pow_add_r by lia.
    do 2 f_equal. lia. }
  rewrite Hmz, (round_aux_exact m (Z.min t E) (E - Z.min t E)).
  - f_equal. lia.
  - lia.
  - rewrite <- Hmz. cbn [Zdigits2].
    replace (Zpos (digits2_pos mz) + Z.min t E) with (Zpos (digits2_pos k) + q).
    + fold E. lia.
    + change (Zpos (digits2_pos mz)) with (Zdigits2 (Zpos mz)).
      rewrite Hm, Zdigits2_shift by lia. cbn [Zdigits2]. lia.
  - lia.
Qed.

(** The exponent that the format gives to [k * 2^q] is not above [q]
    when [k] has at most 53 digits. *)
Lemma fexp_le (k : positive) (q : Z) :
  Zpos k < 2 ^ 53 -> -1074 <= q ->
  fexp (Zpos (digits2_pos k) + q) <= q.
Proof.
  intros Hk Hq.
  pose proof (Zdigits2_le_of_lt (Zpos k) 53 ltac:(lia) ltac:(lia) Hk) as Hd.
  cbn [Zdigits2] in Hd. unfold SpecFloat.fexp, SpecFloat.emin, prec, emax. lia.
Qed.

Lemma SFadd_scaled (a b : positive) (q : Z) :
  Zpos a + Zpos b < 2 ^ 53 -> -1074 <= q <= 971 ->
  SFadd prec emax (binary_normalize prec emax (Zpos a) q false)
    (binary_normalize prec emax (Zpos b) q false)
  = binary_normalize prec emax (Zpos a + Zpos b) q false.
Proof.
  intros Hsum Hq.
  pose proof (fexp_le a q ltac:(lia) ltac:(lia)) as Ha.
  pose proof (fexp_le b q ltac:(lia) ltac:(lia)) as Hb.
  pose proof (fexp_le (a + b) q ltac:(lia) ltac:(lia)) as Hs.
  assert (Hnorm : forall k : positive, Zpos k < 2 ^ 53 ->
            binary_normalize prec emax (Zpos k) q false
            = S754_finite false
                (Z.to_pos (Zpos k * 2 ^ (q - fexp (Zpos (digits2_pos k) + q))))
                (fexp (Zpos (digits2_pos k) + q))).
  { intros k Hk. pose proof (fexp_le k q Hk ltac:(lia)) as Hle.
    pose proof (normalize_exact k q q) as Hn. cbv zeta in Hn.
    rewrite Z.sub_diag, Z.pow_0_r, Z.mul_1_r in Hn.
    apply Hn; [lia|exact Hle|].
    apply Z.le_trans with q; [exact Hle|unfold emax, prec; lia]. }
  rewrite <- Pos2Z.inj_add.
  rewrite (Hnorm a), (Hnorm b), (Hnorm (a + b)%positive) by lia.
  set (Ea := fexp (Zpos (digits2_pos a) + q)) in *.
  set (Eb := fexp (Zpos (digits2_pos b) + q)) in *.
  set (Es := fexp (Zpos (digits2_pos (a + b)) + q)) in *.
  cbn [SFadd cond_Zopp].
  destruct (shl_align_spec (Z.to_pos (Zpos a * 2 ^ (q - Ea))) Ea (Z.min Ea Eb)) as [_ Hma].
  destruct (shl_align_spec (Z.to_pos (Zpos b * 2 ^ (q - Eb))) Eb (Z.min Ea Eb)) as [_ Hmb].
  assert (Hpa : 0 < 2 ^ (q - Ea)) by (apply Z.pow_pos_nonneg; lia).
  assert (Hpb : 0 < 2 ^ (q - Eb)) by (apply Z.pow_pos_nonneg; lia).
  rewrite Z2Pos.id in Hma by nia. rewrite Z2Pos.id in Hmb by nia.
  rewrite Hma, Hmb.
  replace (Zpos a * 2 ^ (q - Ea) * 2 ^ (Ea - Z.min Ea (Z.min Ea Eb))
           + Zpos b * 2 ^ (q - Eb) * 2 ^ (Eb - Z.min Eb (Z.min Ea Eb)))
    with (Zpos (a + b) * 2 ^ (q - Z.min Ea Eb)).
  - apply normalize_exact; fold Es; [lia|exact Hs|].
    apply Z.le_trans with q; [exact Hs|unfold emax, prec; lia].
  - rewrite <- !Z.mul_assoc, <- !Z.pow_add_r by lia.
    replace (q - Ea + (Ea - Z.min Ea (Z.min Ea Eb))) with (q - Z.min Ea Eb) by lia.
    replace (q - Eb + (Eb - Z.min Eb (Z.min Ea Eb))) with (q - Z.min Ea Eb) by lia.
    rewrite Pos2Z.inj_add. ring.
Qed.

End Binary64Facts.

(* ================================================================== *)
(** * Properties of costs in binary64 arithmetic *)
(* ================================================================== *)

Section FloatFacts.
Local Open Scope Z_scope.

Lemma belowb_below (K : Z) (x : spec_float) : belowb K x = true -> below K x.
Proof.
  destruct x as [[]|[]| |[] m e]; simpl; try discriminate; try tauto.
  apply Z.leb_le.
Qed.

Lemma Prim2SF_zero : Prim2SF 0%float = S754_zero false.
Proof. vm_compute. reflexivity. Qed.

Lemma float_num_zero : num_zero (num:=float) = 0%float.
Proof. vm_compute. reflexivity. Qed.

(** The doubles satisfy the laws of the order. *)
Lemma float_ordered : OrderedNumber float.
Proof.
  split.
  - intros a b.
    change (PrimFloat.ltb (PrimFloat.sub a b) num_zero = PrimFloat.ltb a b).
    rewrite float_num_zero, !FloatAxioms.ltb_spec, FloatAxioms.sub_spec, Prim2SF_zero.
    apply SFsub_negative; apply Prim2SF_valid.
  - intros a b.
    change (PrimFloat.ltb a b = true -> PrimFloat.ltb b a = false).
    rewrite !FloatAxioms.ltb_spec. apply SFltb_asym.
Qed.

Lemma fbelow_weaken (K K' : Z) (f : float) : K <= K' -> fbelow K f -> fbelow K' f.
Proof. apply below_weaken. Qed.

Lemma fbelow_zero (K : Z) : fbelow K 0%float.
Proof. unfold fbelow. rewrite Prim2SF_zero. exact I. Qed.

Lemma fbelow_mul (a b : float) (K J : Z) :
  fbelow K a -> fbelow J b -> -1074 <= K + J <= 1023 ->
  fbelow (K + J + 1) (a * b)%float.
Proof.
  unfold fbelow. intros Ha Hb HKJ. rewrite FloatAxioms.mul_spec.
  apply SFmul_below; try assumption; apply Prim2SF_valid.
Qed.

Lemma fbelow_div (a b : float) (my : positive) (ey K c : Z) :
  fbelow K a -> Prim2SF b = S754_finite false my ey ->
  c <= Zpos (digits2_pos my) + ey -> -1074 <= K - c + 1 <= 1023 ->
  fbelow (K - c + 2) (a / b)%float.
Proof.
  unfold fbelow. intros Ha Hb Hc HK. rewrite FloatAxioms.div_spec, Hb.
  apply SFdiv_below; try assumption. apply Prim2SF_valid.
Qed.

Lemma fbelow_add (a b : float) (K : Z) :
  fbelow K a -> fbelow K b -> -1074 <= K + 1 <= 1023 ->
  fbelow (K + 2) (a + b)%float.
Proof.
  unfold fbelow. intros Ha Hb HK. rewrite FloatAxioms.add_spec.
  apply SFadd_below; try assumption; apply Prim2SF_valid.
Qed.

(** A double that is zero or positive and below a power of two is a
    finite number that is not negative. *)
Lemma fbelow_finite (K : Z) (f : float) :
  fbelow K f -> PrimFloat.is_finite f = true /\ (0 <=? f)%float = true.
Proof.
  unfold fbelow, PrimFloat.is_finite, PrimFloat.is_nan, PrimFloat.is_infinity.
  rewrite FloatAxioms.leb_spec, !FloatAxioms.eqb_spec, FloatAxioms.abs_spec, Prim2SF_zero.
  change (Prim2SF infinity) with (S754_infinity false).
  destruct (Prim2SF f) as [[]|[]| |[] m e]; try contradiction; intros _.
  - split; reflexivity.
  - unfold SFeqb, SFleb. cbn [SFcompare SFabs].
    rewrite Z.compare_refl.
    change (Pos.compare_cont Eq m m) with (Pos.compare m m).
    rewrite Pos.compare_refl. split; reflexivity.
Qed.

(** The double of an integer is the rounded integer. *)
Lemma float_of_Z_spec (z : Z) :
  Prim2SF (float_of_Z z) = binary_normalize prec emax z 0 false.
Proof.
  unfold float_of_Z. apply Prim2SF_SF2Prim.
  destruct z as [|p|p]; [reflexivity| |]; apply binary_round_valid.
Qed.

(** The double of a natural number, when it is finite, is below
    [2^1024]. *)
Lemma num_of_N_below (n : N) :
  PrimFloat.is_finite (num_of_N (num:=float) n) = true ->
  fbelow 1024 (num_of_N (num:=float) n).
Proof.
  change (num_of_N (num:=float) n) with (float_of_Z (Z.of_N n)).
  unfold fbelow, PrimFloat.is_finite, PrimFloat.is_nan, PrimFloat.is_infinity.
  rewrite !FloatAxioms.eqb_spec, FloatAxioms.abs_spec.
  change (Prim2SF infinity) with (S754_infinity false).
  pose proof (Prim2SF_valid (float_of_Z (Z.of_N n))) as Hv.
  rewrite float_of_Z_spec in *.
  destruct (Z.of_N n) as [|p|p] eqn:Hn; [intros _; exact I| |lia].
  cbn [binary_normalize] in *.
  pose proof (binary_round_signed false p 0 ltac:(unfold SpecFloat.emin, prec, emax; lia))
    as Hs.
  destruct (binary_round prec emax false p 0) as [?|[]| |[] m e];
    try contradiction; try discriminate.
  intros _. apply valid_finite in Hv as [Hc He]. cbn [below].
  unfold SpecFloat.fexp, SpecFloat.emin, prec, emax in *. lia.
Qed.

(** One million as a double. *)
Lemma million_spec :
  exists my ey,
    Prim2SF (num_of_N (num:=float) 1000000) = S754_finite false my ey
    /\ 20 <= Zpos (digits2_pos my) + ey.
Proof.
  eexists _, _. split; [vm_compute; reflexivity|].
  vm_compute. discriminate.
Qed.

(** [tokens / M * rate] for a finite token count and a rate below 128. *)
Lemma perMillion_below (tokens : N) (rate : float) :
  PrimFloat.is_finite (num_of_N (num:=float) tokens) = true ->
  fbelow 7 rate ->
  fbelow 1014 (Pricing.perMillion tokens rate).
Proof.
  intros Hfin Hrate. unfold Pricing.perMillion.
  destruct million_spec as (my & ey & HM & Hd).
  change (fbelow (1006 + 7 + 1)
            (num_of_N (num:=float) tokens / num_of_N (num:=float) 1000000 * rate)%float).
  apply fbelow_mul; [|assumption|lia].
  change 1006 with (1024 - 20 + 2).
  apply fbelow_div with my ey; try assumption; try lia.
  now apply num_of_N_below.
Qed.

Lemma PRICING_rates_below (model : string) (entry : Pricing.PricingEntry) :
  Pricing.lookupModel model = Some entry ->
  fbelow 7 (num_of_Q (Pricing.input entry))
  /\ fbelow 7 (num_of_Q (Pricing.output entry))
  /\ fbelow 7 (Pricing.rateOrZero (Pricing.cache_write entry))
  /\ fbelow 7 (Pricing.rateOrZero (Pricing.cache_read entry)).
Proof.
  intros Hlook.
  assert (Hin : In entry Pricing.PRICING).
  { unfold Pricing.lookupModel in Hlook. destruct model; [discriminate|].
    now apply List.find_some in Hlook. }
  assert (Hall : List.forallb Pricing.ratesBelow Pricing.PRICING = true)
    by (vm_compute; reflexivity).
  rewrite List.forallb_forall in Hall. specialize (Hall entry Hin).
  unfold Pricing.ratesBelow in Hall.
  repeat (apply andb_true_iff in Hall as [Hall ?]).
  repeat split; apply belowb_below; assumption.
Qed.

(** The cost is below [2^1022]. *)
Lemma computeCostUSD_below (model : string) (i o cc cr : N) :
  PrimFloat.is_finite (num_of_N (num:=float) i) = true ->
  PrimFloat.is_finite (num_of_N (num:=float) o) = true ->
  PrimFloat.is_finite (num_of_N (num:=float) cc) = true ->
  PrimFloat.is_finite (num_of_N (num:=float) cr) = true ->
  fbelow 1022 (Pricing.computeCostUSD (num:=float) model i o cc cr).
Proof.
  intros Hi Ho Hcc Hcr. unfold Pricing.computeCostUSD.
  destruct (Pricing.lookupModel model) as [entry|] eqn:Hlook.
  - destruct (PRICING_rates_below model entry Hlook) as (Ri & Ro & Rcw & Rcr).
    cbv zeta.
    change 1022 with (1020 + 2). apply fbelow_add; [|apply fbelow_weaken with 1014;
      [lia|now apply perMillion_below]|lia].
    change 1020 with (1018 + 2). apply fbelow_add; [|apply fbelow_weaken with 1014;
      [lia|now apply perMillion_below]|lia].
    change 1018 with (1016 + 2). apply fbelow_add; [|apply fbelow_weaken with 1014;
      [lia|now apply perMillion_below]|lia].
    change 1016 with (1014 + 2). apply fbelow_add; [|now apply perMillion_below|lia].
    rewrite float_num_zero. apply fbelow_zero.
  - rewrite float_num_zero. apply fbelow_zero.
Qed.

(** A rate that is [null] contributes the term 0. *)
Lemma perMillion_null_rate (tokens : N) :
  PrimFloat.is_finite (num_of_N (num:=float) tokens) = true ->
  Pricing.perMillion (num:=float) tokens (Pricing.rateOrZero None) = 0%float.
Proof.
  intros Hfin. apply Prim2SF_inj. unfold Pricing.perMillion.
  destruct million_spec as (my & ey & HM & Hd).
  assert (Hq : fbelow (1024 - 20 + 2)
                 (num_of_N (num:=float) tokens / num_of_N (num:=float) 1000000)%float).
  { apply fbelow_div with my ey; try assumption; try lia. now apply num_of_N_below. }
  change (Prim2SF
            ((num_of_N (num:=float) tokens / num_of_N (num:=float) 1000000)
             * num_zero (num:=float))%float = Prim2SF 0%float).
  rewrite FloatAxioms.mul_spec, float_num_zero, Prim2SF_zero. unfold fbelow in Hq.
  clear HM.
  destruct (Prim2SF (num_of_N (num:=float) tokens / num_of_N (num:=float) 1000000)%float)
    as [[]|[]| |[] m e]; try contradiction; reflexivity.
Qed.

Lemma float_scaled_spec (k : N) (q : Z) :
  Prim2SF (float_scaled k q) = binary_normalize prec emax (Z.of_N k) q false.
Proof.
  unfold float_scaled. apply Prim2SF_SF2Prim.
  destruct (Z.of_N k) as [|p|p]; [reflexivity| |]; apply binary_round_valid.
Qed.

Lemma float_scaled_add (a b : N) (q : Z) :
  (-1074 <= q <= 971) -> (a + b < 2 ^ 53)%N ->
  PrimFloat.add (float_scaled a q) (float_scaled b q) = float_scaled (a + b) q.
Proof.
  intros Hq Hsum. apply Prim2SF_inj.
  rewrite add_spec, !float_scaled_spec. unfold SF64add.
  assert (Hz : (Z.of_N a + Z.of_N b < 2 ^ 53)%Z).
  { change (2 ^ 53)%Z with (Z.of_N (2 ^ 53)). lia. }
  rewrite N2Z.inj_add.
  destruct (Z.of_N a) as [|pa|pa] eqn:Ha, (Z.of_N b) as [|pb|pb] eqn:Hb; try lia.
  - reflexivity.
  - rewrite Z.add_0_l. cbn [binary_normalize].
    pose proof (binary_round_signed false pb q
                  ltac:(unfold SpecFloat.emin, prec, emax; lia)) as Hs.
    destruct (binary_round prec emax false pb q) as [?|[]| |[] m e];
      try contradiction; try discriminate Hs; reflexivity.
  - rewrite Z.add_0_r. cbn [binary_normalize].
    pose proof (binary_round_signed false pa q
                  ltac:(unfold SpecFloat.emin, prec, emax; lia)) as Hs.
    destruct (binary_round prec emax false pa q) as [?|[]| |[] m e];
      try contradiction; try discriminate Hs; reflexivity.
  - now apply SFadd_scaled.
Qed.

Lemma float_exact_sums : ExactSums float float_scaled.
Proof.
  split.
  - reflexivity.
  - reflexivity.
  - intros a b q Hq Hsum. now apply float_scaled_add.
Qed.

End FloatFacts.

(** C8.  [computeCostUSD] is a total function.  In the arithmetic of the
    program, for every model string and all token counts that are finite
    numbers, the result is a finite number that is not negative; it is 0
    when no entry of the price table matches the model, as for
    "unknown-model-x"; and a rate that is [null] contributes the term
    0. *)
Theorem computeCostUSD_finite_nonnegative (model : string) (i o cc cr : N) :
  PrimFloat.is_finite (num_of_N (num:=float) i) = true ->
  PrimFloat.is_finite (num_of_N (num:=float) o) = true ->
  PrimFloat.is_finite (num_of_N (num:=float) cc) = true ->
  PrimFloat.is_finite (num_of_N (num:=float) cr) = true ->
  let cost := Pricing.computeCostUSD (num:=float) model i o cc cr in
  PrimFloat.is_finite cost = true
  /\ (0 <=? cost)%float = true
  /\ (Pricing.lookupModel model = None -> cost = 0%float)
  /\ Pricing.lookupModel "unknown-model-x" = None
  /\ Pricing.perMillion (num:=float) cc (Pricing.rateOrZero None) = 0%float
  /\ Pricing.perMillion (num:=float) cr (Pricing.rateOrZero None) = 0%float.
Proof.
  intros Hi Ho Hcc Hcr cost.
  destruct (fbelow_finite 1022 cost (computeCostUSD_below model i o cc cr Hi Ho Hcc Hcr))
    as [Hfin Hpos].
  split; [exact Hfin|]. split; [exact Hpos|]. split; [|split; [|split]].
  - intros Hnone. unfold cost, Pricing.computeCostUSD. rewrite Hnone.
    apply float_num_zero.
  - vm_compute. reflexivity.
  - now apply perMillion_null_rate.
  - now apply perMillion_null_rate.
Qed.

(** An instance of C8: a GPT-4 request, whose cache rates are [null]. *)
Lemma computeCostUSD_finite_nonnegative_witness :
  let cost := Pricing.computeCostUSD (num:=float) "gpt-4-0613" 1200 300 40 50 in
  PrimFloat.is_finite cost = true /\ (0 <=? cost)%float = true.
Proof.
  pose proof (computeCostUSD_finite_nonnegative "gpt-4-0613" 1200 300 40 50
                ltac:(vm_compute; reflexivity) ltac:(vm_compute; reflexivity)
                ltac:(vm_compute; reflexivity) ltac:(vm_compute; reflexivity))
    as (Hfin & Hpos & _).
  split; assumption.
Defined.

(* ================================================================== *)
(** * Properties of the overview *)
(* ================================================================== *)

Section SumFacts.
Context {num : Type} `{JsNumber num}.

Lemma sumCost_snoc (l : list num) (c : num) :
  Server.sumCost (l ++ [c]) = num_add (Server.sumCost l) c.
Proof. unfold Server.sumCost. now rewrite List.fold_left_app. Qed.

Lemma sumTokens_snoc (field : UsageEvent num -> N) (g : list (UsageEvent num))
    (e : UsageEvent num) :
  Server.sumTokens field (g ++ [e]) = (Server.sumTokens field g + field e)%N.
Proof.
  induction g as [|x g IH]; simpl; [lia|]. rewrite IH. lia.
Qed.

Lemma tokenSum_snoc (field : UsageEvent num -> N) (g : list (UsageEvent num))
    (e : UsageEvent num) :
  Server.tokenSum field (g ++ [e]) = Server.addTokens (Server.tokenSum field g) (field e).
Proof.
  unfold Server.tokenSum. rewrite List.map_app. cbn [List.map]. apply sumCost_snoc.
Qed.

(** The total cost is the sum of the costs in the order of the events. *)
Lemma totals_cost (l : list (UsageEvent num)) (t : Server.Totals num) :
  Server.t_cost_usd (fold_left Server.addToTotals l t)
  = fold_left num_add (List.map (@cost_usd num) l) (Server.t_cost_usd t).
Proof.
  revert t. induction l as [|e l IH]; intros t; simpl; [reflexivity|].
  now rewrite IH.
Qed.

Lemma sumN_app (l1 l2 : list N) :
  Server.sumN (l1 ++ l2) = (Server.sumN l1 + Server.sumN l2)%N.
Proof.
  unfold Server.sumN. induction l1 as [|n l1 IH]; simpl; [reflexivity|].
  rewrite IH. lia.
Qed.

Lemma sumN_perm (l l' : list N) : Permutation l l' -> Server.sumN l = Server.sumN l'.
Proof.
  unfold Server.sumN. induction 1; simpl; lia.
Qed.

Lemma sumTokens_sumN (field : UsageEvent num -> N) (g : list (UsageEvent num)) :
  Server.sumTokens field g = Server.sumN (List.map field g).
Proof.
  unfold Server.sumTokens, Server.sumN.
  induction g as [|e g IH]; simpl; [reflexivity|now rewrite IH].
Qed.

Lemma sumN_map_add {A : Type} (f g : A -> N) (l : list A) :
  Server.sumN (List.map (fun x => (f x + g x)%N) l)
  = (Server.sumN (List.map f l) + Server.sumN (List.map g l))%N.
Proof.
  unfold Server.sumN. induction l as [|x l IH]; simpl; [reflexivity|].
  rewrite IH. lia.
Qed.

Lemma sumN_filter_le {E : Type} (w : E -> N) (p : E -> bool) (l : list E) :
  (Server.sumN (List.map w (List.filter p l)) <= Server.sumN (List.map w l))%N.
Proof.
  unfold Server.sumN. induction l as [|e l IH]; simpl; [lia|].
  destruct (p e); simpl; lia.
Qed.

(** Among keys that are all different, one key is met once. *)
Lemma sumN_one_key (k0 : string) (c : N) (keys : list string) :
  List.NoDup keys ->
  Server.sumN (List.map (fun k => if String.eqb k0 k then c else 0%N) keys)
  = if in_dec string_dec k0 keys then c else 0%N.
Proof.
  unfold Server.sumN. induction 1 as [|k keys Hk _ IH]; [reflexivity|].
  cbn [List.map fold_right]. rewrite IH.
  destruct (String.eqb_spec k0 k) as [->|Hne].
  - destruct (in_dec string_dec k keys) as [Hin|_]; [contradiction|].
    destruct (in_dec string_dec k (k :: keys)) as [_|Hout]; [lia|].
    exfalso. apply Hout. now left.
  - destruct (in_dec string_dec k0 keys) as [Hin|Hout];
      destruct (in_dec string_dec k0 (k :: keys)) as [Hin'|Hout']; try lia.
    + exfalso. apply Hout'. now right.
    + destruct Hin' as [Heq|Hin']; [congruence|contradiction].
Qed.

(** The groups of keys that are all different and cover the elements
    share out the elements: what the groups add up to, added up over the
    keys, is what the elements add up to. *)
Lemma sumN_groups {E : Type} (key : E -> string) (w : E -> N) (keys : list string)
    (l : list E) :
  List.NoDup keys -> (forall e, In e l -> In (key e) keys) ->
  Server.sumN
    (List.map (fun k => Server.sumN (List.map w (JsArray.group key k l))) keys)
  = Server.sumN (List.map w l).
Proof.
  intros Hnodup. induction l as [|e l IH]; intros Hcover.
  - cbn. unfold Server.sumN. clear. induction keys as [|k keys IHk]; [reflexivity|].
    cbn. exact IHk.
  - rewrite (List.map_ext _
      (fun k => ((if String.eqb (key e) k then w e else 0)
                 + Server.sumN (List.map w (JsArray.group key k l)))%N)).
    + rewrite sumN_map_add, IH by (intros x Hx; apply Hcover; now right).
      rewrite (sumN_one_key (key e) (w e) keys Hnodup).
      destruct (in_dec string_dec (key e) keys) as [_|Hout]; [reflexivity|].
      exfalso. apply Hout, Hcover. now left.
    + intros k. unfold JsArray.group. cbn [List.filter].
      destruct (String.eqb (key e) k); reflexivity.
Qed.

Section Scaled.
Context {scaled : N -> Z -> num} {sums : ExactSums num scaled}.

(** Amounts that are multiples of one power of two add up without
    rounding while the multiples add up to less than 2^53. *)
Lemma sumCost_scaled (us : list N) (q : Z) :
  (-1074 <= q <= 971)%Z -> (Server.sumN us < 2 ^ 53)%N ->
  Server.sumCost (List.map (fun u => scaled u q) us) = scaled (Server.sumN us) q.
Proof.
  intros Hq. induction us as [|u us IH] using List.rev_ind; intros Hsum.
  - cbn. symmetry. apply scaled_zero.
  - rewrite sumN_app in Hsum. cbn in Hsum.
    rewrite List.map_app. cbn [List.map]. rewrite sumCost_snoc, IH by lia.
    rewrite scaled_add by (try assumption; lia).
    f_equal. rewrite sumN_app. cbn. lia.
Qed.

Lemma sumCost_units {E : Type} (value : E -> num) (units : E -> N) (q : Z)
    (l : list E) :
  (-1074 <= q <= 971)%Z ->
  (forall e, In e l -> value e = scaled (units e) q) ->
  (Server.sumN (List.map units l) < 2 ^ 53)%N ->
  Server.sumCost (List.map value l) = scaled (Server.sumN (List.map units l)) q.
Proof.
  intros Hq Hvalue Hsum.
  rewrite (List.map_ext_in value (fun e => scaled (units e) q) l Hvalue).
  rewrite <- (List.map_map units (fun u => scaled u q)).
  now apply sumCost_scaled.
Qed.

(** Rows that hold the sums of the groups add up to the sum of all the
    elements. *)
Lemma rows_units {E R : Type} (key : E -> string) (keyOf : R -> string)
    (amount : R -> num) (value : E -> num) (units : E -> N) (q : Z)
    (l : list E) (rows : list R) :
  (-1074 <= q <= 971)%Z ->
  List.NoDup (List.map keyOf rows) ->
  (forall e, In e l -> In (key e) (List.map keyOf rows)) ->
  (forall row, In row rows ->
     amount row = Server.sumCost (List.map value (JsArray.group key (keyOf row) l))) ->
  (forall e, In e l -> value e = scaled (units e) q) ->
  (Server.sumN (List.map units l) < 2 ^ 53)%N ->
  Server.sumCost (List.map amount rows) = scaled (Server.sumN (List.map units l)) q.
Proof.
  intros Hq Hnodup Hcover Hrows Hvalue Hsum.
  pose (U := fun k => Server.sumN (List.map units (JsArray.group key k l))).
  assert (Hall : Server.sumN (List.map U (List.map keyOf rows))
                 = Server.sumN (List.map units l)).
  { unfold U. now apply sumN_groups. }
  rewrite (List.map_ext_in amount (fun row => scaled (U (keyOf row)) q)).
  - rewrite <- (List.map_map (fun row => U (keyOf row)) (fun u => scaled u q)).
    rewrite <- (List.map_map keyOf U), sumCost_scaled, Hall; [reflexivity|assumption|].
    now rewrite Hall.
  - intros row Hrow. rewrite (Hrows row Hrow). unfold U. apply sumCost_units.
    + exact Hq.
    + intros e He. apply Hvalue. unfold JsArray.group in He.
      now apply List.filter_In in He.
    + eapply N.le_lt_trans; [apply sumN_filter_le|exact Hsum].
Qed.

(** A token count adds up without rounding below 2^53. *)
Lemma tokenSum_exact (field : UsageEvent num -> N) (g : list (UsageEvent num)) :
  (Server.sumTokens field g < 2 ^ 53)%N ->
  Server.tokenSum field g = num_of_N (Server.sumTokens field g).
Proof.
  intros Hsum. rewrite sumTokens_sumN in *. unfold Server.tokenSum.
  rewrite <- scaled_integer. apply sumCost_units; [lia| |exact Hsum].
  intros e _. symmetry. apply scaled_integer.
Qed.

Lemma sumTokens_filter_le (field : UsageEvent num -> N) (p : UsageEvent num -> bool)
    (g : list (UsageEvent num)) :
  (Server.sumTokens field (List.filter p g) <= Server.sumTokens field g)%N.
Proof. rewrite !sumTokens_sumN. apply sumN_filter_le. Qed.

(** The token counts of a part of the events add up without rounding
    where those of all the events do. *)
Lemma exactTokens_part (p : UsageEvent num -> bool) (l : list (UsageEvent num)) :
  Server.safeTokens l ->
  Server.exactTokens (List.filter p l)
    (Server.tokenSum (@input_tokens num) (List.filter p l))
    (Server.tokenSum (@output_tokens num) (List.filter p l))
    (Server.tokenSum (@cache_creation_tokens num) (List.filter p l))
    (Server.tokenSum (@cache_read_tokens num) (List.filter p l)).
Proof.
  intros (Hi & Ho & Hcc & Hcr).
  repeat split; apply tokenSum_exact;
    (eapply N.le_lt_trans; [apply sumTokens_filter_le|eassumption]).
Qed.

(** Rows that hold the token sums of the groups add up to the token sum
    of all the events. *)
Lemma rows_tokens {R : Type} (key : UsageEvent num -> string) (keyOf : R -> string)
    (amount : R -> num) (field : UsageEvent num -> N)
    (l : list (UsageEvent num)) (rows : list R) :
  List.NoDup (List.map keyOf rows) ->
  (forall e, In e l -> In (key e) (List.map keyOf rows)) ->
  (forall row, In row rows ->
     amount row = Server.tokenSum field (JsArray.group key (keyOf row) l)) ->
  (Server.sumTokens field l < 2 ^ 53)%N ->
  Server.sumCost (List.map amount rows) = num_of_N (Server.sumTokens field l).
Proof.
  intros Hnodup Hcover Hrows Hsum. rewrite sumTokens_sumN in *.
  rewrite <- scaled_integer.
  apply (rows_units key keyOf amount (fun e => num_of_N (field e))); try assumption.
  - lia.
  - intros e _. symmetry. apply scaled_integer.
Qed.

End Scaled.

Section Exact.
Context {exact : ExactAddition num}.

Lemma fold_add_from (l : list num) (a : num) :
  fold_left num_add l a = num_add a (Server.sumCost l).
Proof.
  unfold Server.sumCost. revert a. induction l as [|x l IH]; intros a; simpl.
  - now rewrite num_add_comm, num_add_zero_l.
  - rewrite (IH (num_add a x)), (IH (num_add num_zero x)).
    now rewrite num_add_zero_l, num_add_assoc.
Qed.

Lemma sumCost_cons (c : num) (l : list num) :
  Server.sumCost (c :: l) = num_add c (Server.sumCost l).
Proof.
  unfold Server.sumCost at 1. simpl. rewrite fold_add_from.
  now rewrite num_add_zero_l.
Qed.

(** Without rounding a sum does not depend on the order of its terms. *)
Lemma sumCost_perm (l l' : list num) :
  Permutation l l' -> Server.sumCost l = Server.sumCost l'.
Proof.
  induction 1 as [|x l l' _ IH|x y l|l l' l'' _ IH1 _ IH2].
  - reflexivity.
  - now rewrite !sumCost_cons, IH.
  - rewrite !sumCost_cons, <- !num_add_assoc. now rewrite (num_add_comm y x).
  - now rewrite IH1.
Qed.

(** One more event adds its cost to the sum over the rows of the map. *)
Lemma upsert_row_costs (e : UsageEvent num)
    (m : list (string * Server.ModelRow num)) :
  Server.sumCost
    (List.map (@Server.m_cost_usd num)
       (JsArray.values
          (JsArray.upsert (model e) (Server.newModelRow e) (Server.addToModelRow e) m)))
  = num_add
      (Server.sumCost (List.map (@Server.m_cost_usd num) (JsArray.values m)))
      (cost_usd e).
Proof.
  induction m as [|[k v] m IH]; simpl.
  - rewrite sumCost_cons. unfold Server.sumCost at 1 2. simpl.
    now rewrite (num_add_comm _ num_zero), !num_add_zero_l.
  - destruct (String.eqb (model e) k); simpl.
    + rewrite !sumCost_cons. rewrite !num_add_assoc. f_equal. apply num_add_comm.
    + rewrite !sumCost_cons, IH. now rewrite num_add_assoc.
Qed.

Lemma modelMap_costs (l : list (UsageEvent num)) :
  Server.sumCost
    (List.map (@Server.m_cost_usd num) (JsArray.values (Server.modelMapOf l)))
  = Server.sumCost (List.map (@cost_usd num) l).
Proof.
  induction l as [|e l IH] using List.rev_ind; [reflexivity|].
  unfold Server.modelMapOf in *. rewrite List.fold_left_app. simpl.
  rewrite upsert_row_costs, IH, List.map_app. simpl. now rewrite sumCost_snoc.
Qed.

End Exact.
End SumFacts.

(** ** The rationals satisfy both sets of laws *)

Lemma Q_ordered : @OrderedNumber Q Q_JsNumber.
Proof.
  split.
  - intros a b. change (negb (Qle_bool 0%Q (Qminus a b)) = negb (Qle_bool b a)).
    f_equal. apply Bool.eq_iff_eq_true. rewrite !Qle_bool_iff.
    symmetry. apply Qle_minus_iff.
  - intros a b. change (negb (Qle_bool b a) = true -> negb (Qle_bool a b) = false).
    intros Hab. apply negb_true_iff in Hab. apply negb_false_iff.
    apply Qle_bool_iff. destruct (Qlt_le_dec b a) as [Hlt|Hle].
    + apply Qlt_le_weak in Hlt. apply Qle_bool_iff in Hlt. congruence.
    + exact Hle.
Qed.

Lemma Q_exact : @ExactAddition Q Q_JsNumber.
Proof.
  split; simpl.
  - intros [an ad] [bn bd] [cn cd]. unfold Qplus. simpl. f_equal.
    + rewrite !Pos2Z.inj_mul. ring.
    + now rewrite Pos.mul_assoc.
  - intros [an ad] [bn bd]. unfold Qplus. simpl. f_equal.
    + ring.
    + apply Pos.mul_comm.
  - intros [an ad]. unfold num_zero. simpl. unfold Qplus. simpl. f_equal.
    apply Z.mul_1_r.
Qed.

Section OverviewFacts.
Context {num : Type} `{JsNumber num}.

(** A sort by [(a, b) => b.cost_usd - a.cost_usd] leaves the rows in
    descending order of cost. *)
Lemma sort_by_cost_descending {ordered : OrderedNumber num}
    {R : Type} (cost : R -> num) (l : list R) :
  Server.descendingBy cost (JsArray.sort (Server.costBefore cost) l).
Proof.
  unfold Server.descendingBy.
  apply Sorted_weaken with (JsArray.inOrder (Server.costBefore cost)).
  - intros a b. unfold JsArray.inOrder, Server.costBefore, Server.byCostDesc.
    now rewrite num_sub_negative.
  - apply sort_sorted. intros x y.
    unfold Server.costBefore, Server.byCostDesc. rewrite !num_sub_negative.
    apply num_ltb_asym.
Qed.

(** The row that the loop of [computeOverview] leaves for a group. *)
Lemma folded_modelRow (e0 : UsageEvent num) (g : list (UsageEvent num)) :
  let row := JsArray.folded (@Server.newModelRow num _) (@Server.addToModelRow num _) e0 g in
  Server.m_model row = model e0
  /\ Server.m_provider row = provider e0
  /\ Server.m_requests row = N.of_nat (length g)
  /\ Server.m_input_tokens row = Server.tokenSum (@input_tokens num) g
  /\ Server.m_output_tokens row = Server.tokenSum (@output_tokens num) g
  /\ Server.m_cache_creation_tokens row
     = Server.tokenSum (@cache_creation_tokens num) g
  /\ Server.m_cache_read_tokens row = Server.tokenSum (@cache_read_tokens num) g
  /\ Server.m_cost_usd row = Server.sumCost (List.map (@cost_usd num) g).
Proof.
  induction g as [|e g IH] using List.rev_ind.
  - repeat split.
  - unfold JsArray.folded in *. rewrite List.fold_left_app. simpl.
    destruct IH as (Hm & Hp & Hr & Hi & Ho & Hcc & Hcr & Hc).
    rewrite Hm, Hp, Hr, Hi, Ho, Hcc, Hcr, Hc.
    rewrite !tokenSum_snoc, List.map_app, List.length_app.
    cbn [List.map]. rewrite sumCost_snoc.
    simpl. repeat split; lia.
Qed.

Lemma modelMap_rows (filtered : list (UsageEvent num)) (k : string)
    (row : Server.ModelRow num) :
  In (k, row) (Server.modelMapOf filtered) ->
  Server.modelRowOf k (Server.ofModel k filtered) row.
Proof.
  intros Hin.
  apply (proj2 (grouped_spec _ _ _ _ _ filtered)) in Hin as (e0 & g & Hg & ->).
  change (JsArray.group (@model num) k filtered) with (Server.ofModel k filtered) in Hg.
  rewrite Hg.
  destruct (folded_modelRow e0 (e0 :: g)) as (Hm & Hp & Hr & Hi & Ho & Hcc & Hcr & Hc).
  assert (Hk : model e0 = k).
  { assert (He0 : In e0 (Server.ofModel k filtered)) by (rewrite Hg; now left).
    unfold Server.ofModel in He0. apply List.filter_In in He0 as [_ He0].
    now apply String.eqb_eq. }
  split; try assumption.
  - now rewrite Hm.
  - now exists e0, g.
Qed.

(** [byModel] has one row for each model of the filtered events, the
    row of the events of that model. *)
Lemma byModel_rows (events : list (UsageEvent num)) (from to : option string) :
  let ov := Server.computeOverview events from to in
  let filtered := Server.filterByDate events from to in
  (forall row, In row (Server.byModel ov) ->
     Server.modelRowOf (Server.m_model row)
       (Server.ofModel (Server.m_model row) filtered) row)
  /\ List.NoDup (List.map (@Server.m_model num) (Server.byModel ov))
  /\ (forall e, In e filtered ->
        In (model e) (List.map (@Server.m_model num) (Server.byModel ov))).
Proof.
  intros ov filtered.
  assert (Hperm : Permutation (JsArray.values (Server.modelMapOf filtered))
                    (Server.byModel ov)).
  { unfold ov, Server.computeOverview. cbn [Server.byModel]. apply sort_perm. }
  assert (Hrows : forall row, In row (JsArray.values (Server.modelMapOf filtered)) ->
            In (Server.m_model row, row) (Server.modelMapOf filtered)).
  { intros row Hin. unfold JsArray.values in Hin.
    apply List.in_map_iff in Hin as ([k r] & Hk & Hin). simpl in Hk. subst r.
    pose proof (modelMap_rows _ _ _ Hin) as Hrow.
    now rewrite (Server.mr_model Hrow). }
  assert (Hkeys : List.map (@Server.m_model num) (JsArray.values (Server.modelMapOf filtered))
                  = List.map fst (Server.modelMapOf filtered)).
  { unfold JsArray.values. rewrite List.map_map. apply List.map_ext_in.
    intros [k row] Hin. simpl. apply (Server.mr_model (modelMap_rows _ _ _ Hin)). }
  split; [|split].
  - intros row Hin. apply modelMap_rows, Hrows.
    apply Permutation_in with (Server.byModel ov); [now symmetry|assumption].
  - apply Permutation_NoDup
      with (List.map (@Server.m_model num) (JsArray.values (Server.modelMapOf filtered))).
    + now apply Permutation_map.
    + rewrite Hkeys. apply (grouped_spec _ _ _ _ _ filtered).
  - intros e He.
    apply Permutation_in
      with (List.map (@Server.m_model num) (JsArray.values (Server.modelMapOf filtered))).
    + now apply Permutation_map.
    + rewrite Hkeys. apply (grouped_keys _ _ _ _ _ filtered).
      now apply List.in_map.
Qed.

End OverviewFacts.

(** C7, as stated, fails in the arithmetic of the program.  Three
    requests that cost 0.1, 0.2 and 0.3 USD, the last two on one model:
    the total is (0.1 + 0.2) + 0.3 and the rows sum to (0.2 + 0.3) + 0.1,
    which are different doubles. *)
Lemma computeOverview_row_sum_differs_from_total :
  let ov := Server.computeOverview Sample.spend None None in
  Parser.loadAllEvents Sample.clock Sample.spendDir = Some Sample.spend
  /\ num_eqb (Server.sumCost (List.map (@Server.m_cost_usd float) (Server.byModel ov)))
       (Server.t_cost_usd (Server.totals ov)) = false
  /\ Server.sumCost (List.map (@Server.m_cost_usd float) (Server.byModel ov))
     <> Server.t_cost_usd (Server.totals ov).
Proof.
  split; [vm_compute; reflexivity|]. split; [vm_compute; reflexivity|].
  intros Heq.
  assert (Hsame : PrimFloat.eqb
            (Server.sumCost
               (List.map (@Server.m_cost_usd float)
                  (Server.byModel (Server.computeOverview Sample.spend None None))))
            (Server.t_cost_usd
               (Server.totals (Server.computeOverview Sample.spend None None)))
          = true).
  { rewrite Heq. vm_compute. reflexivity. }
  vm_compute in Hsame. discriminate Hsame.
Qed.

(** C7, amended.  For every event collection and date range,
    [totals.cost_usd] is the sum of the costs of the filtered events in
    their order; [byModel] has one row for each model of the filtered
    set, whose cost is the sum of the costs of the events of that model
    in their order; the rows are in descending order of cost.  The costs
    of the rows sum to [totals.cost_usd] where addition is exact, and
    also in the arithmetic of the program when no sum is rounded: when
    the costs of the filtered events are multiples [units e * 2^q] of
    one power of two and the multiples add up to less than 2^53, as for
    costs in whole dollars; [totals.cost_usd] is then that sum. *)
Theorem computeOverview_rows_and_total
    {num : Type} `{JsNumber num}
    (events : list (UsageEvent num)) (from to : option string) :
  let ov := Server.computeOverview events from to in
  let filtered := Server.filterByDate events from to in
  Server.t_cost_usd (Server.totals ov)
  = Server.sumCost (List.map (@cost_usd num) filtered)
  /\ (forall row, In row (Server.byModel ov) ->
        Server.modelRowOf (Server.m_model row)
          (Server.ofModel (Server.m_model row) filtered) row)
  /\ List.NoDup (List.map (@Server.m_model num) (Server.byModel ov))
  /\ (forall e, In e filtered ->
        In (model e) (List.map (@Server.m_model num) (Server.byModel ov)))
  /\ (OrderedNumber num ->
        Server.descendingBy (@Server.m_cost_usd num) (Server.byModel ov))
  /\ (ExactAddition num ->
        Server.sumCost (List.map (@Server.m_cost_usd num) (Server.byModel ov))
        = Server.t_cost_usd (Server.totals ov))
  /\ (forall (scaled : N -> Z -> num) (units : UsageEvent num -> N) (q : Z),
        ExactSums num scaled ->
        (-1074 <= q <= 971)%Z ->
        (forall e, In e filtered -> cost_usd e = scaled (units e) q) ->
        (Server.sumN (List.map units filtered) < 2 ^ 53)%N ->
        Server.sumCost (List.map (@Server.m_cost_usd num) (Server.byModel ov))
        = Server.t_cost_usd (Server.totals ov)
        /\ Server.t_cost_usd (Server.totals ov)
           = scaled (Server.sumN (List.map units filtered)) q).
Proof.
  intros ov filtered.
  assert (Htotal : Server.t_cost_usd (Server.totals ov)
                   = Server.sumCost (List.map (@cost_usd num) filtered)).
  { unfold ov, Server.computeOverview. cbn [Server.totals].
    fold filtered. now rewrite totals_cost. }
  assert (Hperm : Permutation (JsArray.values (Server.modelMapOf filtered))
                    (Server.byModel ov)).
  { unfold ov, Server.computeOverview. cbn [Server.byModel]. apply sort_perm. }
  destruct (byModel_rows events from to) as (Hrow & Hnodup & Hcover).
  fold ov in Hrow, Hnodup, Hcover. fold filtered in Hrow, Hcover.
  split; [exact Htotal|]. split; [exact Hrow|]. split; [exact Hnodup|].
  split; [exact Hcover|]. split; [|split].
  - intros ordered. unfold ov, Server.computeOverview. cbn [Server.byModel].
    apply sort_by_cost_descending.
  - intros exact. rewrite Htotal. rewrite <- modelMap_costs.
    apply sumCost_perm. apply Permutation_map. now symmetry.
  - intros scaled units q sums Hq Hunits Hsum.
    assert (Hexact : Server.t_cost_usd (Server.totals ov)
                     = scaled (Server.sumN (List.map units filtered)) q).
    { rewrite Htotal. now apply sumCost_units. }
    split; [|exact Hexact]. rewrite Hexact.
    apply (rows_units (@model num) (@Server.m_model num) (@Server.m_cost_usd num)
             (@cost_usd num) units q filtered (Server.byModel ov)); try assumption.
    intros row Hin. apply (Server.mr_cost_usd (Hrow row Hin)).
Qed.

(** An instance of the amended C7.  In binary64 arithmetic the rows of
    the three requests of the counterexample are in descending order of
    cost, and the rows of three requests of 10, 20 and 30 USD on two
    models sum to the total, which is 60; in rationals the rows of four
    requests sum to the total. *)
Lemma computeOverview_rows_and_total_witness :
  Server.descendingBy (@Server.m_cost_usd float)
    (Server.byModel (Server.computeOverview Sample.spend None None))
  /\ (let ov := Server.computeOverview Sample.wholeDollars None None in
      Server.sumCost (List.map (@Server.m_cost_usd float) (Server.byModel ov))
      = Server.t_cost_usd (Server.totals ov)
      /\ Server.t_cost_usd (Server.totals ov) = 60%float)
  /\ let ov := Server.computeOverview (H:=Q_JsNumber) Sample.sessionsQ None None in
     Server.sumCost (H:=Q_JsNumber) (List.map (@Server.m_cost_usd Q) (Server.byModel ov))
     = Server.t_cost_usd (Server.totals ov).
Proof.
  split; [|split].
  - pose proof (computeOverview_rows_and_total Sample.spend None None)
      as (_ & _ & _ & _ & Hsorted & _).
    exact (Hsorted float_ordered).
  - pose proof (computeOverview_rows_and_total Sample.wholeDollars None None)
      as (_ & _ & _ & _ & _ & _ & Hsum).
    destruct (Hsum float_scaled Sample.dollars 0%Z float_exact_sums) as [Hrows Htotal].
    + lia.
    + intros e He. vm_compute in He.
      destruct He as [<-|[<-|[<-|[]]]]; vm_compute; reflexivity.
    + vm_compute. reflexivity.
    + split; [exact Hrows|]. rewrite Htotal. vm_compute. reflexivity.
  - pose proof (computeOverview_rows_and_total (H:=Q_JsNumber) Sample.sessionsQ None None)
      as (_ & _ & _ & _ & _ & Hsum & _).
    exact (Hsum Q_exact).
Defined.

(* ================================================================== *)
(** * Properties of the top sessions *)
(* ================================================================== *)

Lemma string_leb_refl (a : string) : String.leb a a = true.
Proof. now rewrite string_leb_ltb, string_ltb_irrefl. Qed.

Lemma string_leb_trans (a b c : string) :
  String.leb a b = true -> String.leb b c = true -> String.leb a c = true.
Proof.
  rewrite !string_leb_ltb, !negb_true_iff. intros Hab Hbc.
  now apply string_not_ltb_trans with b.
Qed.

Lemma setAdd_in (x m : string) (s : list string) :
  In m (JsArray.setAdd x s) <-> m = x \/ In m s.
Proof.
  induction s as [|y s IH]; simpl.
  - intuition.
  - destruct (String.eqb_spec x y) as [->|Hne]; simpl.
    + intuition.
    + rewrite IH. intuition.
Qed.

Lemma setAdd_nodup (x : string) (s : list string) :
  List.NoDup s -> List.NoDup (JsArray.setAdd x s).
Proof.
  induction s as [|y s IH]; simpl; intros Hnd.
  - repeat constructor. intros [].
  - destruct (String.eqb_spec x y) as [->|Hne]; [assumption|].
    inversion Hnd as [|? ? Hnot Hnd']; subst. constructor; [|now apply IH].
    rewrite setAdd_in. intros [?|?]; [congruence|contradiction].
Qed.

(** [slice(0, n)] keeps the first [n] elements. *)
Lemma slice_firstn {A : Type} (n : Z) (l : list A) :
  (0 <= n)%Z -> JsArray.slice 0 n l = firstn (Z.to_nat n) l.
Proof.
  intros Hn. unfold JsArray.slice, JsArray.relIndex.
  destruct (Z.ltb_spec n 0); [lia|]. simpl.
  replace (Z.min 0 (Z.of_nat (length l))) with 0%Z by lia.
  rewrite Z.sub_0_r. change (skipn (Z.to_nat 0) l) with l.
  destruct (Z.le_ge_cases n (Z.of_nat (length l))) as [Hle|Hge].
  - now rewrite Z.min_l.
  - rewrite Z.min_r by lia. rewrite Nat2Z.id.
    rewrite !List.firstn_all2; [reflexivity|lia|lia].
Qed.

Section SessionFacts.
Context {num : Type} `{JsNumber num}.

Abbreviation SessionAcc := (Server.SessionRow num (list string)).

(** The row that the loop of [computeTopSessions] leaves for a group
    whose map entry was made from [e0]. *)
Lemma folded_sessionRow (e0 : UsageEvent num) (g : list (UsageEvent num)) :
  let row := JsArray.folded (@Server.newSessionRow num _)
               (@Server.addToSessionRow num _) e0 g in
  Server.s_session_id row = session_id e0
  /\ Server.s_project_path row = project_path e0
  /\ Server.s_requests row = N.of_nat (length g)
  /\ Server.s_input_tokens row = Server.tokenSum (@input_tokens num) g
  /\ Server.s_output_tokens row = Server.tokenSum (@output_tokens num) g
  /\ Server.s_cache_creation_tokens row
     = Server.tokenSum (@cache_creation_tokens num) g
  /\ Server.s_cache_read_tokens row = Server.tokenSum (@cache_read_tokens num) g
  /\ Server.s_cost_usd row = Server.sumCost (List.map (@cost_usd num) g)
  /\ Server.earliest (Server.s_started_at row) (e0 :: g)
  /\ Server.latest (Server.s_ended_at row) (e0 :: g)
  /\ Server.distinctModels (Server.s_models row) g.
Proof.
  induction g as [|e g IH] using List.rev_ind.
  - simpl. repeat split; try reflexivity.
    + exists e0. split; [now left|reflexivity].
    + intros e [<-|[]]. apply string_leb_refl.
    + exists e0. split; [now left|reflexivity].
    + intros e [<-|[]]. apply string_leb_refl.
    + constructor.
    + intros [].
    + intros (e & [] & _).
  - unfold JsArray.folded in *. rewrite List.fold_left_app.
    cbn [fold_left]. cbv zeta in IH.
    set (row := fold_left _ g _) in *.
    destruct IH as (Hs & Hp & Hr & Hi & Ho & Hcc & Hcr & Hc & Hst & Hen & Hmo).
    cbn [Server.addToSessionRow Server.s_session_id Server.s_project_path
         Server.s_requests Server.s_input_tokens Server.s_output_tokens
         Server.s_cache_creation_tokens Server.s_cache_read_tokens
         Server.s_cost_usd Server.s_started_at Server.s_ended_at Server.s_models].
    rewrite Hs, Hp, Hr, Hi, Ho, Hcc, Hcr, Hc.
    rewrite !tokenSum_snoc, List.map_app, List.length_app.
    cbn [List.map]. rewrite sumCost_snoc. cbn [length].
    split; [reflexivity|]. split; [reflexivity|]. split; [lia|].
    do 5 (split; [reflexivity|]).
    assert (Hin : forall x, In x (e0 :: g ++ [e]) <-> In x (e0 :: g) \/ x = e).
    { intros x. simpl. rewrite List.in_app_iff. simpl. intuition. }
    split; [|split].
    + destruct Hst as [(e1 & He1 & Ht1) Hmin].
      destruct (String.ltb (occurred_at e) (Server.s_started_at row)) eqn:Hlt.
      * split.
        -- exists e. split; [apply Hin; now right|reflexivity].
        -- intros x Hx. apply Hin in Hx as [Hx| ->]; [|apply string_leb_refl].
           apply string_leb_trans with (Server.s_started_at row); [|now apply Hmin].
           rewrite string_leb_ltb. now rewrite (string_ltb_asym _ _ Hlt).
      * split.
        -- exists e1. split; [apply Hin; now left|assumption].
        -- intros x Hx. apply Hin in Hx as [Hx| ->]; [now apply Hmin|].
           now rewrite string_leb_ltb, Hlt.
    + destruct Hen as [(e1 & He1 & Ht1) Hmax].
      destruct (String.ltb (Server.s_ended_at row) (occurred_at e)) eqn:Hlt.
      * split.
        -- exists e. split; [apply Hin; now right|reflexivity].
        -- intros x Hx. apply Hin in Hx as [Hx| ->]; [|apply string_leb_refl].
           apply string_leb_trans with (Server.s_ended_at row); [now apply Hmax|].
           rewrite string_leb_ltb. now rewrite (string_ltb_asym _ _ Hlt).
      * split.
        -- exists e1. split; [apply Hin; now left|assumption].
        -- intros x Hx. apply Hin in Hx as [Hx| ->]; [now apply Hmax|].
           now rewrite string_leb_ltb, Hlt.
    + destruct Hmo as [Hnd Hmem]. split; [now apply setAdd_nodup|].
      intros m. rewrite setAdd_in, Hmem. split.
      * intros [->|(x & Hx & Hm)].
        -- exists e. split; [apply List.in_app_iff; right; now left|reflexivity].
        -- exists x. split; [apply List.in_app_iff; now left|assumption].
      * intros (x & Hx & Hm). apply List.in_app_iff in Hx as [Hx|[<-|[]]].
        -- right. now exists x.
        -- now left.
Qed.

Lemma sessionMap_rows (filtered : list (UsageEvent num)) (k : string)
    (acc : SessionAcc) :
  In (k, acc) (Server.sessionMapOf filtered) ->
  Server.sessionRowOf k (Server.ofSession k filtered) (Server.joinModels acc).
Proof.
  intros Hin.
  apply (proj2 (grouped_spec _ _ _ _ _ filtered)) in Hin as (e0 & g & Hg & ->).
  change (JsArray.group (@Server.sessionKey num) k filtered)
    with (Server.ofSession k filtered) in Hg.
  rewrite Hg.
  destruct (folded_sessionRow e0 (e0 :: g))
    as (Hs & Hp & Hr & Hi & Ho & Hcc & Hcr & Hc & Hst & Hen & Hmo).
  assert (Hk : Server.sessionKey e0 = k).
  { assert (He0 : In e0 (Server.ofSession k filtered)) by (rewrite Hg; now left).
    unfold Server.ofSession in He0. apply List.filter_In in He0 as [_ He0].
    now apply String.eqb_eq. }
  assert (Hdup : forall t, Server.earliest t (e0 :: e0 :: g) -> Server.earliest t (e0 :: g)).
  { intros t [(x & Hx & Ht) Hmin]. split.
    - exists x. split; [|assumption]. simpl in *. tauto.
    - intros y Hy. apply Hmin. now right. }
  assert (Hdup' : forall t, Server.latest t (e0 :: e0 :: g) -> Server.latest t (e0 :: g)).
  { intros t [(x & Hx & Ht) Hmax]. split.
    - exists x. split; [|assumption]. simpl in *. tauto.
    - intros y Hy. apply Hmax. now right. }
  split; cbn [Server.joinModels Server.s_session_id Server.s_project_path
         Server.s_requests Server.s_input_tokens Server.s_output_tokens
         Server.s_cache_creation_tokens Server.s_cache_read_tokens
         Server.s_cost_usd Server.s_started_at Server.s_ended_at Server.s_models];
    try assumption.
  - unfold Server.rowKey. cbn [Server.joinModels Server.s_session_id].
    rewrite Hs. exact Hk.
  - exists e0, g. repeat split; assumption.
  - now apply Hdup.
  - now apply Hdup'.
  - eexists. split; [exact Hmo|reflexivity].
Qed.

End SessionFacts.

Lemma upsert_length {V : Type} (k : string) (init : V) (update : V -> V)
    (m : list (string * V)) :
  length (JsArray.upsert k init update m) <= S (length m).
Proof.
  induction m as [|[k' v] m IH]; simpl; [lia|].
  destruct (String.eqb k k'); simpl; lia.
Qed.

Lemma grouped_length {E V : Type} (key : E -> string) (init : E -> V)
    (update : E -> V -> V) (l : list E) :
  length (JsArray.grouped key init update l) <= length l.
Proof.
  induction l as [|e l IH] using List.rev_ind; [simpl; lia|].
  rewrite grouped_snoc, List.length_app. simpl.
  pose proof (upsert_length (key e) (init e) (update e)
                (JsArray.grouped key init update l)). lia.
Qed.

Lemma Sorted_map {A B : Type} (R : B -> B -> Prop) (f : A -> B) (l : list A) :
  Sorted (fun a b => R (f a) (f b)) l -> Sorted R (List.map f l).
Proof.
  induction 1 as [|a l Hl IH Hhd]; simpl; constructor; [assumption|].
  destruct Hhd; simpl; constructor. assumption.
Qed.

(** C9.  For every event collection, date range and limit [n >= 0]: the
    sessions are the groups of the filtered events by [session_id], the
    events without one under the key "unknown"; the row of a session
    holds the number of its requests, the sums of its token counts and
    costs as the loop adds them, in doubles and in the order of the
    events, its earliest and latest timestamp and its distinct models
    joined by commas; while each token count of the filtered events adds
    up to less than 2^53 the token sums of every row are the integer
    sums; there is one row for each session; the rows are in descending
    order of cost; the result is the first [n] of them, so at most [n]
    rows; an omitted limit is 20; and with limit 1 over three sessions of
    cost 10, 20 and 30 only the session of cost 30 is returned. *)
Theorem computeTopSessions_rows
    {num : Type} `{JsNumber num}
    (events : list (UsageEvent num)) (from to : option string) (n : Z) :
  (0 <= n)%Z ->
  let filtered := Server.filterByDate events from to in
  let all :=
    Server.computeTopSessions events from to (Some (Z.of_nat (length filtered))) in
  let rows := Server.computeTopSessions events from to (Some n) in
  (forall row, In row all ->
     Server.sessionRowOf (Server.rowKey row)
       (Server.ofSession (Server.rowKey row) filtered) row)
  /\ (forall scaled : N -> Z -> num,
        ExactSums num scaled -> Server.safeTokens filtered ->
        forall row, In row all ->
          Server.exactTokens (Server.ofSession (Server.rowKey row) filtered)
            (Server.s_input_tokens row) (Server.s_output_tokens row)
            (Server.s_cache_creation_tokens row) (Server.s_cache_read_tokens row))
  /\ List.NoDup (List.map (@Server.rowKey num string) all)
  /\ (forall e, In e filtered ->
        In (Server.sessionKey e) (List.map (@Server.rowKey num string) all))
  /\ (OrderedNumber num -> Server.descendingBy (@Server.s_cost_usd num string) all)
  /\ rows = firstn (Z.to_nat n) all
  /\ length rows <= Z.to_nat n
  /\ Server.computeTopSessions events from to None
     = Server.computeTopSessions events from to (Some 20%Z)
  /\ Server.computeTopSessions Sample.threeSessions None None (Some 1%Z)
     = [Sample.row30].
Proof.
  intros Hn filtered all rows.
  set (M := Server.sessionMapOf filtered).
  set (sorted := JsArray.sort (Server.costBefore (@Server.s_cost_usd num (list string)))
                   (JsArray.values M)).
  assert (Hall : all = List.map (@Server.joinModels num) sorted).
  { unfold all, Server.computeTopSessions. fold filtered. fold M. fold sorted.
    rewrite slice_firstn by lia. rewrite Nat2Z.id.
    rewrite List.firstn_all2; [reflexivity|].
    unfold sorted. rewrite sort_length. unfold JsArray.values.
    rewrite List.length_map. apply grouped_length. }
  assert (Hrows : rows = firstn (Z.to_nat n) all).
  { rewrite Hall. unfold rows, Server.computeTopSessions. fold filtered. fold M.
    fold sorted. rewrite slice_firstn by lia. symmetry. apply List.firstn_map. }
  assert (Hperm : Permutation (JsArray.values M) sorted) by apply sort_perm.
  assert (Hentry : forall acc, In acc sorted ->
            exists k, In (k, acc) M).
  { intros acc Hin. apply (Permutation_in _ (Permutation_sym Hperm)) in Hin.
    unfold JsArray.values in Hin.
    apply List.in_map_iff in Hin as ([k a] & Ha & Hin). simpl in Ha. subst a.
    now exists k. }
  assert (Hkeys : List.map (fun acc => Server.rowKey (Server.joinModels acc))
                    (JsArray.values M) = List.map fst M).
  { unfold JsArray.values. rewrite List.map_map. apply List.map_ext_in.
    intros [k acc] Hin. simpl. apply (Server.sr_key (sessionMap_rows _ _ _ Hin)). }
  assert (Hkeys' : Permutation (List.map fst M)
                     (List.map (@Server.rowKey num string) all)).
  { rewrite Hall, List.map_map, <- Hkeys. now apply Permutation_map. }
  assert (Hrow : forall row, In row all ->
            Server.sessionRowOf (Server.rowKey row)
              (Server.ofSession (Server.rowKey row) filtered) row).
  { intros row Hin. rewrite Hall in Hin.
    apply List.in_map_iff in Hin as (acc & <- & Hin).
    destruct (Hentry acc Hin) as (k & Hk).
    pose proof (sessionMap_rows _ _ _ Hk) as Hrow.
    now rewrite (Server.sr_key Hrow). }
  split; [exact Hrow|].
  split; [|split; [|split; [|split; [|split; [|split; [|split]]]]]].
  - intros scaled sums Hsafe row Hin.
    destruct (Hrow row Hin) as [_ _ _ Hi Ho Hcc Hcr _ _ _ _].
    rewrite Hi, Ho, Hcc, Hcr. now apply exactTokens_part.
  - apply (Permutation_NoDup Hkeys'). apply (grouped_spec _ _ _ _ _ filtered).
  - intros e He. apply (Permutation_in _ Hkeys').
    apply (grouped_keys _ _ _ _ _ filtered). now apply List.in_map.
  - intros ordered. rewrite Hall. apply Sorted_map.
    apply (sort_by_cost_descending (@Server.s_cost_usd num (list string))).
  - exact Hrows.
  - rewrite Hrows. rewrite List.length_firstn. lia.
  - reflexivity.
  - vm_compute. reflexivity.
Qed.

(** An instance of C9, in binary64 arithmetic: the three sessions with
    limit 2, and the token sums of the one session of the loaded
    events. *)
Lemma computeTopSessions_rows_witness :
  (let rows := Server.computeTopSessions Sample.threeSessions None None (Some 2%Z) in
   List.map (@Server.rowKey float string) rows = ["sc"; "sb"]
   /\ length rows <= 2
   /\ Server.descendingBy (@Server.s_cost_usd float string)
        (Server.computeTopSessions Sample.threeSessions None None (Some 3%Z)))
  /\ forall row,
       In row (Server.computeTopSessions Sample.loaded None None (Some 3%Z)) ->
       Server.s_input_tokens row = 1002050%float
       /\ Server.s_output_tokens row = 1000150%float.
Proof.
  split.
  - pose proof (computeTopSessions_rows Sample.threeSessions None None 2%Z
                  ltac:(lia)) as (_ & _ & _ & _ & Hsorted & _ & Hlen & _).
    split; [vm_compute; reflexivity|]. split; [exact Hlen|].
    exact (Hsorted float_ordered).
  - intros row Hin.
    pose proof (computeTopSessions_rows Sample.loaded None None 3%Z
                  ltac:(lia)) as (_ & Hexact & _).
    assert (Hsafe : Server.safeTokens (Server.filterByDate Sample.loaded None None))
      by (vm_compute; repeat split; reflexivity).
    destruct (Hexact float_scaled float_exact_sums Hsafe row Hin) as (Hi & Ho & _).
    assert (Hkey : Server.rowKey row = "s1").
    { vm_compute in Hin. destruct Hin as [<-|[]]. reflexivity. }
    rewrite Hkey in Hi, Ho. rewrite Hi, Ho.
    split; vm_compute; reflexivity.
Defined.

(* ================================================================== *)
(** * Further properties of the price lookup *)
(* ================================================================== *)

Lemma prefix_append (p s : string) :
  String.prefix p s = true <-> exists r, s = String.append p r.
Proof.
  revert s. induction p as [|c p IH]; intros s.
  - split; [intros _; now exists s|intros _; now destruct s].
  - destruct s as [|d s]; simpl;
      [split; [discriminate|intros [r Hr]; discriminate]|].
    destruct (Ascii.ascii_dec c d) as [->|Hcd].
    + rewrite IH. split; intros [r Hr]; exists r; [now rewrite Hr|now injection Hr].
    + split; [discriminate|]. intros [r Hr]. injection Hr as Hc _. congruence.
Qed.

(** Of two prefixes of one string the shorter is a prefix of the
    longer. *)
Lemma prefix_of_prefix (p q s : string) :
  String.prefix p s = true -> String.prefix q s = true ->
  String.length p <= String.length q -> String.prefix p q = true.
Proof.
  revert q s. induction p as [|c p IH]; intros q s; [now destruct q|].
  destruct s as [|d s]; simpl; [discriminate|].
  destruct (Ascii.ascii_dec c d) as [->|Hcd]; [|discriminate].
  destruct q as [|e q]; simpl; [lia|].
  destruct (Ascii.ascii_dec e d) as [->|Hed]; [|discriminate].
  intros Hp Hq Hlen. destruct (Ascii.ascii_dec d d) as [_|Hdd]; [|congruence].
  apply (IH q s Hp Hq). lia.
Qed.

(** The table lists the more specific prefixes first: no prefix is a
    prefix of one further down. *)
Lemma PRICING_most_specific_first :
  ForallOrdPairs
    (fun p q => String.prefix (Pricing.prefix p) (Pricing.prefix q) = false)
    Pricing.PRICING.
Proof.
  unfold Pricing.PRICING.
  repeat (apply FOP_cons;
          [repeat (apply List.Forall_cons; [reflexivity|]); apply List.Forall_nil|]).
  apply FOP_nil.
Qed.

Lemma find_first {A : Type} (f : A -> bool) (l : list A) (x : A) :
  List.find f l = Some x ->
  exists l1 l2, l = l1 ++ x :: l2 /\ f x = true /\ forall y, In y l1 -> f y = false.
Proof.
  induction l as [|a l IH]; simpl; [discriminate|].
  destruct (f a) eqn:Hfa.
  - intros [= <-]. exists [], l. repeat split; [assumption|intros y []].
  - intros Hfind. destruct (IH Hfind) as (l1 & l2 & -> & Hx & Hl1).
    exists (a :: l1), l2. repeat split; [assumption|].
    intros y [<-|Hy]; [assumption|now apply Hl1].
Qed.

Lemma ForallOrdPairs_app_cons {A : Type} (R : A -> A -> Prop) (l1 l2 : list A) (x y : A) :
  ForallOrdPairs R (l1 ++ x :: l2) -> In y l2 -> R x y.
Proof.
  induction l1 as [|a l1 IH]; simpl; intros HR Hy.
  - inversion HR as [|? ? Hall _]; subst.
    now apply (proj1 (List.Forall_forall _ _) Hall).
  - inversion HR; subst. now apply IH.
Qed.

Lemma lookupModel_find (model : string) :
  Pricing.lookupModel model
  = List.find (fun p => startsWith (Pricing.normalised model) (Pricing.prefix p))
      Pricing.PRICING.
Proof.
  destruct model as [|c model]; [|reflexivity].
  vm_compute. reflexivity.
Qed.

(** Every entry is found under its own prefix. *)
Lemma PRICING_entries_reachable :
  List.Forall (fun p => Pricing.lookupModel (Pricing.prefix p) = Some p)
    Pricing.PRICING.
Proof.
  unfold Pricing.PRICING.
  repeat (apply List.Forall_cons; [vm_compute; reflexivity|]).
  apply List.Forall_nil.
Qed.

(** X1.  [lookupModel] returns the entry of the table with the longest
    prefix that the normalised model name starts with, and it returns
    [null] exactly when the name starts with no prefix of the table.
    No entry of the table is hidden by an earlier one: each is found
    under its own prefix. *)
Theorem lookupModel_longest_prefix (model : string) :
  (forall p, Pricing.lookupModel model = Some p ->
     In p Pricing.PRICING
     /\ startsWith (Pricing.normalised model) (Pricing.prefix p) = true
     /\ forall q, In q Pricing.PRICING ->
          startsWith (Pricing.normalised model) (Pricing.prefix q) = true ->
          q = p \/ String.length (Pricing.prefix q) < String.length (Pricing.prefix p))
  /\ (Pricing.lookupModel model = None
      <-> forall q, In q Pricing.PRICING ->
            startsWith (Pricing.normalised model) (Pricing.prefix q) = false)
  /\ (forall p, In p Pricing.PRICING ->
        Pricing.lookupModel (Pricing.prefix p) = Some p).
Proof.
  rewrite lookupModel_find. split; [|split].
  - intros p Hfind.
    destruct (find_first _ _ _ Hfind) as (l1 & l2 & Htable & Hp & Hl1).
    split; [rewrite Htable; apply List.in_elt|]. split; [exact Hp|].
    intros q Hq Hmatch. rewrite Htable in Hq.
    apply List.in_app_or in Hq as [Hq|[Hq|Hq]].
    + rewrite (Hl1 q Hq) in Hmatch. discriminate.
    + now left.
    + right.
      pose proof PRICING_most_specific_first as Hord. rewrite Htable in Hord.
      pose proof (ForallOrdPairs_app_cons _ _ _ _ _ Hord Hq) as Hpq. simpl in Hpq.
      destruct (Nat.lt_ge_cases (String.length (Pricing.prefix q))
                  (String.length (Pricing.prefix p))) as [Hlt|Hge]; [exact Hlt|].
      unfold startsWith in Hp, Hmatch.
      rewrite (prefix_of_prefix _ _ _ Hp Hmatch Hge) in Hpq. discriminate.
  - split.
    + intros Hnone q Hq.
      destruct (startsWith (Pricing.normalised model) (Pricing.prefix q)) eqn:Hm;
        [|reflexivity].
      pose proof (List.find_none _ _ Hnone q Hq) as Hq'. simpl in Hq'. congruence.
    + intros Hall.
      destruct (List.find _ Pricing.PRICING) as [p|] eqn:Hfind; [|reflexivity].
      apply List.find_some in Hfind as [Hin Hm]. rewrite (Hall p Hin) in Hm.
      discriminate.
  - exact (proj1 (List.Forall_forall _ _) PRICING_entries_reachable).
Qed.

(** An instance of X1: a dated name of the 4.1 generation starts with
    "claude-opus-4-1" and with "claude-opus-4"; the longer prefix is
    found. *)
Lemma lookupModel_longest_prefix_witness :
  let p := Pricing.anthropic "claude-opus-4-1" 15.00%Q 75.00%Q 18.75%Q 1.50%Q in
  let q := Pricing.anthropic "claude-opus-4" 15.00%Q 75.00%Q 18.75%Q 1.50%Q in
  Pricing.lookupModel "claude-opus-4-1-20250805" = Some p
  /\ (q = p \/ String.length (Pricing.prefix q) < String.length (Pricing.prefix p)).
Proof.
  intros p q. split; [reflexivity|].
  destruct (lookupModel_longest_prefix "claude-opus-4-1-20250805") as [Hsome _].
  destruct (Hsome p eq_refl) as (_ & _ & Hlongest).
  apply Hlongest; [|reflexivity].
  unfold Pricing.PRICING. do 7 right. left. reflexivity.
Defined.

(** X2.  A date suffix does not change the price: for a model name that
    carries no date suffix, the name followed by [-YYYYMMDD] or by
    [-YYYY-MM-DD] is normalised to the name in lower case, finds the
    same entry of the table and costs the same. *)
Theorem lookupModel_ignores_date_suffix {num : Type} `{JsNumber num}
    (model suffix : string) (i o cc cr : N) :
  endsWithDateSuffix (toLowerCase model) = false ->
  matchesToEnd reDate8 suffix = true \/ matchesToEnd reDateDashed suffix = true ->
  Pricing.normalised (String.append model suffix) = toLowerCase model
  /\ Pricing.lookupModel (String.append model suffix) = Pricing.lookupModel model
  /\ Pricing.computeCostUSD (num:=num) (String.append model suffix) i o cc cr
     = Pricing.computeCostUSD model i o cc cr.
Proof.
  intros Hplain Hsuffix.
  assert (Hnorm : Pricing.normalised (String.append model suffix) = toLowerCase model).
  { destruct (normalised_dated model suffix Hsuffix) as [Hn|Hn]; [|exact Hn].
    rewrite Hn. apply replaceAtEnd_no_match.
    unfold endsWithDateSuffix in Hplain. now apply orb_false_iff in Hplain. }
  assert (Hlookup : Pricing.lookupModel (String.append model suffix)
                    = Pricing.lookupModel model).
  { rewrite !lookupModel_find, Hnorm, (normalised_plain model Hplain). reflexivity. }
  split; [exact Hnorm|]. split; [exact Hlookup|].
  unfold Pricing.computeCostUSD. now rewrite Hlookup.
Qed.

(** An instance of X2, in binary64 arithmetic. *)
Lemma lookupModel_ignores_date_suffix_witness :
  Pricing.normalised "Claude-Sonnet-4-5-2025-09-29" = "claude-sonnet-4-5"
  /\ Pricing.computeCostUSD (num:=float) "Claude-Sonnet-4-5-2025-09-29" 1200 300 40 50
     = Pricing.computeCostUSD "Claude-Sonnet-4-5" 1200 300 40 50.
Proof.
  destruct (lookupModel_ignores_date_suffix (num:=float)
              "Claude-Sonnet-4-5" "-2025-09-29" 1200 300 40 50
              eq_refl (or_intror eq_refl)) as (Hnorm & _ & Hcost).
  split; [exact Hnorm|exact Hcost].
Defined.

(** X3.  The price lookup does not look at the case of letters: two
    model names that agree in lower case find the same entry and cost
    the same, and have the same provider when the table knows them. *)
Theorem lookupModel_ignores_case {num : Type} `{JsNumber num}
    (m1 m2 : string) (i o cc cr : N) :
  toLowerCase m1 = toLowerCase m2 ->
  Pricing.lookupModel m1 = Pricing.lookupModel m2
  /\ Pricing.computeCostUSD (num:=num) m1 i o cc cr
     = Pricing.computeCostUSD m2 i o cc cr
  /\ (Pricing.lookupModel m1 <> None ->
      Pricing.inferProvider m1 = Pricing.inferProvider m2).
Proof.
  intros Hlower.
  assert (Hlookup : Pricing.lookupModel m1 = Pricing.lookupModel m2).
  { rewrite !lookupModel_find. unfold Pricing.normalised. now rewrite Hlower. }
  split; [exact Hlookup|]. split.
  - unfold Pricing.computeCostUSD. now rewrite Hlookup.
  - intros Hknown. unfold Pricing.inferProvider.
    assert (Hempty : m1 = EmptyString <-> m2 = EmptyString).
    { rewrite <- (toLowerCase_empty m1), <- (toLowerCase_empty m2), Hlower. tauto. }
    destruct m1 as [|c1 m1], m2 as [|c2 m2]; try reflexivity.
    + destruct Hempty as [Hempty _]. discriminate (Hempty eq_refl).
    + destruct Hempty as [_ Hempty]. discriminate (Hempty eq_refl).
    + rewrite <- Hlookup.
      destruct (Pricing.lookupModel (String c1 m1)); [reflexivity|congruence].
Qed.

(** An instance of X3, in binary64 arithmetic. *)
Lemma lookupModel_ignores_case_witness :
  Pricing.computeCostUSD (num:=float) "GPT-4o-Mini" 1200 300 0 50
  = Pricing.computeCostUSD "gpt-4o-mini" 1200 300 0 50
  /\ Pricing.inferProvider "GPT-4o-Mini" = Pricing.inferProvider "gpt-4o-mini".
Proof.
  destruct (lookupModel_ignores_case (num:=float) "GPT-4o-Mini" "gpt-4o-mini"
              1200 300 0 50 eq_refl) as (_ & Hcost & Hprovider).
  split; [exact Hcost|]. apply Hprovider. vm_compute. discriminate.
Defined.

Lemma PRICING_providers :
  List.Forall
    (fun p => Pricing.provider p = "anthropic" \/ Pricing.provider p = "openai")
    Pricing.PRICING.
Proof.
  unfold Pricing.PRICING.
  repeat (apply List.Forall_cons; [(left; reflexivity) || (right; reflexivity)|]).
  apply List.Forall_nil.
Qed.

(** X4.  [inferProvider] returns "anthropic", "openai" or "unknown";
    and a model whose provider is "unknown" has no entry in the price
    table, so it costs 0. *)
Theorem inferProvider_unknown_is_free {num : Type} `{JsNumber num}
    (model : string) (i o cc cr : N) :
  In (Pricing.inferProvider model) ["anthropic"; "openai"; "unknown"]
  /\ (Pricing.inferProvider model = "unknown" ->
      Pricing.lookupModel model = None
      /\ Pricing.computeCostUSD (num:=num) model i o cc cr = num_zero).
Proof.
  assert (Hentry : forall p, Pricing.lookupModel model = Some p ->
            Pricing.provider p = "anthropic" \/ Pricing.provider p = "openai").
  { intros p Hp. rewrite lookupModel_find in Hp.
    apply List.find_some in Hp as [Hin _].
    exact (proj1 (List.Forall_forall _ _) PRICING_providers p Hin). }
  unfold Pricing.inferProvider, Pricing.computeCostUSD.
  destruct model as [|c model].
  - split; [simpl; tauto|]. intros _. split; reflexivity.
  - destruct (Pricing.lookupModel (String c model)) as [p|] eqn:Hp.
    + destruct (Hentry p eq_refl) as [-> | ->]; split; simpl; try tauto;
        discriminate.
    + split; [|intros _; split; reflexivity].
      destruct (_ || _); [simpl; tauto|].
      destruct (startsWith _ "claude"); simpl; tauto.
Qed.

(** An instance of X4. *)
Lemma inferProvider_unknown_is_free_witness :
  Pricing.inferProvider "mistral-large" = "unknown"
  /\ Pricing.computeCostUSD (num:=float) "mistral-large" 1200 300 40 50 = 0%float.
Proof.
  split; [reflexivity|].
  destruct (inferProvider_unknown_is_free (num:=float) "mistral-large" 1200 300 40 50)
    as [_ Hfree].
  destruct (Hfree eq_refl) as [_ Hcost]. rewrite Hcost. apply float_num_zero.
Defined.

(* ================================================================== *)
(** * Further properties of the log parser *)
(* ================================================================== *)

Section LoadedEvents.
Import Parser.
Context {num : Type} `{JsNumber num}.
Variable clock : nat -> string.

(** Every event of the scan was pushed for a record of the scan. *)
Lemma collected_event_origin (claudeDir : ClaudeDir) (pre : list (UsageEvent num))
    (e : UsageEvent num) :
  collectEvents clock claudeDir = Some pre -> In e pre ->
  exists obj, In obj (scanRecords claudeDir) /\ eventOf obj e.
Proof.
  intros Hpre He.
  destruct (collectEvents_invariant clock claudeDir pre Hpre)
    as (st & <- & [Hseen Hev _ Hfirst]).
  pose proof (proj1 (Hseen (request_id e)) (Hev e He)) as Hfind.
  destruct (List.find (hasRequestId (request_id e)) (scanRecords claudeDir))
    as [obj|] eqn:Hobj; [|congruence].
  exists obj. split; [now apply List.find_some in Hobj|].
  specialize (Hfirst _ _ Hobj). unfold firstWins in Hfirst.
  assert (Hin : In e (withRequestId (request_id e) (events st))).
  { apply List.filter_In. split; [assumption|apply String.eqb_refl]. }
  destruct (emittedModel obj).
  - destruct Hfirst as (e' & He' & Horigin). rewrite He' in Hin.
    destruct Hin as [<-|[]]. exact Horigin.
  - rewrite Hfirst in Hin. destruct Hin.
Qed.

Lemma loaded_event_origin (claudeDir : ClaudeDir) (evs : list (UsageEvent num))
    (e : UsageEvent num) :
  loadAllEvents clock claudeDir = Some evs -> In e evs ->
  exists obj, In obj (scanRecords claudeDir) /\ eventOf obj e.
Proof.
  intros Hload He.
  destruct (loadAllEvents_sort clock claudeDir evs Hload) as (pre & Hpre & ->).
  apply sort_in in He. now apply (collected_event_origin claudeDir pre).
Qed.

Lemma truthy_some (o : option string) (s : string) :
  truthy o = Some s -> o = Some s /\ s <> EmptyString.
Proof.
  destruct o as [[|c t]|]; simpl; try discriminate.
  intros [= <-]. split; [reflexivity|discriminate].
Qed.

(** The fields of an event that was pushed for a record. *)
Lemma eventOf_fields (obj : LogRecord) (e : UsageEvent num) :
  eventOf obj e ->
  request_id e <> EmptyString
  /\ model e <> EmptyString
  /\ model e <> "<synthetic>"
  /\ provider e = Pricing.inferProvider (model e)
  /\ cost_usd e
     = Pricing.computeCostUSD (model e) (input_tokens e) (output_tokens e)
         (cache_creation_tokens e) (cache_read_tokens e)
  /\ In (source e) ["claude-code"; "claude-code-subagent"].
Proof.
  intros (m & usage & projectPath & lastHumanText & now
          & Hmodel & _ & Hid & Hevent).
  assert (Hr : request_id e <> EmptyString).
  { unfold requestIdOf in Hid.
    destruct (bool_decide _); [|discriminate].
    destruct (r_message obj) as [msg|]; [|discriminate].
    destruct (m_usage msg); [|discriminate].
    now apply truthy_some in Hid. }
  assert (Hm : m <> EmptyString /\ m <> "<synthetic>").
  { unfold emittedModel in Hmodel.
    destruct (r_message obj) as [msg|]; [|discriminate].
    destruct (truthy (m_model msg)) as [m'|] eqn:Hm'; [|discriminate].
    destruct (String.eqb_spec m' "<synthetic>") as [|Hne]; [discriminate|].
    injection Hmodel as <-. split; [|exact Hne].
    now apply truthy_some in Hm'. }
  rewrite Hevent. cbn [request_id model provider cost_usd input_tokens output_tokens
                       cache_creation_tokens cache_read_tokens source newEvent].
  repeat split; try tauto.
  destruct (r_isSidechain obj); simpl; tauto.
Qed.

End LoadedEvents.

(** X5.  Every event that [loadAllEvents] returns has a request id and
    a model that are not empty, and its model is not the placeholder
    "<synthetic>"; its provider is [inferProvider] of its model, its
    cost is [computeCostUSD] of its model and its four token counts,
    and its source is "claude-code" or "claude-code-subagent". *)
Theorem loadAllEvents_event_fields
    {num : Type} `{JsNumber num} (clock : nat -> string)
    (claudeDir : Parser.ClaudeDir) (evs : list (UsageEvent num)) (e : UsageEvent num) :
  Parser.loadAllEvents clock claudeDir = Some evs ->
  In e evs ->
  request_id e <> EmptyString
  /\ model e <> EmptyString
  /\ model e <> "<synthetic>"
  /\ provider e = Pricing.inferProvider (model e)
  /\ cost_usd e
     = Pricing.computeCostUSD (model e) (input_tokens e) (output_tokens e)
         (cache_creation_tokens e) (cache_read_tokens e)
  /\ In (source e) ["claude-code"; "claude-code-subagent"].
Proof.
  intros Hload He.
  destruct (loaded_event_origin clock claudeDir evs e Hload He) as (obj & _ & Horigin).
  exact (eventOf_fields obj e Horigin).
Qed.

(** An instance of X5: the first event of the sample directory. *)
Lemma loadAllEvents_event_fields_witness :
  match Sample.loaded with
  | e :: _ =>
      model e = "gpt-4o"
      /\ provider e = Pricing.inferProvider (model e)
      /\ cost_usd e = Pricing.computeCostUSD "gpt-4o" 2000 100 0 0
  | [] => False
  end.
Proof.
  assert (Hload : Parser.loadAllEvents Sample.clock Sample.claudeDir = Some Sample.loaded)
    by (vm_compute; reflexivity).
  pose proof (fun e => loadAllEvents_event_fields Sample.clock Sample.claudeDir
                         Sample.loaded e Hload) as Hfields.
  clear Hload. unfold Sample.loaded in *. cbv beta iota.
  destruct (Hfields _ (or_introl eq_refl)) as (_ & _ & _ & Hprovider & Hcost & _).
  split; [reflexivity|]. split; [exact Hprovider|exact Hcost].
Defined.

Section Throwing.
Import Parser.
Context {num : Type} `{JsNumber num}.
Variable clock : nat -> string.

(** Only a line that holds the JSON value [null] makes a turn of the
    loop throw. *)
Lemma parseLine_none (projectPath lastHumanText : option string) (st : @Run num)
    (line : Line) :
  parseLine clock projectPath st lastHumanText line = None <-> line = JsonNull.
Proof.
  split; [|intros ->; reflexivity].
  destruct line as [| | |obj]; simpl; try discriminate; [reflexivity|].
  repeat case_match; discriminate.
Qed.

Lemma parseLines_none (projectPath : option string) (lines : list Line) :
  forall (st : @Run num) (lastHumanText : option string),
    parseLines clock projectPath st lastHumanText lines = None
    <-> In JsonNull lines.
Proof.
  induction lines as [|line lines IH]; intros st lastHumanText; simpl.
  - split; [discriminate|tauto].
  - destruct (parseLine clock projectPath st lastHumanText line)
      as [[st' lastHumanText']|] eqn:Hline.
    + rewrite IH. split; [tauto|]. intros [->|Hin]; [|exact Hin].
      simpl in Hline. discriminate.
    + apply parseLine_none in Hline. split; [intros _; now left|reflexivity].
Qed.

Lemma loadEntries_none (projectPathMap : gmap string (option string))
    (projectPath : option string) (entries : list DirEnt) :
  forall st : @Run num,
    loadEntries clock projectPathMap projectPath entries st = None
    <-> In JsonNull (linesOfEntries entries).
Proof.
  unfold linesOfEntries.
  induction entries as [|ent entries IH]; intros st; simpl.
  - split; [discriminate|tauto].
  - rewrite List.in_app_iff.
    destruct (negb (ent_isFile ent) || negb (endsWith (ent_name ent) ".jsonl")).
    + rewrite IH. simpl. tauto.
    + unfold parseJSONL. destruct (ent_content ent) as [lines|].
      * destruct (parseLines clock _ st None lines) as [st'|] eqn:Hlines.
        -- rewrite IH. split; [tauto|]. intros [Hin|Hin]; [|exact Hin].
           match type of Hlines with
           | parseLines _ ?p _ _ _ = _ =>
               apply (proj2 (parseLines_none p lines st None)) in Hin
           end.
           congruence.
        -- apply parseLines_none in Hlines. tauto.
      * rewrite IH. simpl. tauto.
Qed.

Lemma loadSlugDirs_none (slugDirs : list SlugDir) :
  forall st : @Run num,
    loadSlugDirs clock slugDirs st = None
    <-> In JsonNull (scanLines (Projects slugDirs)).
Proof.
  unfold scanLines.
  induction slugDirs as [|slugDir slugDirs IH]; intros st; simpl.
  - split; [discriminate|tauto].
  - rewrite List.in_app_iff. destruct (readIndex (sd_index slugDir)) as [m fallback].
    destruct (sd_entries slugDir) as [entries|].
    + destruct (loadEntries clock m fallback entries st) as [st'|] eqn:Hentries.
      * rewrite IH. split; [tauto|]. intros [Hin|Hin]; [|exact Hin].
        apply (proj2 (loadEntries_none m fallback entries st)) in Hin. congruence.
      * apply loadEntries_none in Hentries. tauto.
    + rewrite IH. simpl. tauto.
Qed.

End Throwing.

(** X6.  [loadAllEvents] throws exactly when the projects directory
    exists but cannot be listed, or a line of one of the log files that
    the scan reads holds the JSON value [null]; malformed lines, blank
    lines, unreadable files and unreadable slug directories are
    skipped. *)
Theorem loadAllEvents_throws_iff {num : Type} `{JsNumber num}
    (clock : nat -> string) (claudeDir : Parser.ClaudeDir) :
  Parser.loadAllEvents (num:=num) clock claudeDir = None
  <-> claudeDir = Parser.ProjectsUnreadable
      \/ In Parser.JsonNull (Parser.scanLines claudeDir).
Proof.
  destruct claudeDir as [| | |slugDirs]; simpl.
  - split; [discriminate|intros [|[]]; discriminate].
  - split; [discriminate|intros [|[]]; discriminate].
  - split; [now left|reflexivity].
  - destruct (Parser.loadSlugDirs clock slugDirs (Parser.mkRun ∅ [] 0))
      as [st|] eqn:Hscan.
    + split; [discriminate|]. intros [|Hin]; [discriminate|].
      apply (proj2 (loadSlugDirs_none clock slugDirs (Parser.mkRun ∅ [] 0))) in Hin.
      congruence.
    + apply loadSlugDirs_none in Hscan. split; [now right|reflexivity].
Qed.

(** An instance of X6: one [null] line behind a valid record. *)
Lemma loadAllEvents_throws_iff_witness :
  Parser.loadAllEvents (num:=float) Sample.clock
    (Parser.Projects
       [Parser.mkSlugDir Parser.NoIndex
          (Some [Parser.mkDirEnt "a.jsonl" true
                   (Some (Sample.fileB ++ [Parser.JsonNull]))])])
  = None.
Proof.
  apply loadAllEvents_throws_iff. right. simpl. do 3 right. now left.
Defined.

Section Appending.
Import Parser.
Context {num : Type} `{JsNumber num}.
Variable clock : nat -> string.

(** [lastHumanText] after a record: unchanged, or the human text of
    the record when that is a user record with one. *)
Lemma parseLine_lastHumanText (projectPath lastHumanText lastHumanText' : option string)
    (obj : LogRecord) (st st' : @Run num) :
  parseLine clock projectPath st lastHumanText (JsonRecord obj)
    = Some (st', lastHumanText') ->
  lastHumanText' = lastHumanText
  \/ exists t, lastHumanText' = Some t /\ humanTextOf [JsonRecord obj] t.
Proof.
  unfold parseLine.
  destruct (bool_decide (r_type obj = Some "user")) eqn:Huser.
  - apply bool_decide_eq_true in Huser.
    destruct (r_message obj) as [msg|] eqn:Hmsg.
    + destruct (truthy (extractHumanText (m_content msg))) as [t|] eqn:Ht.
      * intros [= _ <-]. right. exists t. split; [reflexivity|].
        apply truthy_some in Ht as [Ht _].
        exists obj, msg. repeat split; try assumption. now left.
      * intros [= _ <-]. now left.
    + simpl. intros [= _ <-]. now left.
  - intros Hline. left. revert Hline.
    repeat case_match; intros [= _ <-]; reflexivity.
Qed.

Lemma humanTextOf_app (l1 l2 : list Line) (t : string) :
  humanTextOf l1 t \/ humanTextOf l2 t -> humanTextOf (l1 ++ l2) t.
Proof.
  intros [(obj & msg & Hin & Hrest)|(obj & msg & Hin & Hrest)];
    exists obj, msg; (split; [apply List.in_or_app; tauto|exact Hrest]).
Qed.

(** The loop of [parseJSONL] only appends to [events] and only adds to
    [seen]. *)
Lemma parseLines_appends (projectPath : option string) (lines : list Line) :
  forall (done : list Line) (lastHumanText : option string) (st st' : @Run num),
    (lastHumanText = None
     \/ exists t, lastHumanText = Some t /\ humanTextOf done t) ->
    parseLines clock projectPath st lastHumanText lines = Some st' ->
    exists new,
      events st' = events st ++ new
      /\ seen st ⊆ seen st'
      /\ forall e, In e new ->
           (request_id e ∉ seen st)
           /\ (request_id e ∈ seen st')
           /\ (prompt_text e = None
               \/ exists t, prompt_text e = Some t /\ humanTextOf (done ++ lines) t).
Proof.
  induction lines as [|line lines IH]; intros done lastHumanText st st' Hlast; simpl.
  - intros [= <-]. exists []. rewrite List.app_nil_r.
    split; [reflexivity|]. split; [reflexivity|intros e []].
  - destruct (parseLine clock projectPath st lastHumanText line)
      as [[st1 lastHumanText1]|] eqn:Hline; [|discriminate].
    intros Hrest.
    assert (Hlast1 : lastHumanText1 = None
                     \/ exists t, lastHumanText1 = Some t
                                  /\ humanTextOf (done ++ [line]) t).
    { destruct line as [| | |obj]; simpl in Hline; try discriminate;
        try (injection Hline as <- <-;
             destruct Hlast as [Hnone|(t & Ht & Hdone)]; [now left|];
             right; exists t; split; [exact Ht|apply humanTextOf_app; now left]).
      destruct (parseLine_lastHumanText _ _ _ _ _ _ Hline) as [->|(t & -> & Ht)].
      - destruct Hlast as [Hnone|(t & Ht & Hdone)]; [now left|].
        right. exists t. split; [exact Ht|apply humanTextOf_app; now left].
      - right. exists t. split; [reflexivity|apply humanTextOf_app; now right]. }
    destruct (IH (done ++ [line]) lastHumanText1 st1 st' Hlast1 Hrest)
      as (new & Hevents & Hseen & Hnew).
    rewrite <- List.app_assoc in Hnew. simpl in Hnew.
    assert (Hstep :
      (st1 = st \/ (events st1 = events st /\ seen st ⊆ seen st1))
      \/ exists r model usage obj,
           (r ∉ seen st) /\ seen st1 = {[ r ]} ∪ seen st
           /\ events st1
              = events st ++ [newEvent projectPath lastHumanText (clock (ticks st))
                                obj usage r model]).
    { destruct line as [| | |obj]; simpl in Hline; try discriminate;
        try (injection Hline as <- _; left; now left).
      destruct (parseLine_record _ _ _ _ _ _ _ Hline)
        as [_ ->|r _ _ ->|r _ Hfresh _ ->|r model usage _ Hfresh _ _ Hs He].
      - left. now left.
      - left. now left.
      - left. right. simpl. split; [reflexivity|apply union_subseteq_r].
      - right. now exists r, model, usage, obj. }
    destruct Hstep as [[->|[Hev1 Hseen1]]|(r & model & usage & obj & Hfresh & Hs & He)].
    + exists new. repeat split; try assumption; now apply Hnew.
    + exists new. rewrite <- Hev1. split; [exact Hevents|].
      split; [now transitivity (seen st1)|].
      intros e He. destruct (Hnew e He) as (Hfresh & Hin & Hprompt).
      split; [|split; assumption].
      intros Hold. apply Hfresh. now apply Hseen1.
    + exists (newEvent projectPath lastHumanText (clock (ticks st)) obj usage r model
              :: new).
      assert (Hsub : seen st ⊆ seen st1) by (rewrite Hs; apply union_subseteq_r).
      split; [rewrite Hevents, He, <- List.app_assoc; reflexivity|].
      split; [now transitivity (seen st1)|].
      intros e [<-|Hin].
      * cbn [request_id prompt_text newEvent]. split; [exact Hfresh|]. split.
        -- apply (proj1 (elem_of_subseteq _ _) Hseen). rewrite Hs.
           apply elem_of_union_l. now apply elem_of_singleton.
        -- destruct Hlast as [->|(t & -> & Hdone)]; [now left|].
           destruct t as [|c t]; [now left|]. right. exists (String c t).
           split; [reflexivity|apply humanTextOf_app; now left].
      * destruct (Hnew e Hin) as (Hfresh' & Hin' & Hprompt).
        split; [|split; assumption].
        intros Hold. apply Hfresh'. now apply (proj1 (elem_of_subseteq _ _) Hsub).
Qed.

End Appending.

(** X7.  [parseJSONL] only appends: the events that were there stay in
    front, in their order, and [seen] only grows.  Every event it adds
    has a request id that was not in [seen] before and is in it after,
    and its prompt text is [null] or the human text of a user record of
    the same file, never one of a file read earlier. *)
Theorem parseJSONL_appends {num : Type} `{JsNumber num} (clock : nat -> string)
    (lines : list Parser.Line) (projectPath : option string) (st st' : Parser.Run) :
  Parser.parseJSONL (num:=num) clock (Some lines) projectPath st = Some st' ->
  exists new,
    Parser.events st' = Parser.events st ++ new
    /\ Parser.seen st ⊆ Parser.seen st'
    /\ forall e, In e new ->
         (request_id e ∉ Parser.seen st)
         /\ (request_id e ∈ Parser.seen st')
         /\ (prompt_text e = None
             \/ exists t, prompt_text e = Some t /\ Parser.humanTextOf lines t).
Proof.
  intros Hparse.
  exact (parseLines_appends clock projectPath lines [] None st st'
           (or_introl eq_refl) Hparse).
Qed.

(** An instance of X7: the second file of the sample directory, read
    after the first. *)
Lemma parseJSONL_appends_witness :
  match Parser.parseJSONL (num:=float) Sample.clock (Some Sample.fileA) None
          (Parser.mkRun ∅ [] 0) with
  | Some st =>
      match Parser.parseJSONL Sample.clock (Some Sample.fileB) None st with
      | Some st' =>
          exists new,
            Parser.events st' = Parser.events st ++ new
            /\ Parser.seen st ⊆ Parser.seen st'
      | None => False
      end
  | None => False
  end.
Proof.
  destruct (Parser.parseJSONL (num:=float) Sample.clock (Some Sample.fileA) None
              (Parser.mkRun ∅ [] 0)) as [st|] eqn:HA;
    [|vm_compute in HA; discriminate HA].
  destruct (Parser.parseJSONL Sample.clock (Some Sample.fileB) None st)
    as [st'|] eqn:HB.
  - destruct (parseJSONL_appends Sample.clock Sample.fileB None st st' HB)
      as (new & Hevents & Hseen & _).
    exists new. split; assumption.
  - vm_compute in HA. injection HA as <-. vm_compute in HB. discriminate HB.
Defined.

Section HumanText.
Import Parser.

Lemma substring_0_length (n : nat) (s : string) :
  String.length (String.substring 0 n s) = Nat.min n (String.length s).
Proof.
  revert n. induction s as [|c s IH]; intros [|n]; simpl; try reflexivity.
  now rewrite IH.
Qed.

Lemma trimStart_head (s : string) (c : ascii) (r : string) :
  trimStart s = String c r -> isSpace c = false.
Proof.
  induction s as [|d s IH]; simpl; [discriminate|].
  destruct (isSpace d) eqn:Hd; [exact IH|]. intros [= <- _]. exact Hd.
Qed.

Lemma trimEnd_head (c : ascii) (s : string) (c' : ascii) (r : string) :
  trimEnd (String c s) = String c' r -> c' = c.
Proof.
  simpl. destruct (trimEnd s); [destruct (isSpace c)|]; congruence.
Qed.

Lemma trim_head (s : string) (c : ascii) (r : string) :
  trim s = String c r -> isSpace c = false.
Proof.
  unfold trim. destruct (trimStart s) as [|d s'] eqn:Hstart; [discriminate|].
  intros Hend. apply trimEnd_head in Hend as ->.
  exact (trimStart_head _ _ _ Hstart).
Qed.

(** The first 400 code units of a trimmed text that is not empty. *)
Lemma sliceTo_trim (s : string) :
  trim s <> EmptyString ->
  exists c r,
    sliceTo 400 (trim s) = String c r
    /\ isSpace c = false
    /\ String.length (sliceTo 400 (trim s)) <= 400.
Proof.
  intros Hne. destruct (trim s) as [|c r] eqn:Htrim; [congruence|].
  exists c, (String.substring 0 399 r). split; [reflexivity|].
  split; [exact (trim_head _ _ _ Htrim)|].
  unfold sliceTo. rewrite substring_0_length. lia.
Qed.

Lemma flat_map_filter {A B : Type} (f : A -> list B) (p : A -> bool) (l : list A) :
  (forall x, p x = false -> f x = []) ->
  List.flat_map f (List.filter p l) = List.flat_map f l.
Proof.
  intros Hf. induction l as [|x l IH]; simpl; [reflexivity|].
  destruct (p x) eqn:Hx; simpl; [now rewrite IH|].
  now rewrite (Hf x Hx), IH.
Qed.

End HumanText.

(** X8.  A text that [extractHumanText] returns is not empty, does not
    begin with white space and has at most 400 code units. *)
Theorem extractHumanText_shape (content : option Parser.Content) (t : string) :
  Parser.extractHumanText content = Some t ->
  exists c r,
    t = String c r /\ isSpace c = false /\ String.length t <= 400.
Proof.
  unfold Parser.extractHumanText.
  destruct content as [[s|items|]|]; try discriminate.
  - destruct s as [|c0 s]; [discriminate|].
    intros Ht. apply truthy_some in Ht as [[= Ht] Hne]. subst t.
    apply sliceTo_trim. intros Hempty. apply Hne. now rewrite Hempty.
  - set (joined := List.flat_map _ items).
    destruct (trim (join " " joined)) as [|c0 r0] eqn:Hjoined; [discriminate|].
    intros [= <-]. rewrite <- Hjoined. apply sliceTo_trim. now rewrite Hjoined.
Qed.

(** An instance of X8: a user message of 600 code units with white
    space around it. *)
Lemma extractHumanText_shape_witness :
  exists t,
    Parser.extractHumanText
      (Some (Parser.CString
               (String.append "  "
                  (String.append (String.concat EmptyString (List.repeat "ab" 300))
                     " "))))
    = Some t
    /\ String.length t <= 400.
Proof.
  destruct (Parser.extractHumanText _) as [t|] eqn:Ht;
    [|vm_compute in Ht; discriminate Ht].
  exists t. split; [reflexivity|].
  destruct (extractHumanText_shape _ t Ht) as (_ & _ & _ & _ & Hlen). exact Hlen.
Defined.

(** X9.  Of a structured message content, [extractHumanText] only reads
    the items of type "text" that carry a string: the other items,
    such as tool results, do not change the result, and a content
    without such an item has no human text. *)
Theorem extractHumanText_text_items (items : list Parser.ContentItem) :
  Parser.extractHumanText (Some (Parser.CArray items))
  = Parser.extractHumanText
      (Some (Parser.CArray (List.filter Parser.isTextItem items)))
  /\ (List.filter Parser.isTextItem items = [] ->
      Parser.extractHumanText (Some (Parser.CArray items)) = None).
Proof.
  assert (Hsame : Parser.extractHumanText (Some (Parser.CArray items))
                  = Parser.extractHumanText
                      (Some (Parser.CArray (List.filter Parser.isTextItem items)))).
  { unfold Parser.extractHumanText. rewrite flat_map_filter; [reflexivity|].
    intros item. unfold Parser.isTextItem.
    destruct (Parser.item_type item) as [ty|], (Parser.item_text item) as [text|];
      try reflexivity.
    now intros ->. }
  split; [exact Hsame|]. intros Hnone. rewrite Hsame, Hnone. reflexivity.
Qed.

(** An instance of X9: a tool result and an image. *)
Lemma extractHumanText_text_items_witness :
  Parser.extractHumanText
    (Some (Parser.CArray [Parser.mkItem (Some "tool_result") None;
                          Parser.mkItem (Some "image") (Some "a.png")]))
  = None.
Proof.
  apply (proj2 (extractHumanText_text_items _)). reflexivity.
Defined.

Section Basename.
Import Parser.

Lemma append_assoc (a b c : string) :
  String.append (String.append a b) c = String.append a (String.append b c).
Proof.
  induction a as [|x a IH]; [reflexivity|].
  exact (f_equal (String x) IH).
Qed.

Lemma append_empty_r (a : string) : String.append a EmptyString = a.
Proof.
  induction a as [|x a IH]; [reflexivity|].
  exact (f_equal (String x) IH).
Qed.

(** A name without a slash is read into the current component. *)
Lemma basenameFrom_component (name : string) :
  forall cur last : string,
    ~ In "/"%char (list_ascii_of_string name) ->
    basenameFrom cur last name
    = match String.append cur name with
      | EmptyString => last
      | s => s
      end.
Proof.
  induction name as [|c name IH]; intros cur last Hslash; simpl.
  - rewrite append_empty_r. now destruct cur.
  - destruct (Ascii.eqb_spec c "/") as [->|Hc].
    + exfalso. apply Hslash. now left.
    + rewrite IH by (intros Hin; apply Hslash; now right).
      rewrite append_assoc. reflexivity.
Qed.

(** What stands before a slash only decides what is returned when
    nothing but slashes follows. *)
Lemma basenameFrom_directory (dir : string) :
  forall (cur last name : string),
    exists last',
      basenameFrom cur last (String.append dir (String "/" name))
      = basenameFrom EmptyString last' name.
Proof.
  induction dir as [|c dir IH]; intros cur last name; simpl.
  - eexists. reflexivity.
  - destruct (Ascii.eqb c "/"); apply IH.
Qed.

End Basename.

(** [path.basename] gives back the file name that was joined to a
    directory. *)
Lemma basename_joined (dir name : string) :
  name <> EmptyString ->
  ~ In "/"%char (list_ascii_of_string name) ->
  Parser.basename (String.append dir (String "/" name)) = name.
Proof.
  intros Hname Hslash. unfold Parser.basename.
  destruct (basenameFrom_directory dir EmptyString EmptyString name) as [last' ->].
  rewrite (basenameFrom_component name EmptyString last' Hslash). simpl.
  destruct name; [congruence|reflexivity].
Qed.

Section IndexFacts.
Import Parser.

Lemma indexEntries_lookup (name : string) (es : list IndexEntry) :
  forall m0 : gmap string (option string),
    snd (indexEntries (List.map Some es) m0) = true
    /\ fst (indexEntries (List.map Some es) m0) !! name
       = match List.find (entryNames name) (List.rev es) with
         | Some e => Some (truthy (projectPath e))
         | None => m0 !! name
         end.
Proof.
  induction es as [|e es IH]; intros m0; simpl; [split; reflexivity|].
  rewrite find_app_first. simpl. unfold entryNames at 2.
  destruct (truthy (fullPath e)) as [fp|].
  - destruct (IH (<[basename fp := truthy (projectPath e)]> m0)) as [-> ->].
    split; [reflexivity|].
    destruct (List.find (entryNames name) (List.rev es)); [reflexivity|].
    destruct (String.eqb_spec (basename fp) name) as [->|Hne].
    + apply lookup_insert_eq.
    + now apply lookup_insert_ne.
  - destruct (IH m0) as [-> ->]. split; [reflexivity|].
    now destruct (List.find (entryNames name) (List.rev es)).
Qed.

Lemma indexEntries_null (es : list IndexEntry) (rest : list (option IndexEntry)) :
  forall m0 : gmap string (option string),
    indexEntries (List.map Some es ++ None :: rest) m0
    = (fst (indexEntries (List.map Some es) m0), false).
Proof.
  induction es as [|e es IH]; intros m0; simpl; [reflexivity|].
  destruct (truthy (fullPath e)); apply IH.
Qed.

End IndexFacts.

(** X10.  An index entry is found under the name of the log file it
    points to: when no entry of [sessions-index.json] is [null] and the
    last entry has the [fullPath] [dir/name], for a name that is not
    empty and holds no slash, [projectPathMap] holds the project path of
    that entry for [name], the key under which [loadAllEvents] looks the
    file up, whatever [dir] is and whatever paths the entries before it
    carry. *)
Theorem readIndex_joined_path (es : list Parser.IndexEntry) (entry : Parser.IndexEntry)
    (dir name : string) :
  name <> EmptyString ->
  ~ In "/"%char (list_ascii_of_string name) ->
  Parser.fullPath entry = Some (String.append dir (String "/" name)) ->
  fst (Parser.readIndex (Parser.Index (List.map Some (es ++ [entry])))) !! name
  = Some (truthy (Parser.projectPath entry)).
Proof.
  intros Hname Hslash Hpath. unfold Parser.readIndex.
  destruct (indexEntries_lookup name (es ++ [entry]) ∅) as [_ Hlookup].
  destruct (Parser.indexEntries (List.map Some (es ++ [entry])) ∅) as [m completed].
  simpl in *. rewrite Hlookup, List.rev_app_distr. simpl.
  assert (Hnames : Parser.entryNames name entry = true).
  { unfold Parser.entryNames. rewrite Hpath.
    replace (truthy (Some (String.append dir (String "/" name))))
      with (Some (String.append dir (String "/" name))) by now destruct dir.
    rewrite (basename_joined dir name Hname Hslash). apply String.eqb_refl. }
  now rewrite Hnames.
Qed.

(** An instance of X10: the index of the sample directory. *)
Lemma readIndex_joined_path_witness :
  fst (Parser.readIndex
         (Parser.Index
            [Some (Parser.mkIndexEntry (Some "/home/u/.claude/projects/p/a.jsonl")
                     (Some "/home/u/p"))])) !! "a.jsonl"
  = Some (Some "/home/u/p").
Proof.
  apply (readIndex_joined_path []
           (Parser.mkIndexEntry (Some "/home/u/.claude/projects/p/a.jsonl")
              (Some "/home/u/p"))
           "/home/u/.claude/projects/p" "a.jsonl").
  - discriminate.
  - simpl. intros Hin. repeat (destruct Hin as [Hin|Hin]; [discriminate Hin|]).
    exact Hin.
  - reflexivity.
Defined.

(** X11.  In [sessions-index.json] the last entry that names a file
    decides: after the index has been read, [projectPathMap] holds for
    a file name the project path of the last entry whose [fullPath] has
    that base name ([null] when that entry has none), and nothing for a
    name that no entry has; the slug-level fallback is the project path
    of the first entry.  An entry that is [null] ends the reading: the
    entries before it stay in the map and there is no fallback. *)
Theorem readIndex_last_entry_wins (es : list Parser.IndexEntry)
    (rest : list (option Parser.IndexEntry)) (name : string) :
  let found :=
    option_map (fun e => truthy (Parser.projectPath e))
      (List.find (Parser.entryNames name) (List.rev es)) in
  fst (Parser.readIndex (Parser.Index (List.map Some es))) !! name = found
  /\ snd (Parser.readIndex (Parser.Index (List.map Some es)))
     = match es with
       | e :: _ => truthy (Parser.projectPath e)
       | [] => None
       end
  /\ fst (Parser.readIndex (Parser.Index (List.map Some es ++ None :: rest))) !! name
     = found
  /\ snd (Parser.readIndex (Parser.Index (List.map Some es ++ None :: rest))) = None.
Proof.
  intros found. unfold Parser.readIndex.
  rewrite (indexEntries_null es rest ∅).
  destruct (indexEntries_lookup name es ∅) as [Hall Hlookup].
  destruct (Parser.indexEntries (List.map Some es) ∅) as [m completed].
  simpl in *. subst completed. rewrite Hlookup.
  assert (Hfound : match List.find (Parser.entryNames name) (List.rev es) with
                   | Some e => Some (truthy (Parser.projectPath e))
                   | None => (∅ : gmap string (option string)) !! name
                   end = found).
  { unfold found. destruct (List.find _ _); [reflexivity|apply lookup_empty]. }
  rewrite Hfound. repeat split. now destruct es.
Qed.

(* ================================================================== *)
(** * Further properties of the aggregations *)
(* ================================================================== *)

Section DateRange.
Context {num : Type} `{JsNumber num}.

(** [filterByDate] keeps the events in the date range, in their
    order. *)
Lemma filterByDate_filter (events : list (UsageEvent num)) (from to : option string) :
  Server.filterByDate events from to
  = List.filter (Server.inDateRange from to) events.
Proof.
  unfold Server.filterByDate, Server.inDateRange.
  destruct (truthy from) as [f|], (truthy to) as [t|]; simpl;
    try (apply filter_ext_eq; intros e;
         repeat match goal with
                | |- context [String.ltb ?a ?b] => destruct (String.ltb a b)
                end; reflexivity).
  symmetry. apply filter_all.
Qed.

End DateRange.

(** X12.  Date filters compose: filtering a filtered collection keeps
    the events that are in both ranges, whatever the order of the two
    calls; so filtering first by [from] and then by [to] is filtering by
    both, and filtering twice by one range is filtering once. *)
Theorem filterByDate_compose {num : Type} `{JsNumber num}
    (events : list (UsageEvent num)) (from to from' to' : option string) :
  Server.filterByDate (Server.filterByDate events from to) from' to'
  = List.filter
      (fun e => Server.inDateRange from to e && Server.inDateRange from' to' e) events
  /\ Server.filterByDate (Server.filterByDate events from to) from' to'
     = Server.filterByDate (Server.filterByDate events from' to') from to
  /\ Server.filterByDate (Server.filterByDate events from None) None to
     = Server.filterByDate events from to
  /\ Server.filterByDate (Server.filterByDate events from to) from to
     = Server.filterByDate events from to.
Proof.
  rewrite !filterByDate_filter, !filter_filter_andb.
  split; [reflexivity|]. split; [|split].
  - apply filter_ext_eq. intros e. apply andb_comm.
  - apply filter_ext_eq. intros e. unfold Server.inDateRange. simpl.
    now rewrite andb_true_r.
  - apply filter_ext_eq. intros e. now destruct (Server.inDateRange from to e).
Qed.

Section Counts.
Context {num : Type} `{JsNumber num}.

(** A count that every element adds to the value of its key adds up,
    over the values of the map, to the sum over the elements. *)
Lemma upsert_sumN {V : Type} (f : V -> N) (k : string) (init : V) (update : V -> V)
    (m : list (string * V)) (d : N) :
  f init = 0%N -> (forall v, f (update v) = (f v + d)%N) ->
  Server.sumN (List.map f (JsArray.values (JsArray.upsert k init update m)))
  = (Server.sumN (List.map f (JsArray.values m)) + d)%N.
Proof.
  intros Hinit Hupdate. unfold Server.sumN, JsArray.values.
  induction m as [|[k' v] m IH]; simpl.
  - rewrite Hupdate, Hinit. lia.
  - destruct (String.eqb k k'); simpl.
    + rewrite Hupdate. lia.
    + rewrite IH. lia.
Qed.

Lemma grouped_sumN {E V : Type} (key : E -> string) (init : E -> V)
    (update : E -> V -> V) (f : V -> N) (w : E -> N) (l : list E) :
  (forall e, f (init e) = 0%N) ->
  (forall e v, f (update e v) = (f v + w e)%N) ->
  Server.sumN (List.map f (JsArray.values (JsArray.grouped key init update l)))
  = Server.sumN (List.map w l).
Proof.
  intros Hinit Hupdate. induction l as [|e l IH] using List.rev_ind; [reflexivity|].
  rewrite grouped_snoc, upsert_sumN with (d := w e) by auto.
  rewrite IH, List.map_app, sumN_app. simpl. lia.
Qed.

(** The counts of [totals] after the [reduce]. *)
Lemma totals_counts (l : list (UsageEvent num)) :
  forall t : Server.Totals num,
    let t' := fold_left Server.addToTotals l t in
    Server.t_total_requests t' = (Server.t_total_requests t + N.of_nat (length l))%N
    /\ Server.t_input_tokens t'
       = fold_left num_add (List.map (fun e => num_of_N (input_tokens e)) l)
           (Server.t_input_tokens t)
    /\ Server.t_output_tokens t'
       = fold_left num_add (List.map (fun e => num_of_N (output_tokens e)) l)
           (Server.t_output_tokens t)
    /\ Server.t_cache_creation_tokens t'
       = fold_left num_add (List.map (fun e => num_of_N (cache_creation_tokens e)) l)
           (Server.t_cache_creation_tokens t)
    /\ Server.t_cache_read_tokens t'
       = fold_left num_add (List.map (fun e => num_of_N (cache_read_tokens e)) l)
           (Server.t_cache_read_tokens t).
Proof.
  induction l as [|e l IH]; intros t; cbn [fold_left].
  - cbn. repeat split; lia.
  - destruct (IH (Server.addToTotals t e)) as (Hr & Hi & Ho & Hcc & Hcr).
    cbv zeta. rewrite Hr, Hi, Ho, Hcc, Hcr.
    cbn [Server.addToTotals Server.t_total_requests Server.t_input_tokens
         Server.t_output_tokens Server.t_cache_creation_tokens
         Server.t_cache_read_tokens List.map fold_left length].
    rewrite Nat2N.inj_succ. repeat split; lia.
Qed.

End Counts.

(** X13.  The counts of the overview are consistent.  [totals] holds the
    number of the filtered events and the sums of their four token
    counts as the [reduce] adds them, in doubles and in the order of the
    events; the requests of the [byModel] rows add up to
    [total_requests].  While each token count of the filtered events
    adds up to less than 2^53 no sum is rounded: the token counts of
    [totals] are the integer sums, and each token count of the rows adds
    up to the token count of [totals]. *)
Theorem computeOverview_counts {num : Type} `{JsNumber num}
    (events : list (UsageEvent num)) (from to : option string) :
  let ov := Server.computeOverview events from to in
  let filtered := Server.filterByDate events from to in
  let t := Server.totals ov in
  let rows := Server.byModel ov in
  Server.t_total_requests t = N.of_nat (length filtered)
  /\ Server.t_input_tokens t = Server.tokenSum (@input_tokens num) filtered
  /\ Server.t_output_tokens t = Server.tokenSum (@output_tokens num) filtered
  /\ Server.t_cache_creation_tokens t
     = Server.tokenSum (@cache_creation_tokens num) filtered
  /\ Server.t_cache_read_tokens t
     = Server.tokenSum (@cache_read_tokens num) filtered
  /\ Server.sumN (List.map (@Server.m_requests num) rows) = Server.t_total_requests t
  /\ (forall scaled : N -> Z -> num,
        ExactSums num scaled -> Server.safeTokens filtered ->
        Server.exactTokens filtered
          (Server.t_input_tokens t) (Server.t_output_tokens t)
          (Server.t_cache_creation_tokens t) (Server.t_cache_read_tokens t)
        /\ Server.sumCost (List.map (@Server.m_input_tokens num) rows)
           = Server.t_input_tokens t
        /\ Server.sumCost (List.map (@Server.m_output_tokens num) rows)
           = Server.t_output_tokens t
        /\ Server.sumCost (List.map (@Server.m_cache_creation_tokens num) rows)
           = Server.t_cache_creation_tokens t
        /\ Server.sumCost (List.map (@Server.m_cache_read_tokens num) rows)
           = Server.t_cache_read_tokens t).
Proof.
  intros ov filtered t rows.
  destruct (totals_counts filtered (Server.mkTotals 0 num_zero num_zero num_zero num_zero num_zero))
    as (Hr & Hi & Ho & Hcc & Hcr).
  cbn [Server.t_total_requests Server.t_input_tokens Server.t_output_tokens
       Server.t_cache_creation_tokens Server.t_cache_read_tokens] in Hr, Hi, Ho, Hcc, Hcr.
  rewrite N.add_0_l in Hr.
  assert (Htr : Server.t_total_requests t = N.of_nat (length filtered)) by exact Hr.
  assert (Hti : Server.t_input_tokens t = Server.tokenSum (@input_tokens num) filtered)
    by exact Hi.
  assert (Hto : Server.t_output_tokens t = Server.tokenSum (@output_tokens num) filtered)
    by exact Ho.
  assert (Htcc : Server.t_cache_creation_tokens t
                 = Server.tokenSum (@cache_creation_tokens num) filtered) by exact Hcc.
  assert (Htcr : Server.t_cache_read_tokens t
                 = Server.tokenSum (@cache_read_tokens num) filtered) by exact Hcr.
  do 5 (split; [assumption|]).
  split.
  - rewrite Htr.
    transitivity (Server.sumN (List.map (fun _ : UsageEvent num => 1%N) filtered)).
    + rewrite <- (grouped_sumN (@model num) (@Server.newModelRow num _)
                    (@Server.addToModelRow num _) (@Server.m_requests num)
                    (fun _ => 1%N) filtered)
        by (intros; simpl; lia).
      apply sumN_perm, Permutation_map, Permutation_sym.
      unfold rows, ov, Server.computeOverview. cbn [Server.byModel]. apply sort_perm.
    + clear. induction filtered as [|e l IH]; [reflexivity|].
      cbn [length List.map Server.sumN fold_right] in *.
      unfold Server.sumN in IH. rewrite IH. lia.
  - intros scaled sums Hsafe.
    destruct (byModel_rows events from to) as (Hrow & Hnodup & Hcover).
    fold ov in Hrow, Hnodup, Hcover. fold filtered in Hrow, Hcover.
    fold rows in Hrow, Hnodup, Hcover.
    pose proof Hsafe as (Hsi & Hso & Hscc & Hscr).
    assert (Hexact : Server.exactTokens filtered
              (Server.t_input_tokens t) (Server.t_output_tokens t)
              (Server.t_cache_creation_tokens t) (Server.t_cache_read_tokens t)).
    { rewrite Hti, Hto, Htcc, Htcr. repeat split; now apply tokenSum_exact. }
    split; [exact Hexact|].
    destruct Hexact as (-> & -> & -> & ->).
    repeat split;
      apply (rows_tokens (@model num) (@Server.m_model num)); try assumption;
      intros row Hin; destruct (Hrow row Hin) as [_ _ _ Hri Hro Hrcc Hrcr _];
      assumption.
Qed.

(** An instance of X13, in binary64 arithmetic: the input tokens of the
    loaded events. *)
Lemma computeOverview_counts_witness :
  let ov := Server.computeOverview Sample.loaded None None in
  Server.t_input_tokens (Server.totals ov) = 1002050%float
  /\ Server.sumCost (List.map (@Server.m_input_tokens float) (Server.byModel ov))
     = Server.t_input_tokens (Server.totals ov).
Proof.
  pose proof (computeOverview_counts Sample.loaded None None)
    as (_ & _ & _ & _ & _ & _ & Hexact).
  assert (Hsafe : Server.safeTokens (Server.filterByDate Sample.loaded None None))
    by (vm_compute; repeat split; reflexivity).
  destruct (Hexact float_scaled float_exact_sums Hsafe) as ((Hi & _) & Hrows & _).
  split; [|exact Hrows]. rewrite Hi. vm_compute. reflexivity.
Defined.


Section ProjectFacts.
Context {num : Type} `{JsNumber num}.

(** The row that the loop of [computeProjects] leaves for a group whose
    map entry was made from [e0]. *)
Lemma folded_projectRow (e0 : UsageEvent num) (g : list (UsageEvent num)) :
  let row := JsArray.folded (@Server.newProjectRow num _)
               (@Server.addToProjectRow num _) e0 g in
  Server.p_project_path row = Server.projectKey e0
  /\ Server.p_requests row = N.of_nat (length g)
  /\ Server.p_cost_usd row = Server.sumCost (List.map (@cost_usd num) g)
  /\ Server.p_input_tokens row = Server.tokenSum (@input_tokens num) g
  /\ Server.p_output_tokens row = Server.tokenSum (@output_tokens num) g
  /\ Server.p_cache_read_tokens row = Server.tokenSum (@cache_read_tokens num) g
  /\ Server.p_cache_creation_tokens row
     = Server.tokenSum (@cache_creation_tokens num) g
  /\ Server.distinctSessions (Server.p_sessions row) g.
Proof.
  induction g as [|e g IH] using List.rev_ind.
  - simpl. repeat split; try reflexivity; [constructor|intros []|intros (e & [] & _)].
  - unfold JsArray.folded in *. rewrite List.fold_left_app.
    cbn [fold_left]. cbv zeta in IH.
    set (row := fold_left _ g _) in *.
    destruct IH as (Hp & Hr & Hc & Hi & Ho & Hcr & Hcc & Hs).
    cbn [Server.addToProjectRow Server.p_project_path Server.p_requests
         Server.p_cost_usd Server.p_input_tokens Server.p_output_tokens
         Server.p_cache_read_tokens Server.p_cache_creation_tokens Server.p_sessions].
    rewrite Hp, Hr, Hc, Hi, Ho, Hcr, Hcc.
    rewrite !tokenSum_snoc, List.map_app, List.length_app.
    cbn [List.map]. rewrite sumCost_snoc. cbn [length].
    split; [reflexivity|]. split; [lia|]. do 5 (split; [reflexivity|]).
    destruct Hs as [Hnd Hmem].
    destruct (truthy (session_id e)) as [id|] eqn:Hid.
    + split; [now apply setAdd_nodup|].
      intros id'. rewrite setAdd_in, Hmem. split.
      * intros [->|(x & Hx & Hm)].
        -- exists e. split; [apply List.in_app_iff; right; now left|exact Hid].
        -- exists x. split; [apply List.in_app_iff; now left|assumption].
      * intros (x & Hx & Hm). apply List.in_app_iff in Hx as [Hx|[<-|[]]].
        -- right. now exists x.
        -- left. congruence.
    + split; [exact Hnd|].
      intros id'. rewrite Hmem. split.
      * intros (x & Hx & Hm). exists x. split; [apply List.in_app_iff; now left|assumption].
      * intros (x & Hx & Hm). apply List.in_app_iff in Hx as [Hx|[<-|[]]].
        -- now exists x.
        -- congruence.
Qed.

Lemma projectMap_rows (filtered : list (UsageEvent num)) (k : string)
    (acc : Server.ProjectRow num (list string)) :
  In (k, acc) (Server.projectMapOf filtered) ->
  Server.projectRowOf k (Server.ofProject k filtered) (Server.countSessions acc).
Proof.
  intros Hin.
  apply (proj2 (grouped_spec _ _ _ _ _ filtered)) in Hin as (e0 & g & Hg & ->).
  change (JsArray.group (@Server.projectKey num) k filtered)
    with (Server.ofProject k filtered) in Hg.
  rewrite Hg.
  destruct (folded_projectRow e0 (e0 :: g)) as (Hp & Hr & Hc & Hi & Ho & Hcr & Hcc & Hs).
  assert (Hk : Server.projectKey e0 = k).
  { assert (He0 : In e0 (Server.ofProject k filtered)) by (rewrite Hg; now left).
    unfold Server.ofProject in He0. apply List.filter_In in He0 as [_ He0].
    now apply String.eqb_eq. }
  split; cbn [Server.countSessions Server.p_project_path Server.p_requests
         Server.p_cost_usd Server.p_input_tokens Server.p_output_tokens
         Server.p_cache_read_tokens Server.p_cache_creation_tokens Server.p_sessions];
    try assumption.
  - now rewrite Hp.
  - discriminate.
  - eexists. split; [exact Hs|reflexivity].
Qed.

End ProjectFacts.

(** X14.  [computeProjects] returns one row for each project of the
    filtered events, the events without a project path under "Unknown".
    The row of a project holds the number of its requests, the sums of
    its costs and token counts as the loop adds them, in doubles and in
    the order of the events, and the number of its distinct session ids;
    while each token count of the filtered events adds up to less than
    2^53 the token sums of every row are the integer sums; and the rows
    are in descending order of cost. *)
Theorem computeProjects_rows {num : Type} `{JsNumber num}
    (events : list (UsageEvent num)) (from to : option string) :
  let filtered := Server.filterByDate events from to in
  let rows := Server.computeProjects events from to in
  (forall row, In row rows ->
     Server.projectRowOf (Server.p_project_path row)
       (Server.ofProject (Server.p_project_path row) filtered) row)
  /\ (forall scaled : N -> Z -> num,
        ExactSums num scaled -> Server.safeTokens filtered ->
        forall row, In row rows ->
          Server.exactTokens (Server.ofProject (Server.p_project_path row) filtered)
            (Server.p_input_tokens row) (Server.p_output_tokens row)
            (Server.p_cache_creation_tokens row) (Server.p_cache_read_tokens row))
  /\ List.NoDup (List.map (@Server.p_project_path num N) rows)
  /\ (forall e, In e filtered ->
        In (Server.projectKey e) (List.map (@Server.p_project_path num N) rows))
  /\ (OrderedNumber num -> Server.descendingBy (@Server.p_cost_usd num N) rows).
Proof.
  intros filtered rows.
  set (M := Server.projectMapOf filtered).
  set (sorted := JsArray.sort (Server.costBefore (@Server.p_cost_usd num (list string)))
                   (JsArray.values M)).
  assert (Hrows : rows = List.map (@Server.countSessions num) sorted) by reflexivity.
  assert (Hperm : Permutation (JsArray.values M) sorted) by apply sort_perm.
  assert (Hkeys : List.map (fun acc => Server.p_project_path (Server.countSessions acc))
                    (JsArray.values M) = List.map fst M).
  { unfold JsArray.values. rewrite List.map_map. apply List.map_ext_in.
    intros [k acc] Hin. simpl. apply (Server.pr_key (projectMap_rows _ _ _ Hin)). }
  assert (Hkeys' : Permutation (List.map fst M)
                     (List.map (@Server.p_project_path num N) rows)).
  { rewrite Hrows, List.map_map, <- Hkeys. now apply Permutation_map. }
  assert (Hrow : forall row, In row rows ->
            Server.projectRowOf (Server.p_project_path row)
              (Server.ofProject (Server.p_project_path row) filtered) row).
  { intros row Hin. rewrite Hrows in Hin.
    apply List.in_map_iff in Hin as (acc & <- & Hin).
    apply (Permutation_in _ (Permutation_sym Hperm)) in Hin.
    unfold JsArray.values in Hin.
    apply List.in_map_iff in Hin as ([k a] & Ha & Hin). simpl in Ha. subst a.
    pose proof (projectMap_rows _ _ _ Hin) as Hrow.
    now rewrite (Server.pr_key Hrow). }
  split; [exact Hrow|]. split; [|split; [|split]].
  - intros scaled sums Hsafe row Hin.
    destruct (Hrow row Hin) as [_ _ _ _ Hi Ho Hcr Hcc _].
    rewrite Hi, Ho, Hcr, Hcc. now apply exactTokens_part.
  - apply (Permutation_NoDup Hkeys'). apply (grouped_spec _ _ _ _ _ filtered).
  - intros e He. apply (Permutation_in _ Hkeys').
    apply (grouped_keys _ _ _ _ _ filtered). now apply List.in_map.
  - intros ordered. rewrite Hrows. apply Sorted_map.
    apply (sort_by_cost_descending (@Server.p_cost_usd num (list string))).
Qed.

(** An instance of X14, in binary64 arithmetic: the events of the
    sample directory belong to one project. *)
Lemma computeProjects_rows_witness :
  let rows := Server.computeProjects Sample.loaded None None in
  List.map (@Server.p_project_path float N) rows = ["/home/u/p"]
  /\ List.map (@Server.p_requests float N) rows = [3%N]
  /\ Server.descendingBy (@Server.p_cost_usd float N) rows
  /\ forall row, In row rows ->
       Server.p_input_tokens row = 1002050%float
       /\ Server.p_output_tokens row = 1000150%float.
Proof.
  destruct (computeProjects_rows Sample.loaded None None)
    as (_ & Hexact & _ & _ & Hsorted).
  split; [vm_compute; reflexivity|]. split; [vm_compute; reflexivity|].
  split; [exact (Hsorted float_ordered)|].
  intros row Hin.
  assert (Hsafe : Server.safeTokens (Server.filterByDate Sample.loaded None None))
    by (vm_compute; repeat split; reflexivity).
  destruct (Hexact float_scaled float_exact_sums Hsafe row Hin) as (Hi & Ho & _).
  assert (Hkey : Server.p_project_path row = "/home/u/p").
  { vm_compute in Hin. destruct Hin as [<-|[]]. reflexivity. }
  rewrite Hkey in Hi, Ho. rewrite Hi, Ho.
  split; vm_compute; reflexivity.
Defined.

Section TimeseriesFacts.
Context {num : Type} `{JsNumber num}.

(** The row that the loop of [computeTimeseries] leaves for a group
    whose map entry was made from [e0]. *)
Lemma folded_timeseriesRow (e0 : UsageEvent num) (g : list (UsageEvent num)) :
  let row := JsArray.folded (@Server.newTimeseriesRow num _)
               (@Server.addToTimeseriesRow num _) e0 g in
  Server.ts_date row = Server.dateOf e0
  /\ Server.ts_model row = model e0
  /\ Server.ts_provider row = provider e0
  /\ Server.ts_cost_usd row = Server.sumCost (List.map (@cost_usd num) g)
  /\ Server.ts_requests row = N.of_nat (length g).
Proof.
  induction g as [|e g IH] using List.rev_ind.
  - repeat split.
  - unfold JsArray.folded in *. rewrite List.fold_left_app. simpl.
    destruct IH as (Hd & Hm & Hp & Hc & Hr).
    rewrite Hd, Hm, Hp, Hc, Hr, List.map_app, List.length_app.
    cbn [List.map]. rewrite sumCost_snoc. simpl. repeat split. lia.
Qed.

Lemma timeseriesMap_rows (filtered : list (UsageEvent num)) (k : string)
    (row : Server.TimeseriesRow num) :
  In (k, row) (Server.timeseriesMapOf filtered) ->
  String.append (Server.ts_date row) (String.append "|" (Server.ts_model row)) = k
  /\ Server.timeseriesRowOf (Server.ofTimeseriesKey k filtered) row.
Proof.
  intros Hin.
  apply (proj2 (grouped_spec _ _ _ _ _ filtered)) in Hin as (e0 & g & Hg & ->).
  change (JsArray.group (@Server.timeseriesKey num) k filtered)
    with (Server.ofTimeseriesKey k filtered) in Hg.
  rewrite Hg.
  destruct (folded_timeseriesRow e0 (e0 :: g)) as (Hd & Hm & Hp & Hc & Hr).
  assert (Hk : Server.timeseriesKey e0 = k).
  { assert (He0 : In e0 (Server.ofTimeseriesKey k filtered)) by (rewrite Hg; now left).
    unfold Server.ofTimeseriesKey in He0. apply List.filter_In in He0 as [_ He0].
    now apply String.eqb_eq. }
  split; [now rewrite Hd, Hm|].
  split; try assumption. now exists e0, g.
Qed.

(** A date without a bar and a model are read back from their key. *)
Lemma bar_key_injective (d d' m m' : string) :
  ~ In "|"%char (list_ascii_of_string d) ->
  ~ In "|"%char (list_ascii_of_string d') ->
  String.append d (String "|" m) = String.append d' (String "|" m') ->
  d = d' /\ m = m'.
Proof.
  revert d'. induction d as [|c d IH]; intros [|c' d'] Hd Hd'; simpl.
  - intros [= ->]. now split.
  - intros [= <- _]. exfalso. apply Hd'. now left.
  - intros [= -> _]. exfalso. apply Hd. now left.
  - intros [= -> Hrest].
    destruct (IH d') as [-> ->]; try assumption; [| |now split].
    + intros Hin. apply Hd. now right.
    + intros Hin. apply Hd'. now right.
Qed.

End TimeseriesFacts.

(** X15.  [computeTimeseries] returns one row for each key
    [date|model] of the filtered events, where the date is the first
    ten code units of [occurred_at]: the row carries the date, model
    and provider of the first event of its key, the sum of the costs
    and the number of the events of the key.  Two events whose dates
    hold no bar have one key only if they have one date and one model.
    Where [localeCompare] is never negative in both directions, no row
    stands next before a row of an earlier date; where it is also
    transitive (when [b] does not sort before [a] nor [c] before [b],
    [c] does not sort before [a]), no row stands anywhere before a row
    of an earlier date. *)
Theorem computeTimeseries_rows {num : Type} `{JsNumber num}
    (localeCompare : string -> string -> Z)
    (events : list (UsageEvent num)) (from to : option string) :
  let filtered := Server.filterByDate events from to in
  let rows := Server.computeTimeseries localeCompare events from to in
  let keyOf (row : Server.TimeseriesRow num) :=
    String.append (Server.ts_date row) (String.append "|" (Server.ts_model row)) in
  (forall row, In row rows ->
     Server.timeseriesRowOf (Server.ofTimeseriesKey (keyOf row) filtered) row)
  /\ List.NoDup (List.map keyOf rows)
  /\ (forall e, In e filtered -> In (Server.timeseriesKey e) (List.map keyOf rows))
  /\ (forall e1 e2 : UsageEvent num,
        ~ In "|"%char (list_ascii_of_string (Server.dateOf e1)) ->
        ~ In "|"%char (list_ascii_of_string (Server.dateOf e2)) ->
        Server.timeseriesKey e1 = Server.timeseriesKey e2 ->
        Server.dateOf e1 = Server.dateOf e2 /\ model e1 = model e2)
  /\ ((forall a b, (localeCompare a b < 0)%Z -> (localeCompare b a < 0)%Z -> False) ->
      Sorted
        (fun a b =>
           (localeCompare (Server.ts_date b) (Server.ts_date a) <? 0)%Z = false)
        rows)
  /\ ((forall a b, (localeCompare a b < 0)%Z -> (localeCompare b a < 0)%Z -> False) ->
      (forall a b c,
         (0 <= localeCompare b a)%Z -> (0 <= localeCompare c b)%Z ->
         (0 <= localeCompare c a)%Z) ->
      StronglySorted
        (fun a b =>
           (localeCompare (Server.ts_date b) (Server.ts_date a) <? 0)%Z = false)
        rows).
Proof.
  intros filtered rows keyOf.
  set (M := Server.timeseriesMapOf filtered).
  assert (Hperm : Permutation (JsArray.values M) rows) by apply sort_perm.
  assert (Hkeys : List.map keyOf (JsArray.values M) = List.map fst M).
  { unfold JsArray.values. rewrite List.map_map. apply List.map_ext_in.
    intros [k row] Hin. simpl. apply (proj1 (timeseriesMap_rows _ _ _ Hin)). }
  assert (Hkeys' : Permutation (List.map fst M) (List.map keyOf rows)).
  { rewrite <- Hkeys. now apply Permutation_map. }
  assert (Hasym' : (forall a b, (localeCompare a b < 0)%Z ->
                                (localeCompare b a < 0)%Z -> False) ->
            forall x y : Server.TimeseriesRow num,
              (localeCompare (Server.ts_date x) (Server.ts_date y) <? 0)%Z = true ->
              (localeCompare (Server.ts_date y) (Server.ts_date x) <? 0)%Z = false).
  { intros Hasym x y Hxy. apply Z.ltb_lt in Hxy. apply Z.ltb_ge.
    destruct (Z.lt_ge_cases (localeCompare (Server.ts_date y) (Server.ts_date x)) 0)
      as [Hyx|Hyx]; [|exact Hyx].
    destruct (Hasym _ _ Hxy Hyx). }
  split; [|split; [|split; [|split; [|split]]]].
  - intros row Hin. apply (Permutation_in _ (Permutation_sym Hperm)) in Hin.
    unfold JsArray.values in Hin.
    apply List.in_map_iff in Hin as ([k r] & Hr & Hin). simpl in Hr. subst r.
    destruct (timeseriesMap_rows _ _ _ Hin) as [Hk Hrow].
    unfold keyOf. now rewrite Hk.
  - apply (Permutation_NoDup Hkeys'). apply (grouped_spec _ _ _ _ _ filtered).
  - intros e He. apply (Permutation_in _ Hkeys').
    apply (grouped_keys _ _ _ _ _ filtered). now apply List.in_map.
  - intros e1 e2 H1 H2. unfold Server.timeseriesKey. now apply bar_key_injective.
  - intros Hasym. unfold rows, Server.computeTimeseries.
    apply (sort_sorted _
             (fun a b => (localeCompare (Server.ts_date a) (Server.ts_date b) <? 0)%Z)).
    exact (Hasym' Hasym).
  - intros Hasym Htrans. unfold rows, Server.computeTimeseries.
    apply (sort_strongly_sorted _
             (fun a b => (localeCompare (Server.ts_date a) (Server.ts_date b) <? 0)%Z)).
    + exact (Hasym' Hasym).
    + intros x y z. unfold JsArray.inOrder. rewrite !Z.ltb_ge. apply Htrans.
Qed.

Lemma localeCompare_sample_asym (a b : string) :
  (Sample.localeCompare a b < 0)%Z -> (Sample.localeCompare b a < 0)%Z -> False.
Proof.
  unfold Sample.localeCompare. rewrite (String.compare_antisym a b).
  destruct (String.compare b a); simpl; lia.
Qed.

Lemma localeCompare_sample_trans (a b c : string) :
  (0 <= Sample.localeCompare b a)%Z -> (0 <= Sample.localeCompare c b)%Z ->
  (0 <= Sample.localeCompare c a)%Z.
Proof.
  assert (Hltb : forall x y,
            (0 <= Sample.localeCompare x y)%Z <-> String.ltb x y = false).
  { intros x y. unfold Sample.localeCompare, String.ltb.
    destruct (String.compare x y); split; intros; try lia; congruence. }
  rewrite !Hltb. apply string_not_ltb_trans.
Qed.

(** An instance of X15, in binary64 arithmetic: the events of the
    sample directory by day. *)
Lemma computeTimeseries_rows_witness :
  let rows := Server.computeTimeseries Sample.localeCompare Sample.loaded None None in
  List.map (@Server.ts_date float) rows = ["2024-01-01"; "2024-01-03"; "2024-01-03"]
  /\ Sorted
       (fun a b =>
          (Sample.localeCompare (Server.ts_date b) (Server.ts_date a) <? 0)%Z = false)
       rows
  /\ StronglySorted
       (fun a b =>
          (Sample.localeCompare (Server.ts_date b) (Server.ts_date a) <? 0)%Z = false)
       rows.
Proof.
  destruct (computeTimeseries_rows Sample.localeCompare Sample.loaded None None)
    as (_ & _ & _ & _ & Hsorted & Hstrong).
  split; [vm_compute; reflexivity|].
  split; [exact (Hsorted localeCompare_sample_asym)|].
  exact (Hstrong localeCompare_sample_asym localeCompare_sample_trans).
Defined.

Section Pages.

Lemma firstn_min {A : Type} (n : nat) (l : list A) :
  firstn n l = firstn (Nat.min n (length l)) l.
Proof.
  revert n. induction l as [|x l IH]; intros [|n]; simpl; try reflexivity.
  now rewrite <- IH.
Qed.

(** A slice that starts at a non-negative index and has a non-negative
    length is cut from what follows the index. *)
Lemma slice_window {A : Type} (a L : Z) (l : list A) :
  (0 <= a)%Z -> (0 <= L)%Z ->
  JsArray.slice a (a + L) l = firstn (Z.to_nat L) (skipn (Z.to_nat a) l).
Proof.
  intros Ha HL. unfold JsArray.slice, JsArray.relIndex.
  destruct (Z.ltb_spec a 0) as [|_]; [lia|].
  destruct (Z.ltb_spec (a + L) 0) as [|_]; [lia|].
  destruct (Z.le_gt_cases a (Z.of_nat (length l))) as [Hin|Hout].
  - rewrite (Z.min_l a) by lia.
    rewrite (firstn_min (Z.to_nat L)), List.length_skipn.
    f_equal. lia.
  - rewrite (Z.min_r a) by lia. rewrite (Z.min_r (a + L)) by lia.
    rewrite Z.sub_diag, !List.skipn_all2 by lia. now destruct (Z.to_nat L).
Qed.

Lemma slice_incl {A : Type} (start end_ : Z) (l : list A) (x : A) :
  In x (JsArray.slice start end_ l) -> In x l.
Proof.
  unfold JsArray.slice.
  set (k := Z.to_nat _). set (rest := skipn _ l). intros Hin.
  rewrite <- (List.firstn_skipn (Z.to_nat (JsArray.relIndex (Z.of_nat (length l)) start)) l).
  apply List.in_or_app. right. fold rest.
  rewrite <- (List.firstn_skipn k rest). apply List.in_or_app. now left.
Qed.

(** Windows of length [L] laid end to end cover the list. *)
Lemma windows_cover {A : Type} (L : nat) (n : nat) :
  forall l : list A,
    length l <= n * L ->
    List.flat_map (fun k => firstn L (skipn (k * L) l)) (List.seq 0 n) = l.
Proof.
  induction n as [|n IH]; intros l Hlen.
  - destruct l; [reflexivity|simpl in Hlen; lia].
  - rewrite <- List.cons_seq, <- List.seq_shift. cbn [List.flat_map].
    rewrite List.flat_map_concat_map, List.map_map, <- List.flat_map_concat_map.
    rewrite (List.flat_map_ext _ (fun k => firstn L (skipn (k * L) (skipn L l)))).
    + rewrite IH by (rewrite List.length_skipn; lia).
      simpl. apply List.firstn_skipn.
    + intros k. rewrite List.skipn_skipn. do 2 f_equal. lia.
Qed.

End Pages.

(** X16.  The pages of [computeEvents] partition the listing: for a
    page size of at least 1, the rows of the pages 1 to [pages], one
    after the other, are the filtered events in the order of the
    listing, which are the events that pass the filters, each one
    once; and the rows of any page are events of the collection that
    pass the filters. *)
Theorem computeEvents_pages_cover {num : Type} `{JsNumber num}
    (localeCompare : string -> string -> Z)
    (events : list (UsageEvent num)) (q : Server.EventsQuery) :
  let limit := match Server.q_limit q with Some l => l | None => 50%Z end in
  let rowsOf (p : Z) :=
    Server.rows (Server.computeEvents localeCompare events (Server.atPage q p)) in
  (1 <= limit)%Z ->
  (exists n : nat,
     Server.pages (Server.computeEvents localeCompare events q) = Some (Z.of_nat n)
     /\ List.flat_map (fun k => rowsOf (Z.of_nat k + 1)%Z) (List.seq 0 n)
        = Server.listing localeCompare q events)
  /\ Permutation (List.filter (Server.passesFilters q) events)
       (Server.listing localeCompare q events)
  /\ forall p e, In e (rowsOf p) -> In e events /\ Server.passesFilters q e = true.
Proof.
  intros limit rowsOf Hlimit.
  assert (Hrows : forall p, rowsOf p
            = JsArray.slice ((p - 1) * limit) ((p - 1) * limit + limit)
                (Server.listing localeCompare q events)).
  { intros p. unfold rowsOf, Server.computeEvents, Server.listing. cbn [Server.rows].
    destruct (bool_decide _); reflexivity. }
  assert (Hperm : Permutation (List.filter (Server.passesFilters q) events)
                    (Server.listing localeCompare q events)).
  { rewrite <- applyFilters_passes. unfold Server.listing.
    destruct (bool_decide _); apply sort_perm. }
  split; [|split; [exact Hperm|]].
  - assert (Htotal : Server.total (Server.computeEvents localeCompare events q)
                     = Z.of_nat (length (Server.listing localeCompare q events))).
    { unfold Server.computeEvents, Server.listing. cbn [Server.total].
      destruct (bool_decide _); reflexivity. }
    destruct (ceilDiv_spec
                (Z.of_nat (length (Server.listing localeCompare q events))) limit
                ltac:(lia)) as (n & Hn & Hbounds).
    exists (Z.to_nat n).
    assert (Hn0 : (0 <= n)%Z) by nia.
    rewrite Z2Nat.id by exact Hn0. split.
    + unfold Server.computeEvents, Server.listing in *. cbn [Server.pages].
      fold limit. destruct (bool_decide _); exact Hn.
    + rewrite (List.flat_map_ext _
                 (fun k => firstn (Z.to_nat limit)
                             (skipn (k * Z.to_nat limit)
                                (Server.listing localeCompare q events)))).
      * apply windows_cover. nia.
      * intros k. rewrite Hrows, slice_window by nia.
        do 2 f_equal. nia.
  - intros p e Hin. rewrite Hrows in Hin. apply slice_incl in Hin.
    apply (Permutation_in _ (Permutation_sym Hperm)) in Hin.
    now apply List.filter_In in Hin.
Qed.

(** An instance of X16: three events in pages of two. *)
Lemma computeEvents_pages_cover_witness :
  let q := Server.mkQuery None (Some 2%Z) None None None None None None in
  let rowsOf (p : Z) :=
    Server.rows
      (Server.computeEvents Sample.localeCompare Sample.threeSessions
         (Server.atPage q p)) in
  Server.pages (Server.computeEvents Sample.localeCompare Sample.threeSessions q)
  = Some 2%Z
  /\ List.map (@request_id float) (rowsOf 1%Z) = ["c1"; "b1"]
  /\ List.map (@request_id float) (rowsOf 2%Z) = ["a1"]
  /\ Permutation Sample.threeSessions (rowsOf 1%Z ++ rowsOf 2%Z).
Proof.
  intros q rowsOf.
  destruct (computeEvents_pages_cover Sample.localeCompare Sample.threeSessions q
              ltac:(simpl; lia)) as ((n & Hpages & Hcover) & Hperm & _).
  split; [vm_compute; reflexivity|]. split; [vm_compute; reflexivity|].
  split; [vm_compute; reflexivity|].
  assert (Hn : n = 2).
  { assert (Hp : Server.pages
                   (Server.computeEvents Sample.localeCompare Sample.threeSessions q)
                 = Some 2%Z) by (vm_compute; reflexivity).
    rewrite Hp in Hpages. injection Hpages as Hpages. lia. }
  subst n. cbn [List.seq List.flat_map] in Hcover.
  rewrite List.app_nil_r in Hcover.
  change (Z.of_nat 0 + 1)%Z with 1%Z in Hcover.
  change (Z.of_nat 1 + 1)%Z with 2%Z in Hcover.
  unfold rowsOf. rewrite Hcover. exact Hperm.
Defined.

Section Windows.
Context {A : Type} (R : A -> A -> Prop).

Lemma Sorted_skipn (n : nat) (l : list A) : Sorted R l -> Sorted R (skipn n l).
Proof.
  revert l. induction n as [|n IH]; intros l Hl; [exact Hl|].
  destruct l as [|x l]; [constructor|]. simpl. apply IH. now inversion Hl.
Qed.

Lemma Sorted_firstn (n : nat) (l : list A) : Sorted R l -> Sorted R (firstn n l).
Proof.
  revert l. induction n as [|n IH]; intros l Hl; [constructor|].
  destruct l as [|x l]; [constructor|]. simpl.
  inversion Hl as [|? ? Hrest Hhd]; subst. constructor; [now apply IH|].
  destruct n; [constructor|]. destruct Hhd; constructor. assumption.
Qed.

Lemma Sorted_slice (start end_ : Z) (l : list A) :
  Sorted R l -> Sorted R (JsArray.slice start end_ l).
Proof.
  intros Hl. unfold JsArray.slice. now apply Sorted_firstn, Sorted_skipn.
Qed.

End Windows.

(** X17.  The rows of a page of [computeEvents] are in the order that
    was asked for.  With [sort=cost] no row costs less than the row
    behind it.  Otherwise the newest come first: where [localeCompare]
    is never negative in both directions, no row has a timestamp that
    [localeCompare] puts before that of the row behind it. *)
Theorem computeEvents_rows_order {num : Type} `{JsNumber num}
    (localeCompare : string -> string -> Z)
    (events : list (UsageEvent num)) (q : Server.EventsQuery) :
  let rows := Server.rows (Server.computeEvents localeCompare events q) in
  (Server.q_sort q = Some "cost" -> OrderedNumber num ->
   Server.descendingBy (@cost_usd num) rows)
  /\ (Server.q_sort q <> Some "cost" ->
      (forall a b, (localeCompare a b < 0)%Z -> (localeCompare b a < 0)%Z -> False) ->
      Sorted
        (fun a b => (localeCompare (occurred_at a) (occurred_at b) <? 0)%Z = false)
        rows).
Proof.
  intros rows. unfold rows, Server.computeEvents. cbn [Server.rows]. split.
  - intros Hsort ordered. rewrite bool_decide_eq_true_2 by exact Hsort.
    apply Sorted_slice. apply (sort_by_cost_descending (@cost_usd num)).
  - intros Hsort Hasym. rewrite bool_decide_eq_false_2 by exact Hsort.
    apply Sorted_slice.
    apply (sort_sorted _
             (fun a b => (localeCompare (occurred_at b) (occurred_at a) <? 0)%Z)).
    intros x y Hxy. apply Z.ltb_lt in Hxy. apply Z.ltb_ge.
    destruct (Z.lt_ge_cases (localeCompare (occurred_at x) (occurred_at y)) 0)
      as [Hyx|Hyx]; [|exact Hyx].
    destruct (Hasym _ _ Hyx Hxy).
Qed.

(** An instance of X17, in binary64 arithmetic: the sample events by
    cost, and by time. *)
Lemma computeEvents_rows_order_witness :
  let byCost :=
    Server.mkQuery None None None None None None None (Some "cost") in
  let byTime := Server.mkQuery None None None None None None None None in
  Server.descendingBy (@cost_usd float)
    (Server.rows (Server.computeEvents Sample.localeCompare Sample.loaded byCost))
  /\ List.map (@occurred_at float)
       (Server.rows (Server.computeEvents Sample.localeCompare Sample.loaded byTime))
     = ["2024-01-03T10:00:00.000Z"; "2024-01-03T10:00:00.000Z";
        "2024-01-01T08:00:00.000Z"]
  /\ Sorted
       (fun a b =>
          (Sample.localeCompare (occurred_at a) (occurred_at b) <? 0)%Z = false)
       (Server.rows (Server.computeEvents Sample.localeCompare Sample.loaded byTime)).
Proof.
  intros byCost byTime. split; [|split].
  - exact (proj1 (computeEvents_rows_order Sample.localeCompare Sample.loaded byCost)
             eq_refl float_ordered).
  - vm_compute. reflexivity.
  - apply (proj2 (computeEvents_rows_order Sample.localeCompare Sample.loaded byTime)).
    + discriminate.
    + exact localeCompare_sample_asym.
Defined.

Section Models.

Lemma distinct_spec (l : list string) :
  forall acc : list string,
    List.NoDup acc ->
    List.NoDup (fold_left (fun s x => JsArray.setAdd x s) l acc)
    /\ forall m, In m (fold_left (fun s x => JsArray.setAdd x s) l acc)
                 <-> In m acc \/ In m l.
Proof.
  induction l as [|x l IH]; intros acc Hacc; simpl.
  - split; [exact Hacc|]. intros m. tauto.
  - destruct (IH (JsArray.setAdd x acc) (setAdd_nodup x acc Hacc)) as [Hnd Hin].
    split; [exact Hnd|]. intros m. rewrite Hin, setAdd_in.
    split; [intros [[->|Hm]|Hm]|intros [Hm|[->|Hm]]]; auto.
Qed.

Lemma Sorted_strict (l : list string) :
  List.NoDup l ->
  Sorted (fun a b => String.ltb b a = false) l ->
  Sorted (fun a b => String.ltb a b = true) l.
Proof.
  induction l as [|a l IH]; intros Hnd Hl; [constructor|].
  inversion Hnd as [|? ? Ha Hnd']; subst.
  inversion Hl as [|? ? Hl' Hhd]; subst.
  constructor; [now apply IH|].
  destruct Hhd as [|b l Hba]; constructor.
  destruct (String.ltb a b) eqn:Hab; [reflexivity|].
  exfalso. apply Ha. left. symmetry. now apply string_not_ltb_eq.
Qed.

End Models.

(** X18.  The list of models that [GET /api/models] answers with holds
    every model of the collection once and no other string, in strictly
    ascending order of code units. *)
Theorem modelsList_sorted_distinct {num : Type} `{JsNumber num}
    (events : list (UsageEvent num)) :
  Sorted (fun a b => String.ltb a b = true) (Server.modelsList events)
  /\ List.NoDup (Server.modelsList events)
  /\ forall m, In m (Server.modelsList events) <-> exists e, In e events /\ model e = m.
Proof.
  unfold Server.modelsList, Server.distinct.
  destruct (distinct_spec (List.map (@model num) events) [] (List.NoDup_nil _))
    as [Hnd Hin].
  set (models := fold_left _ _ _) in *.
  assert (Hnd' : List.NoDup (JsArray.sort String.ltb models)).
  { apply (Permutation_NoDup (sort_perm _ String.ltb models) Hnd). }
  split; [|split; [exact Hnd'|]].
  - apply Sorted_strict; [exact Hnd'|].
    apply (sort_sorted _ String.ltb string_ltb_asym).
  - intros m. rewrite sort_in, Hin, List.in_map_iff. simpl.
    split.
    + intros [[]|(e & He & Hine)]. now exists e.
    + intros (e & Hine & He). right. now exists e.
Qed.

Section Limits.

Lemma slice_negative_end {A : Type} (n : Z) (l : list A) :
  (n < 0)%Z ->
  JsArray.slice 0 n l = firstn (Z.to_nat (Z.of_nat (length l) + n)) l.
Proof.
  intros Hn. unfold JsArray.slice, JsArray.relIndex.
  destruct (Z.ltb_spec n 0) as [_|]; [|lia]. simpl.
  rewrite Z.min_l, Z.sub_0_r by lia. simpl. f_equal. lia.
Qed.

Lemma slice_empty {A : Type} (start end_ : Z) (l : list A) :
  (JsArray.relIndex (Z.of_nat (length l)) end_
   <= JsArray.relIndex (Z.of_nat (length l)) start)%Z ->
  JsArray.slice start end_ l = [].
Proof.
  intros Hle. unfold JsArray.slice.
  replace (Z.to_nat _) with 0 by lia. reflexivity.
Qed.

End Limits.

(** X19.  A negative limit of [computeTopSessions] counts from the
    end: with the limit [-k] the [k] cheapest sessions are left out and
    all others are returned, in descending order of cost; with a limit
    of 0 no session is returned. *)
Theorem computeTopSessions_negative_limit {num : Type} `{JsNumber num}
    (events : list (UsageEvent num)) (from to : option string) (n : Z) :
  (n <= 0)%Z ->
  let filtered := Server.filterByDate events from to in
  let all :=
    Server.computeTopSessions events from to (Some (Z.of_nat (length filtered))) in
  Server.computeTopSessions events from to (Some n)
  = if (n =? 0)%Z then [] else firstn (Z.to_nat (Z.of_nat (length all) + n)) all.
Proof.
  intros Hn filtered all.
  set (sorted := JsArray.sort (Server.costBefore (@Server.s_cost_usd num (list string)))
                   (JsArray.values (Server.sessionMapOf filtered))).
  assert (Hall : all = List.map (@Server.joinModels num) sorted).
  { unfold all, Server.computeTopSessions. fold filtered. fold sorted.
    rewrite slice_firstn by lia. rewrite Nat2Z.id.
    rewrite List.firstn_all2; [reflexivity|].
    unfold sorted. rewrite sort_length. unfold JsArray.values.
    rewrite List.length_map. apply grouped_length. }
  unfold Server.computeTopSessions. fold filtered. fold sorted.
  destruct (Z.eqb_spec n 0) as [->|Hne].
  - rewrite slice_firstn by lia. reflexivity.
  - rewrite slice_negative_end by lia.
    rewrite Hall, List.length_map. symmetry. apply List.firstn_map.
Qed.

(** An instance of X19: of the three sessions of cost 10, 20 and 30 the
    limit -1 returns those of cost 30 and 20. *)
Lemma computeTopSessions_negative_limit_witness :
  List.map (@Server.rowKey float string)
    (Server.computeTopSessions Sample.threeSessions None None (Some (-1)%Z))
  = ["sc"; "sb"].
Proof.
  rewrite (computeTopSessions_negative_limit Sample.threeSessions None None (-1)%Z)
    by lia.
  vm_compute. reflexivity.
Defined.

(** X20.  The degenerate pages of [computeEvents]: with a page size of
    0 every page is empty and [pages] is not a number that JSON can
    carry; and with a page size of at least 0 the page 0 is empty. *)
Theorem computeEvents_degenerate_pages {num : Type} `{JsNumber num}
    (localeCompare : string -> string -> Z)
    (events : list (UsageEvent num)) (q : Server.EventsQuery) :
  let r := Server.computeEvents localeCompare events q in
  (Server.limit r = 0%Z -> Server.rows r = [] /\ Server.pages r = None)
  /\ (Server.page r = 0%Z -> (0 <= Server.limit r)%Z -> Server.rows r = []).
Proof.
  intros r. unfold r, Server.computeEvents.
  cbn [Server.limit Server.page Server.rows Server.pages].
  set (page := match Server.q_page q with Some p => p | None => 1%Z end).
  set (limit := match Server.q_limit q with Some l => l | None => 50%Z end).
  set (f := if bool_decide _ then _ else _).
  split.
  - intros Hlimit. rewrite Hlimit. split; [|reflexivity].
    apply slice_empty. rewrite Z.add_0_r. lia.
  - intros Hpage Hlimit. rewrite Hpage. apply slice_empty.
    unfold JsArray.relIndex.
    destruct (Z.ltb_spec ((0 - 1) * limit) 0),
             (Z.ltb_spec ((0 - 1) * limit + limit) 0); lia.
Qed.

(** An instance of X20: the routes pass [limit=0] and [page=0] on as
    the numbers 0. *)
Lemma computeEvents_degenerate_pages_witness :
  Server.rows
    (Server.computeEvents Sample.localeCompare Sample.threeSessions
       (Server.mkQuery None (Some 0%Z) None None None None None None)) = []
  /\ Server.rows
       (Server.computeEvents Sample.localeCompare Sample.threeSessions
          (Server.mkQuery (Some 0%Z) None None None None None None None)) = [].
Proof.
  split.
  - exact (proj1 (proj1 (computeEvents_degenerate_pages Sample.localeCompare
                           Sample.threeSessions
                           (Server.mkQuery None (Some 0%Z) None None None None None None))
                    eq_refl)).
  - apply (proj2 (computeEvents_degenerate_pages Sample.localeCompare
                    Sample.threeSessions
                    (Server.mkQuery (Some 0%Z) None None None None None None None)));
      [reflexivity|simpl; lia].
Defined.

(* ================================================================== *)
(** * Properties of the statements of the database module *)
(* ================================================================== *)

(** X21.  [buildWhere] and [deleteEvents] bind the dates and never
    write them into the statement: the text has one placeholder for
    each bound value, it depends only on which of the two bounds are
    given, and the values are [from] and [to] followed by "T23:59:59".
    The clause is empty exactly when no bound is given, and then
    [deleteEvents] runs a [DELETE] without a [WHERE]; [modelWhere]
    keeps the count of placeholders. *)
Theorem buildWhere_binds_values (from to from' to' : option string) :
  let w := Db.buildWhere from to in
  let d := Db.deleteEvents from to in
  Db.placeholders (Db.sql w) = length (Db.params w)
  /\ Db.placeholders (Db.modelWhere w) = length (Db.params w)
  /\ Db.placeholders (Db.text d) = length (Db.args d)
  /\ Db.args d = Db.params w
  /\ Db.params w
     = match truthy from with Some f => [Db.SText f] | None => [] end
       ++ match truthy to with
          | Some t => [Db.SText (String.append t "T23:59:59")]
          | None => []
          end
  /\ (Db.sql w = EmptyString <-> isTruthy from = false /\ isTruthy to = false)
  /\ (isTruthy from = false -> isTruthy to = false ->
      Db.text d = "DELETE FROM usage_events ")
  /\ (isTruthy from = isTruthy from' -> isTruthy to = isTruthy to' ->
      Db.sql (Db.buildWhere from' to') = Db.sql w
      /\ Db.text (Db.deleteEvents from' to') = Db.text d).
Proof.
  unfold Db.buildWhere, Db.deleteEvents, Db.modelWhere, Db.pushIf, isTruthy.
  destruct (truthy from) as [f|], (truthy to) as [t|];
    cbn [fst snd Db.sql Db.params Db.text Db.args Db.whereClause List.app];
    (repeat split; try reflexivity; try discriminate;
     try (intros [? ?]; discriminate));
    destruct (truthy from') as [f'|], (truthy to') as [t'|];
    intros; try discriminate; reflexivity.
Qed.

(** An instance of X21: a range of two days. *)
Lemma buildWhere_binds_values_witness :
  Db.text (Db.deleteEvents None None) = "DELETE FROM usage_events "
  /\ Db.sql (Db.buildWhere (Some "2024-01-01") (Some "2024-01-02"))
     = Db.sql (Db.buildWhere (Some "x' OR 1=1 --") (Some "2024-01-02")).
Proof.
  destruct (buildWhere_binds_values None None None None)
    as (_ & _ & _ & _ & _ & _ & Hall & _).
  destruct (buildWhere_binds_values (Some "x' OR 1=1 --") (Some "2024-01-02")
              (Some "2024-01-01") (Some "2024-01-02"))
    as (_ & _ & _ & _ & _ & _ & _ & Hsame).
  split; [exact (Hall eq_refl eq_refl)|exact (proj1 (Hsame eq_refl eq_refl))].
Defined.

Section Statements.

Lemma placeholders_append (a b : string) :
  Db.placeholders (String.append a b) = Db.placeholders a + Db.placeholders b.
Proof.
  induction a as [|c a IH]; [reflexivity|].
  change (String.append (String c a) b) with (String c (String.append a b)).
  cbn [Db.placeholders]. rewrite IH. lia.
Qed.

Lemma placeholders_join (conditions : list string) :
  List.Forall (fun c => Db.placeholders c = 1) conditions ->
  Db.placeholders (join " AND " conditions) = length conditions.
Proof.
  induction 1 as [|c rest Hc Hrest IH]; [reflexivity|].
  destruct rest as [|c' rest]; [simpl; exact Hc|].
  change (join " AND " (c :: c' :: rest))
    with (String.append c (String.append " AND " (join " AND " (c' :: rest)))).
  rewrite !placeholders_append, Hc, IH. reflexivity.
Qed.

Lemma placeholders_whereClause (conditions : list string) :
  List.Forall (fun c => Db.placeholders c = 1) conditions ->
  Db.placeholders (Db.whereClause conditions) = length conditions.
Proof.
  intros Hall. destruct conditions as [|c rest]; [reflexivity|].
  unfold Db.whereClause. rewrite placeholders_append.
  now rewrite (placeholders_join (c :: rest) Hall).
Qed.

(** The conditions that have been pushed depend on which options are
    given; each has one placeholder, and one value is pushed with
    it. *)
Lemma pushIf_conditions (o : option string) (cond : string)
    (param : string -> Db.SqlValue) (acc : list string * list Db.SqlValue) :
  fst (Db.pushIf o cond param acc)
  = (if isTruthy o then fst acc ++ [cond] else fst acc).
Proof. unfold Db.pushIf, isTruthy. now destruct (truthy o). Qed.

Lemma pushIf_bound (o : option string) (cond : string)
    (param : string -> Db.SqlValue) (acc : list string * list Db.SqlValue) :
  Db.placeholders cond = 1 ->
  List.Forall (fun c => Db.placeholders c = 1) (fst acc)
  /\ length (fst acc) = length (snd acc) ->
  List.Forall (fun c => Db.placeholders c = 1) (fst (Db.pushIf o cond param acc))
  /\ length (fst (Db.pushIf o cond param acc))
     = length (snd (Db.pushIf o cond param acc)).
Proof.
  intros Hcond [Hall Hlen]. unfold Db.pushIf.
  destruct (truthy o); [|now split]. simpl. split.
  - apply List.Forall_app. split; [exact Hall|]. now constructor.
  - rewrite !List.length_app, Hlen. reflexivity.
Qed.

End Statements.

(** X22.  The two statements of the database [getEvents] bind every
    filter value: each text has one placeholder for each bound value
    and depends only on which filters are given; the page statement
    binds the values of the count statement followed by the limit and
    the offset [(page - 1) * limit]. *)
Theorem getEvents_binds_values (q q' : Server.EventsQuery) :
  let count := fst (Db.getEvents q) in
  let rows := snd (Db.getEvents q) in
  let page := match Server.q_page q with Some p => p | None => 1%Z end in
  let limit := match Server.q_limit q with Some l => l | None => 50%Z end in
  Db.placeholders (Db.text count) = length (Db.args count)
  /\ Db.placeholders (Db.text rows) = length (Db.args rows)
  /\ Db.args rows
     = Db.args count ++ [Db.SNumber limit; Db.SNumber ((page - 1) * limit)%Z]
  /\ (isTruthy (Server.q_from q) = isTruthy (Server.q_from q') ->
      isTruthy (Server.q_to q) = isTruthy (Server.q_to q') ->
      isTruthy (Server.q_model q) = isTruthy (Server.q_model q') ->
      isTruthy (Server.q_provider q) = isTruthy (Server.q_provider q') ->
      isTruthy (Server.q_session_id q) = isTruthy (Server.q_session_id q') ->
      Db.text (fst (Db.getEvents q')) = Db.text count
      /\ Db.text (snd (Db.getEvents q')) = Db.text rows).
Proof.
  intros count rows page limit. unfold count, rows, Db.getEvents.
  cbn [fst snd Db.text Db.args].
  set (acc := Db.pushIf (Server.q_session_id q) _ _ _).
  assert (Hacc : List.Forall (fun c => Db.placeholders c = 1) (fst acc)
                 /\ length (fst acc) = length (snd acc)).
  { unfold acc. repeat (apply pushIf_bound; [reflexivity|]).
    split; [constructor|reflexivity]. }
  destruct Hacc as [Hall Hlen].
  pose proof (placeholders_whereClause (fst acc) Hall) as Hwhere.
  split; [|split; [|split]].
  - rewrite placeholders_append, Hwhere, Hlen. reflexivity.
  - cbn [String.concat]. rewrite !placeholders_append, Hwhere, List.length_app, Hlen.
    simpl. lia.
  - reflexivity.
  - intros Hfrom Hto Hmodel Hprovider Hsession.
    set (acc' := Db.pushIf (Server.q_session_id q') _ _ _).
    assert (Hsame : fst acc' = fst acc).
    { unfold acc, acc'. rewrite !pushIf_conditions.
      now rewrite Hfrom, Hto, Hmodel, Hprovider, Hsession. }
    rewrite Hsame. split; reflexivity.
Qed.

(** An instance of X22: a model filter with a quote in it. *)
Lemma getEvents_binds_values_witness :
  let q := Server.mkQuery (Some 3%Z) (Some 20%Z) (Some "o3") None None None None None in
  let q' := Server.mkQuery None None (Some "o3'; DROP TABLE usage_events; --")
              None None None None None in
  Db.text (snd (Db.getEvents q')) = Db.text (snd (Db.getEvents q))
  /\ Db.args (snd (Db.getEvents q))
     = [Db.SText "o3"; Db.SNumber 20%Z; Db.SNumber 40%Z].
Proof.
  intros q q'.
  destruct (getEvents_binds_values q q') as (_ & _ & Hargs & Hsame).
  split; [exact (proj2 (Hsame eq_refl eq_refl eq_refl eq_refl eq_refl))|].
  rewrite Hargs. reflexivity.
Defined.

(* ================================================================== *)
(** * Properties of the command line *)
(* ================================================================== *)

Section Flags.

Lemma indexOf_absent (flag : string) (args : list string) :
  ~ In flag args -> Cli.indexOf flag args = None.
Proof.
  induction args as [|a args IH]; intros Hin; simpl; [reflexivity|].
  destruct (String.eqb_spec a flag) as [->|_].
  - exfalso. apply Hin. now left.
  - rewrite IH; [reflexivity|]. intros Hin'. apply Hin. now right.
Qed.

Lemma indexOf_first (flag : string) (pre rest : list string) :
  ~ In flag pre -> Cli.indexOf flag (pre ++ flag :: rest) = Some (length pre).
Proof.
  induction pre as [|a pre IH]; intros Hin; simpl.
  - now rewrite String.eqb_refl.
  - destruct (String.eqb_spec a flag) as [->|_].
    + exfalso. apply Hin. now left.
    + rewrite IH; [reflexivity|]. intros Hin'. apply Hin. now right.
Qed.

Lemma hasFlag_false (args : list string) (flag : string) :
  Cli.hasFlag args flag = false <-> ~ In flag args.
Proof.
  unfold Cli.hasFlag. induction args as [|a args IH]; simpl; [tauto|].
  rewrite orb_false_iff, IH.
  destruct (String.eqb_spec a flag) as [->|Hne]; split.
  - intros [Habs _]. discriminate.
  - intros Hin. exfalso. apply Hin. now left.
  - intros [_ Hin] [Heq|Hin']; [congruence|now apply Hin].
  - intros Hin. split; [reflexivity|]. intros Hin'. apply Hin. now right.
Qed.

End Flags.

(** X23.  [getFlag] reads the argument behind the first occurrence of
    the flag: a flag that does not occur gives the default; a flag that
    stands last, with no argument behind it, gives [undefined] and not
    the default. *)
Theorem getFlag_first_occurrence (pre post : list string) (flag v : string)
    (defaultVal : option string) :
  ~ In flag pre ->
  Cli.getFlag pre flag defaultVal = defaultVal
  /\ Cli.getFlag (pre ++ flag :: v :: post) flag defaultVal = Some v
  /\ Cli.getFlag (pre ++ [flag]) flag defaultVal = None.
Proof.
  intros Hpre. unfold Cli.getFlag.
  rewrite (indexOf_absent flag pre Hpre), !(indexOf_first flag pre _ Hpre).
  split; [reflexivity|]. split.
  - rewrite List.nth_error_app2 by lia.
    replace (length pre + 1 - length pre) with 1 by lia. reflexivity.
  - apply List.nth_error_None. rewrite List.length_app. simpl. lia.
Qed.

(** An instance of X23. *)
Lemma getFlag_first_occurrence_witness :
  Cli.getFlag ["--no-open"; "-p"; "4000"; "-p"; "5000"] "-p" (Some "3000") = Some "4000"
  /\ Cli.getFlag ["--no-open"; "-p"] "-p" (Some "3000") = None.
Proof.
  assert (Hpre : ~ In "-p" ["--no-open"]) by (intros [Heq|[]]; discriminate Heq).
  destruct (getFlag_first_occurrence ["--no-open"] ["-p"; "5000"] "-p" "4000"
              (Some "3000") Hpre) as (_ & Hvalue & Hlast).
  split; [exact Hvalue|exact Hlast].
Defined.

(** X24.  The script calls [startServer] only with a port from 1 to
    65535, and never when a help or version flag is given.  Without
    such a flag, a value of [--port] that is not empty decides alone,
    whatever [-p] says: the port is what [parseInt] reads from it, and
    the script stops when that is not a number from 1 to 65535.
    Without any of the flags the port is 3000. *)
Theorem main_port (args : list string) (defaultDir : string) :
  (forall port openBrowser claudeDir,
     Cli.main args defaultDir = Cli.Start port openBrowser claudeDir ->
     (1 <= port <= 65535)%Z
     /\ Cli.hasFlag args "--help" = false /\ Cli.hasFlag args "-h" = false
     /\ Cli.hasFlag args "--version" = false /\ Cli.hasFlag args "-V" = false
     /\ openBrowser = negb (Cli.hasFlag args "--no-open"))
  /\ (forall pre v post,
        args = pre ++ "--port" :: v :: post ->
        ~ In "--port" pre -> v <> EmptyString ->
        (forall flag, In flag ["--help"; "-h"; "--version"; "-V"] -> ~ In flag args) ->
        Cli.main args defaultDir
        = match Cli.parseInt10 (Some v) with
          | Some port =>
              if (port <? 1)%Z || (65535 <? port)%Z then Cli.InvalidPort (Some v)
              else Cli.Start port (negb (Cli.hasFlag args "--no-open"))
                     (Cli.getFlag args "--claude-dir" (Some defaultDir))
          | None => Cli.InvalidPort (Some v)
          end)
  /\ ((forall flag, In flag ["--help"; "-h"; "--version"; "-V"; "--port"; "-p"] ->
         ~ In flag args) ->
      Cli.main args defaultDir
      = Cli.Start 3000 (negb (Cli.hasFlag args "--no-open"))
          (Cli.getFlag args "--claude-dir" (Some defaultDir))).
Proof.
  split; [|split].
  - intros port openBrowser claudeDir. unfold Cli.main.
    destruct (Cli.hasFlag args "--help"); [discriminate|].
    destruct (Cli.hasFlag args "-h"); [discriminate|].
    destruct (Cli.hasFlag args "--version"); [discriminate|].
    destruct (Cli.hasFlag args "-V"); [discriminate|].
    cbn [orb]. destruct (Cli.parseInt10 _) as [p|]; [|discriminate].
    destruct (Z.ltb_spec p 1); [discriminate|].
    destruct (Z.ltb_spec 65535 p); [discriminate|].
    cbn [orb]. intros [= <- <- _]. repeat split; try reflexivity; lia.
  - intros pre v post -> Hpre Hv Hnone. unfold Cli.main.
    rewrite !(proj2 (hasFlag_false _ _)) by (apply Hnone; simpl; tauto).
    cbn [orb].
    assert (Hvalue : Cli.getFlag (pre ++ "--port" :: v :: post) "--port" None = Some v).
    { unfold Cli.getFlag. rewrite (indexOf_first "--port" pre _ Hpre).
      rewrite List.nth_error_app2 by lia.
      replace (length pre + 1 - length pre) with 1 by lia. reflexivity. }
    rewrite Hvalue.
    destruct v as [|c v]; [congruence|]. reflexivity.
  - intros Hnone. unfold Cli.main.
    rewrite !(proj2 (hasFlag_false args _)) by (apply Hnone; simpl; tauto).
    cbn [orb]. unfold Cli.getFlag at 1 2.
    rewrite !indexOf_absent by (apply Hnone; simpl; tauto).
    reflexivity.
Qed.

(** An instance of X24: [--port] decides, and what follows the digits
    is not read. *)
Lemma main_port_witness :
  Cli.main ["-p"; "70000"; "--port"; "8080abc"] "/home/u/.claude"
  = Cli.Start 8080 true (Some "/home/u/.claude").
Proof.
  destruct (main_port ["-p"; "70000"; "--port"; "8080abc"] "/home/u/.claude")
    as (_ & Hport & _).
  rewrite (Hport ["-p"; "70000"] "8080abc" [] eq_refl).
  - reflexivity.
  - intros [Heq|[Heq|[]]]; discriminate Heq.
  - discriminate.
  - intros flag Hflag Hin. simpl in Hflag, Hin.
    destruct Hflag as [<-|[<-|[<-|[<-|[]]]]];
      repeat (destruct Hin as [Hin|Hin]; [discriminate Hin|]); exact Hin.
Defined.

(* ================================================================== *)
(** * The aggregations of a loaded collection *)
(* ================================================================== *)

(** X25.  In the overview of a collection that [loadAllEvents] has
    returned, the provider of a model row does not depend on which
    event of the model came first: it is [inferProvider] of the model
    of the row; and no row is for the placeholder "<synthetic>" or for
    an empty model name. *)
Theorem computeOverview_of_loaded {num : Type} `{JsNumber num}
    (clock : nat -> string) (claudeDir : Parser.ClaudeDir)
    (evs : list (UsageEvent num)) (from to : option string)
    (row : Server.ModelRow num) :
  Parser.loadAllEvents clock claudeDir = Some evs ->
  In row (Server.byModel (Server.computeOverview evs from to)) ->
  Server.m_provider row = Pricing.inferProvider (Server.m_model row)
  /\ Server.m_model row <> "<synthetic>"
  /\ Server.m_model row <> EmptyString
  /\ forall e, In e (Server.filterByDate evs from to) ->
       model e = Server.m_model row -> provider e = Server.m_provider row.
Proof.
  intros Hload Hrow.
  set (filtered := Server.filterByDate evs from to).
  assert (Hloaded : forall e, In e filtered -> In e evs).
  { intros e He. unfold filtered in He. rewrite filterByDate_filter in He.
    now apply List.filter_In in He. }
  assert (Hfields : forall e, In e filtered ->
            provider e = Pricing.inferProvider (model e)
            /\ model e <> "<synthetic>" /\ model e <> EmptyString).
  { intros e He.
    destruct (loaded_event_origin clock claudeDir evs e Hload (Hloaded e He))
      as (obj & _ & Horigin).
    destruct (eventOf_fields obj e Horigin) as (_ & Hm & Hs & Hp & _).
    now repeat split. }
  unfold Server.computeOverview in Hrow. cbn [Server.byModel] in Hrow.
  fold filtered in Hrow. apply sort_in in Hrow.
  unfold JsArray.values in Hrow.
  apply List.in_map_iff in Hrow as ([k r] & Hr & Hin). simpl in Hr. subst r.
  destruct (modelMap_rows filtered k row Hin)
    as [Hmodel (e0 & g & Hg & Hprovider) _ _ _ _ _ _].
  assert (He0 : In e0 filtered /\ model e0 = k).
  { assert (Hin0 : In e0 (Server.ofModel k filtered)) by (rewrite Hg; now left).
    unfold Server.ofModel in Hin0. apply List.filter_In in Hin0 as [Hin0 Hk].
    split; [exact Hin0|now apply String.eqb_eq]. }
  destruct He0 as [He0 Hk]. destruct (Hfields e0 He0) as (Hp0 & Hs0 & Hm0).
  rewrite Hmodel, Hprovider, Hp0, Hk.
  split; [reflexivity|]. split; [congruence|]. split; [congruence|].
  intros e He Hme. destruct (Hfields e He) as (Hp & _). now rewrite Hp, Hme.
Qed.

(** An instance of X25, in binary64 arithmetic: the rows of the sample
    directory. *)
Lemma computeOverview_of_loaded_witness :
  List.Forall
    (fun row => Server.m_provider row = Pricing.inferProvider (Server.m_model row))
    (Server.byModel (Server.computeOverview Sample.loaded None None))
  /\ List.map (@Server.m_model float)
       (Server.byModel (Server.computeOverview Sample.loaded None None))
     = ["claude-opus-4-6-20250601"; "gpt-4o"; "unknown-model-x"].
Proof.
  assert (Hload : Parser.loadAllEvents Sample.clock Sample.claudeDir = Some Sample.loaded)
    by (vm_compute; reflexivity).
  split; [|vm_compute; reflexivity].
  apply List.Forall_forall. intros row Hrow.
  exact (proj1 (computeOverview_of_loaded Sample.clock Sample.claudeDir Sample.loaded
                  None None row Hload Hrow)).
Defined.
